(** * The cache manager of the solver (solver/cachemanager.go)

    A shallow embedding of [cacheManager]: identity resolution of cache
    keys ([getID], [getIDFromDeps], [rootKey]), recursive link persistence
    ([ensurePersistentKey]), and the orchestration of the two storage
    collaborators ([Query], [Records], [Load], [filterResults],
    [LoadWithParents]).

    Modelling choices.
    - A [*CacheKey] is a heap object whose dependency lists are fixed at
      construction; the object graph below a key is therefore a finite DAG,
      which is unfolded here into a tree.  Pointer identity is kept in the
      field [addr]: two nodes with the same [addr] are the same Go object and
      share one memo entry.
    - The memo table [k.ids[c]] of every key object, for the one manager [c]
      under study, is the finite map [ids] of the world, keyed by [addr].
    - [CacheKeyStorage] and [CacheResultStorage] are Go interfaces; they are
      type classes here.  A walk hands the visited entries to its callback and
      may then fail, so it yields the entries it delivered and an optional
      error.
    - [identity.NewID] draws from a stream [NewID] indexed by the number of
      identifiers minted so far; [cachedigest.FromBytes] is a parameter.
    - Calls on the key storage and releases of artifact handles are logged in
      the world, the way a counting stub would.
    - The file under study holds the manager only.  The types it works on
      ([CacheKey], [CacheInfoLink], [CacheResult], [CacheRecord], [Result])
      and the two storage interfaces are declared elsewhere in the package;
      they are modelled from the specification, and the accessors
      [k.Deps()], [k.Digest()] and [k.Output()] are reads of the fields. *)

From Stdlib Require Import Ascii.
From stdpp Require Import gmap strings list pretty.

(** ** Value types *)

Definition error := string.

Inductive result (A : Type) : Type :=
  | Ok (a : A)
  | Err (e : error).
Arguments Ok {A} a.
Arguments Err {A} e.

(** Go's [Index] is an [int]. *)
Definition Index := Z.

(** Modelled from the spec: the struct [CacheInfoLink], declared outside
    the file; an edge label (InputSlot, OutputSlot, OperationDigest,
    Selector), built field by field in the manager. *)
Record CacheInfoLink := mkCacheInfoLink {
  Input : Index;
  Output : Index;
  Digest : string;
  Selector : string
}.

#[global] Instance CacheInfoLink_eq_dec : EqDecision CacheInfoLink.
Proof. solve_decision. Defined.

(** Modelled from the spec: the struct [CacheResult], declared outside the
    file; (ID, CreatedAt), a reference to a stored artifact. *)
Record CacheResult := mkCacheResult {
  cr_ID : string;
  cr_CreatedAt : Z
}.

#[global] Instance CacheResult_eq_dec : EqDecision CacheResult.
Proof. solve_decision. Defined.

(** Modelled from the spec: the interface [Result], declared outside the
    file; an artifact handle, here named by its [ID()]. *)
Definition Result := string.

(** Modelled from the spec: the struct [CacheKey], declared outside the
    file; [deps] pairs every parent key with its selector
    ([CacheKeyWithSelector]), slot [i] of the list being input [i].  The
    field [ids] is the finite map [ids] of the world, and [addr] is the
    address of the object. *)
#[warnings="-register-all"]
Inductive CacheKey := mkCacheKey {
  addr : positive;
  ID : string;
  digest : string;
  output : Index;
  deps : list (list (CacheKey * string))
}.

Definition CacheKeyWithSelector := (CacheKey * string)%type.

(** Modelled from the spec: the struct [CacheRecord], declared outside the
    file; the manager builds it from [ID], [key] and [CreatedAt] (the field
    [cacheManager] is the one manager under study). *)
Record CacheRecord := mkCacheRecord {
  rec_ID : string;
  rec_key : CacheKey;
  rec_CreatedAt : Z
}.

(** [LoadedResult], as declared in the file. *)
Record LoadedResult := mkLoadedResult {
  lr_Result : Result;
  lr_CacheResult : CacheResult;
  lr_CacheKey : CacheKey
}.

(** The addresses of the key objects in the graph below [k], [k] included. *)
Fixpoint addrs (k : CacheKey) : gset positive :=
  match k with
  | mkCacheKey a _ _ _ ds =>
      {[a]} ∪ ⋃ (map (λ ps, ⋃ (map (λ d : CacheKey * string, addrs d.1) ps)) ds)
  end.

Definition parent_addrs (k : CacheKey) : gset positive :=
  ⋃ (map (λ ps, ⋃ (map (λ d : CacheKey * string, addrs d.1) ps)) (deps k)).

(** No key object is its own ancestor (the pointer graph has no cycle). *)
Fixpoint acyclic (k : CacheKey) : bool :=
  match k with
  | mkCacheKey a _ _ _ ds =>
      bool_decide
        (a ∉ ⋃ (map (λ ps, ⋃ (map (λ d : CacheKey * string, addrs d.1) ps)) ds))
      && forallb (forallb (λ d : CacheKey * string, acyclic d.1)) ds
  end.

(** ** rootKey *)

(** [strings.HasPrefix(s, p)]. *)
Definition HasPrefix (s p : string) : bool := String.prefix p s.

(** [digest.Digest.Encoded]: what follows the first [":"]; Go panics when
    there is none, which is [None] here. *)
Fixpoint Encoded (d : string) : option string :=
  match d with
  | EmptyString => None
  | String c r => if Ascii.eqb c ":"%char then Some r else Encoded r
  end.

Section RootKey.
(** [cachedigest.FromBytes(_, cachedigest.TypeString)], the error dropped. *)
Variable FromBytes : string → string.

Definition rootKey (dgst : string) (output : Index) : string :=
  let out := FromBytes (dgst +:+ "@" +:+ pretty output) in
  if HasPrefix dgst "random:" then
    match Encoded dgst with
    | Some e => "random:" +:+ e
    | None => EmptyString
    end
  else out.
End RootKey.

(** ** The storage collaborators *)

(** Modelled from the spec: the interface [CacheKeyStorage], declared
    outside the file, with the operations the manager calls.  A walk yields
    the entries handed to its callback, in order, and the error it returned
    if any (no callback of the manager ever fails, so a walk stops early only
    through its own failure); the entries are fixed when the walk starts. *)
Class CacheKeyStorage (B : Type) := {
  backendExists : B → string → bool;
  WalkResults : B → string → list CacheResult * option error;
  WalkLinks : B → string → CacheInfoLink → list string * option error;
  AddLink : B → string → CacheInfoLink → string → B * option error;
  HasLink : B → string → CacheInfoLink → string → bool;
  backendLoad : B → string → string → result CacheResult;
  Release : B → string → B * option error
}.

(** Modelled from the spec: what its words for the operations of the key
    storage promise, and what the manager relies on: a link added is there
    afterwards, adding a link removes none, a link walk delivers stored
    links only, and a released result is no longer delivered by any walk
    (nor does a release bring an association back). *)
Class CacheKeyStorageLaws (B : Type) `{!CacheKeyStorage B} := {
  AddLink_HasLink b id l target :
    (AddLink b id l target).2 = None →
    HasLink (AddLink b id l target).1 id l target = true;
  AddLink_keeps b id l target id' l' target' :
    HasLink b id' l' target' = true →
    HasLink (AddLink b id l target).1 id' l' target' = true;
  WalkLinks_HasLink b id l target :
    target ∈ (WalkLinks b id l).1 → HasLink b id l target = true;
  Release_drops b resultID id cr :
    cr ∈ (WalkResults (Release b resultID).1 id).1 →
    cr ∈ (WalkResults b id).1 ∧ cr_ID cr ≠ resultID
}.

(** Modelled from the spec: what its words for [Release] promise when the
    call returns no error: the associations of the released identifier are
    gone and none is added.  Nothing is promised of a [Release] that
    fails. *)
Class CacheKeyStorageReleaseLaws (B : Type) `{!CacheKeyStorage B} := {
  Release_ok_drops b resultID id cr :
    (Release b resultID).2 = None →
    cr ∈ (WalkResults (Release b resultID).1 id).1 →
    cr ∈ (WalkResults b id).1 ∧ cr_ID cr ≠ resultID
}.

(** Modelled from the spec: the interface [CacheResultStorage], declared
    outside the file; the bulk [LoadWithParents] capability is optional (the
    manager finds it by a type assertion). *)
Class CacheResultStorage (R : Type) := {
  resultExists : R → string → bool;
  resultLoad : R → CacheResult → result Result;
  resultLoadWithParents : option (R → CacheResult → result (gmap string Result))
}.

(** The calls on the key storage, as a recording stub would see them. *)
Inductive Call :=
  | CallExists (id : string)
  | CallWalkResults (id : string)
  | CallWalkLinks (id : string) (l : CacheInfoLink)
  | CallAddLink (id : string) (l : CacheInfoLink) (target : string)
  | CallHasLink (id : string) (l : CacheInfoLink) (target : string)
  | CallLoad (id resultID : string)
  | CallRelease (resultID : string).

Definition is_HasLink (c : Call) : bool :=
  match c with
  | CallHasLink _ _ _ => true
  | _ => false
  end.

Definition is_WalkLinks (c : Call) : bool :=
  match c with
  | CallWalkLinks _ _ => true
  | _ => false
  end.

(** ** The manager *)

Section Manager.
Context {B R : Type} `{!CacheKeyStorage B, !CacheResultStorage R}.
Variable FromBytes : string → string.
Variable NewID : nat → string.

(** Everything the manager [c] can read or change: its two collaborators,
    the memo entry [k.ids[c]] of every key object, the allocator of key
    objects, the number of identifiers minted, and the two logs. *)
Record World := mkWorld {
  backend : B;
  results : R;
  ids : gmap positive string;
  heap_next : positive;
  minted : nat;
  released : list Result;
  trace : list Call
}.

Definition St (A : Type) : Type := World → A * World.

#[global] Instance St_ret : MRet St := λ A a w, (a, w).
#[global] Instance St_bind : MBind St :=
  λ A A' f c w, let '(a, w') := c w in f a w'.

Definition logCall (c : Call) (w : World) : World :=
  mkWorld (backend w) (results w) (ids w) (heap_next w) (minted w)
          (released w) (trace w ++ [c]).

Definition setBackend (b : B) (w : World) : World :=
  mkWorld b (results w) (ids w) (heap_next w) (minted w)
          (released w) (trace w).

Definition setID (a : positive) (id : string) (w : World) : World :=
  mkWorld (backend w) (results w) (<[a:=id]> (ids w)) (heap_next w)
          (minted w) (released w) (trace w).

(** *** Collaborator calls *)

Definition existsKey (id : string) : St bool :=
  λ w, (backendExists (backend w) id, logCall (CallExists id) w).

Definition walkResults (id : string) : St (list CacheResult * option error) :=
  λ w, (WalkResults (backend w) id, logCall (CallWalkResults id) w).

Definition walkLinks (id : string) (l : CacheInfoLink)
  : St (list string * option error) :=
  λ w, (WalkLinks (backend w) id l, logCall (CallWalkLinks id l) w).

Definition addLink (id : string) (l : CacheInfoLink) (target : string)
  : St (option error) :=
  λ w, let '(b, err) := AddLink (backend w) id l target in
       (err, logCall (CallAddLink id l target) (setBackend b w)).

Definition hasLink (id : string) (l : CacheInfoLink) (target : string)
  : St bool :=
  λ w, (HasLink (backend w) id l target, logCall (CallHasLink id l target) w).

Definition loadBackend (id resultID : string) : St (result CacheResult) :=
  λ w, (backendLoad (backend w) id resultID, logCall (CallLoad id resultID) w).

Definition releaseBackend (resultID : string) : St (option error) :=
  λ w, let '(b, err) := Release (backend w) resultID in
       (err, logCall (CallRelease resultID) (setBackend b w)).

Definition existsResult (resultID : string) : St bool :=
  λ w, (resultExists (results w) resultID, w).

Definition loadResult (res : CacheResult) : St (result Result) :=
  λ w, (resultLoad (results w) res, w).

Definition bulkLoad (lwp : R → CacheResult → result (gmap string Result))
    (res : CacheResult) : St (result (gmap string Result)) :=
  λ w, (lwp (results w) res, w).

(** [identity.NewID()]. *)
Definition newID : St string :=
  λ w, (NewID (minted w),
        mkWorld (backend w) (results w) (ids w) (heap_next w)
                (S (minted w)) (released w) (trace w)).

(** [r.Release(ctx)] for every handle of [rs]. *)
Definition releaseAll (rs : list Result) : St unit :=
  λ w, (tt, mkWorld (backend w) (results w) (ids w) (heap_next w)
                    (minted w) (released w ++ rs) (trace w)).

(** *** getIDFromDeps and getID *)

(** [for k := range matches { return k }]: Go leaves the order open; the
    model takes the first element of the set's enumeration. *)
Definition range_first (matches : gset string) : option string :=
  head (elements matches).

(** The inner loop of [getIDFromDeps] over the parents of slot [i]; a
    parent comes as its [getID] computation and its selector. *)
Fixpoint walkSlot (i : nat) (out : Index) (dgst : string)
    (ps : list (St string * string)) (matches : gset string)
  : St (gset string) :=
  match ps with
  | [] => mret matches
  | (getp, sel) :: ps' =>
      pid ← getp;
      '(found, err) ← walkLinks pid (mkCacheInfoLink (Z.of_nat i) out dgst sel);
      match err with
      | Some _ => mret ∅
      | None =>
          let m2 : gset string := list_to_set found in
          walkSlot i out dgst ps'
            (if bool_decide (i = 0) then matches ∪ m2 else matches ∩ m2)
      end
  end.

Fixpoint walkSlots (i : nat) (out : Index) (dgst : string)
    (dss : list (list (St string * string))) (matches : gset string)
  : St (gset string) :=
  match dss with
  | [] => mret matches
  | ps :: dss' =>
      if bool_decide (i = 0) || negb (bool_decide (matches = ∅)) then
        matches' ← walkSlot i out dgst ps matches;
        walkSlots (S i) out dgst dss' matches'
      else walkSlots (S i) out dgst dss' matches
  end.

Definition getIDFromDeps_of (out : Index) (dgst : string)
    (dss : list (list (St string * string))) : St string :=
  matches ← walkSlots 0 out dgst dss ∅;
  match range_first matches with
  | Some k => mret k
  | None => newID
  end.

Definition getID_of (a : positive) (id : string) (nodeps : bool)
    (derive : St string) : St string :=
  λ w, match ids w !! a with
       | Some v => (v, w)
       | None =>
           if nodeps then (id, setID a id w)
           else let '(v, w') := derive w in (v, setID a v w')
       end.

Fixpoint getID (k : CacheKey) : St string :=
  match k with
  | mkCacheKey a id dg out ds =>
      getID_of a id (bool_decide (ds = []))
        (getIDFromDeps_of out dg
           (map (map (λ d : CacheKey * string, (getID d.1, d.2))) ds))
  end.

Definition getIDFromDeps (k : CacheKey) : St string :=
  getIDFromDeps_of (output k) (digest k)
    (map (map (λ d : CacheKey * string, (getID d.1, d.2))) (deps k)).

(** *** Key construction *)

(** [newKey] allocates a key object; [newKeyWithID] fills it and seeds
    its memo entry for this manager. *)
Definition newKeyWithID (id dgst : string) (output : Index) : St CacheKey :=
  λ w, let a := heap_next w in
       (mkCacheKey a id dgst output [],
        mkWorld (backend w) (results w) (<[a:=id]> (ids w)) (Pos.succ a)
                (minted w) (released w) (trace w)).

Definition newRootKey (dgst : string) (output : Index) : St CacheKey :=
  newKeyWithID (rootKey FromBytes dgst output) dgst output.

(** *** ensurePersistentKey *)

(** The inner loop over the parents of slot [i]; a parent comes as its
    [getID] computation, its own [ensurePersistentKey] computation and its
    selector. *)
Fixpoint ensureSlot (i : nat) (out : Index) (dgst id : string)
    (ps : list (St string * St (option error) * string))
  : St (option error) :=
  match ps with
  | [] => mret None
  | (getp, ensurep, sel) :: ps' =>
      let l := mkCacheInfoLink (Z.of_nat i) out dgst sel in
      ckID ← getp;
      has ← hasLink ckID l id;
      if (has : bool) then ensureSlot i out dgst id ps'
      else
        err ← ensurep;
        match err with
        | Some e => mret (Some e)
        | None =>
            err ← addLink ckID l id;
            match err with
            | Some e => mret (Some e)
            | None => ensureSlot i out dgst id ps'
            end
        end
  end.

Fixpoint ensureSlots (i : nat) (out : Index) (dgst id : string)
    (dss : list (list (St string * St (option error) * string)))
  : St (option error) :=
  match dss with
  | [] => mret None
  | ps :: dss' =>
      err ← ensureSlot i out dgst id ps;
      match err with
      | Some e => mret (Some e)
      | None => ensureSlots (S i) out dgst id dss'
      end
  end.

Fixpoint ensurePersistentKey (k : CacheKey) : St (option error) :=
  match k with
  | mkCacheKey a kid dg out ds =>
      id ← getID (mkCacheKey a kid dg out ds);
      ensureSlots 0 out dg id
        (map (map (λ d : CacheKey * string,
                     (getID d.1, ensurePersistentKey d.1, d.2))) ds)
  end.

(** *** Query *)

(** The callback of the first loop, run on what one walk delivered:
    [allRes] gets a new key for every identifier not seen before.  [allRes]
    is kept in discovery order; Go ranges over it in no fixed order. *)
Fixpoint discover (dgst : string) (output : Index) (found : list string)
    (allRes : list (string * CacheKey)) : St (list (string * CacheKey)) :=
  match found with
  | [] => mret allRes
  | id :: rest =>
      if bool_decide (id ∈ allRes.*1) then discover dgst output rest allRes
      else
        k ← newKeyWithID id dgst output;
        discover dgst output rest (allRes ++ [(id, k)])
  end.

(** The first loop: one walk per dependency; yields every [d.results]
    and [allRes]. *)
Fixpoint queryWalk (input : Index) (dgst : string) (output : Index)
    (deps : list CacheKeyWithSelector) (allRes : list (string * CacheKey))
  : St (result (list (gset string) * list (string * CacheKey))) :=
  match deps with
  | [] => mret (Ok ([], allRes))
  | d :: deps' =>
      pid ← getID d.1;
      '(found, err) ← walkLinks pid (mkCacheInfoLink input output dgst d.2);
      allRes' ← discover dgst output found allRes;
      match err with
      | Some e => mret (Err e)
      | None =>
          r ← queryWalk input dgst output deps' allRes';
          match r with
          | Ok (sets, allRes'') => mret (Ok (list_to_set found :: sets, allRes''))
          | Err e => mret (Err e)
          end
      end
  end.

(** The second loop, for one discovered identifier. *)
Fixpoint linkDeps (input : Index) (dgst : string) (output : Index)
    (id : string) (key : CacheKey)
    (allDeps : list (CacheKeyWithSelector * gset string))
  : St (option error) :=
  match allDeps with
  | [] => mret None
  | (d, dresults) :: rest =>
      if bool_decide (id ∈ dresults) then
        linkDeps input dgst output id key rest
      else
        pid ← getID d.1;
        target ← getID key;
        err ← addLink pid (mkCacheInfoLink input output dgst d.2) target;
        match err with
        | Some e => mret (Some e)
        | None => linkDeps input dgst output id key rest
        end
  end.

Fixpoint linkResults (input : Index) (dgst : string) (output : Index)
    (allRes : list (string * CacheKey))
    (allDeps : list (CacheKeyWithSelector * gset string))
  : St (option error) :=
  match allRes with
  | [] => mret None
  | (id, key) :: rest =>
      err ← linkDeps input dgst output id key allDeps;
      match err with
      | Some e => mret (Some e)
      | None => linkResults input dgst output rest allDeps
      end
  end.

Definition Query (deps : list CacheKeyWithSelector) (input : Index)
    (dgst : string) (output : Index) : St (result (list CacheKey)) :=
  r ← queryWalk input dgst output deps [];
  match r with
  | Err e => mret (Err e)
  | Ok (sets, allRes) =>
      err ← linkResults input dgst output allRes (zip deps sets);
      match err with
      | Some e => mret (Err e)
      | None =>
          if bool_decide (deps = []) then
            found ← existsKey (rootKey FromBytes dgst output);
            if (found : bool) then
              k ← newRootKey dgst output;
              mret (Ok [k])
            else mret (Ok [])
          else mret (Ok (allRes.*2))
      end
  end.

(** *** Records *)

(** The callback of [Records], run on what the walk delivered. *)
Fixpoint recordsWalk (ck : CacheKey) (crs : list CacheResult)
    (outs : list CacheRecord) : St (list CacheRecord) :=
  match crs with
  | [] => mret outs
  | r :: rest =>
      present ← existsResult (cr_ID r);
      if (present : bool) then
        recordsWalk ck rest (outs ++ [mkCacheRecord (cr_ID r) ck (cr_CreatedAt r)])
      else
        _ ← releaseBackend (cr_ID r);
        recordsWalk ck rest outs
  end.

Definition Records (ck : CacheKey) : St (result (list CacheRecord)) :=
  id ← getID ck;
  '(crs, err) ← walkResults id;
  outs ← recordsWalk ck crs [];
  match err with
  | Some e => mret (Err e)
  | None => mret (Ok outs)
  end.

(** *** Load, filterResults, LoadWithParents *)

Definition Load (rec : CacheRecord) : St (result Result) :=
  id ← getID (rec_key rec);
  r ← loadBackend id (rec_ID rec);
  match r with
  | Err e => mret (Err e)
  | Ok res => loadResult res
  end.

(** The bulk mapping [m] and the [visited] set are Go maps shared by the
    whole traversal; they are threaded through it. *)
Definition Trav := (gmap string Result * gset string)%type.

(** What [filterResults] hands back: [results], [err], and the two maps. *)
Definition Filtered := (list LoadedResult * option error * Trav)%type.

(** The callback of [filterResults], run on what the walk delivered. *)
Fixpoint matchResults (id : string) (ck : CacheKey) (crs : list CacheResult)
    (results : list LoadedResult) (m : gmap string Result)
  : list LoadedResult * gmap string Result :=
  match crs with
  | [] => (results, m)
  | cr :: rest =>
      match m !! id with
      | Some res =>
          matchResults id ck rest (results ++ [mkLoadedResult res cr ck])
                       (delete id m)
      | None => matchResults id ck rest results m
      end
  end.

(** The loops over [ck.Deps()]; a parent comes as its [filterResults]
    computation.  [Some r] is an early [return r]. *)
Fixpoint filterSlot (ps : list (Trav → St Filtered))
    (results : list LoadedResult) (t : Trav)
  : St (option Filtered * list LoadedResult * Trav) :=
  match ps with
  | [] => mret (None, results, t)
  | filterp :: ps' =>
      '(res, err, t') ← filterp t;
      match err with
      | Some e =>
          _ ← releaseAll (lr_Result <$> results);
          mret (Some ([], Some e, t'), results, t')
      | None => filterSlot ps' (results ++ res) t'
      end
  end.

Fixpoint filterSlots (dss : list (list (Trav → St Filtered)))
    (results : list LoadedResult) (t : Trav) : St Filtered :=
  match dss with
  | [] => mret (results, None, t)
  | ps :: dss' =>
      '(ret, results', t') ← filterSlot ps results t;
      match ret with
      | Some r => mret r
      | None => filterSlots dss' results' t'
      end
  end.

Definition filterResults_of (ck : CacheKey)
    (dss : list (list (Trav → St Filtered))) (t : Trav) : St Filtered :=
  id ← getID ck;
  if bool_decide (id ∈ t.2) then mret ([], None, t)
  else
    let visited := {[id]} ∪ t.2 in
    '(crs, err) ← walkResults id;
    let '(results, m) := matchResults id ck crs [] t.1 in
    _ ← (if err is Some _ then releaseAll (lr_Result <$> results) else mret tt);
    filterSlots dss results (m, visited).

Fixpoint filterResults (ck : CacheKey) : Trav → St Filtered :=
  match ck with
  | mkCacheKey a id dg out ds =>
      filterResults_of (mkCacheKey a id dg out ds)
        (map (map (λ d : CacheKey * string, filterResults d.1)) ds)
  end.

(** [for _, r := range m]: the handles of the map, in its enumeration. *)
Definition handles (m : gmap string Result) : list Result :=
  (map_to_list m).*2.

Definition LoadWithParents (rec : CacheRecord)
  : St (result (list LoadedResult)) :=
  match resultLoadWithParents with
  | None =>
      r ← Load rec;
      match r with
      | Err e => mret (Err e)
      | Ok res =>
          id ← getID (rec_key rec);
          mret (Ok [mkLoadedResult res (mkCacheResult id (rec_CreatedAt rec))
                                   (rec_key rec)])
      end
  | Some lwp =>
      id ← getID (rec_key rec);
      r ← loadBackend id (rec_ID rec);
      match r with
      | Err e => mret (Err e)
      | Ok cr =>
          rm ← bulkLoad lwp cr;
          match rm with
          | Err e => mret (Err e)
          | Ok m =>
              '(results, err, t) ← filterResults (rec_key rec) (m, ∅);
              _ ← (if err is Some _ then releaseAll (handles t.1) else mret tt);
              _ ← releaseAll (handles t.1);
              mret (Ok results)
          end
      end
  end.
End Manager.

Arguments World : clear implicits.
Arguments St : clear implicits.

(** ** Stub collaborators

    A list-backed key storage and a list-backed result storage, of the kind
    a test of the manager plugs in: links and result associations are kept
    in lists, walks over the identifiers in [stub_failing] deliver what is
    stored and then fail, and a read-only store rejects [AddLink]. *)

Record StubStore := mkStubStore {
  stub_links : list (string * CacheInfoLink * string);
  stub_results : list (string * CacheResult);
  stub_failing : list string;
  stub_readonly : bool
}.

Definition stub_walk_error (b : StubStore) (id : string) : option error :=
  if bool_decide (id ∈ stub_failing b) then Some "walk failed" else None.

Definition stub_exists (b : StubStore) (id : string) : bool :=
  bool_decide (id ∈ (stub_results b).*1)
  || bool_decide (id ∈ (stub_links b).*1.*1)
  || bool_decide (id ∈ (stub_links b).*2).

Definition stub_walk_results (b : StubStore) (id : string)
  : list CacheResult * option error :=
  ((filter (λ e, e.1 = id) (stub_results b)).*2, stub_walk_error b id).

Definition stub_walk_links (b : StubStore) (id : string) (l : CacheInfoLink)
  : list string * option error :=
  ((filter (λ e, e.1 = (id, l)) (stub_links b)).*2, stub_walk_error b id).

Definition stub_add_link (b : StubStore) (id : string) (l : CacheInfoLink)
    (target : string) : StubStore * option error :=
  if stub_readonly b then (b, Some "read-only store")
  else (mkStubStore (stub_links b ++ [(id, l, target)]) (stub_results b)
                    (stub_failing b) (stub_readonly b), None).

Definition stub_has_link (b : StubStore) (id : string) (l : CacheInfoLink)
    (target : string) : bool :=
  bool_decide ((id, l, target) ∈ stub_links b).

Definition stub_load (b : StubStore) (id resultID : string)
  : result CacheResult :=
  match filter (λ e, e.1 = id ∧ cr_ID e.2 = resultID) (stub_results b) with
  | e :: _ => Ok e.2
  | [] => Err "not found"
  end.

Definition stub_release (b : StubStore) (resultID : string)
  : StubStore * option error :=
  (mkStubStore (stub_links b)
               (filter (λ e, cr_ID e.2 ≠ resultID) (stub_results b))
               (stub_failing b) (stub_readonly b), None).

#[global] Instance StubStore_storage : CacheKeyStorage StubStore := {|
  backendExists := stub_exists;
  WalkResults := stub_walk_results;
  WalkLinks := stub_walk_links;
  AddLink := stub_add_link;
  HasLink := stub_has_link;
  backendLoad := stub_load;
  Release := stub_release
|}.

(** The artifacts present, and what a bulk load returns. *)
Record StubArtifacts := mkStubArtifacts {
  art_present : list string;
  art_bulk : gmap string Result
}.

#[global] Instance StubArtifacts_storage : CacheResultStorage StubArtifacts := {|
  resultExists := λ r id, bool_decide (id ∈ art_present r);
  resultLoad := λ r cr,
    if bool_decide (cr_ID cr ∈ art_present r) then Ok (cr_ID cr)
    else Err "artifact missing";
  resultLoadWithParents := Some (λ r _, Ok (art_bulk r))
|}.

(** A digest function that tags its input, and an identifier stream. *)
Definition stubFromBytes (s : string) : string := "sha256:" +:+ s.
Definition stubNewID (n : nat) : string := "minted-" +:+ pretty n.

Definition stubWorld (b : StubStore) (r : StubArtifacts) : World StubStore StubArtifacts :=
  mkWorld b r ∅ 100%positive 0 [] [].

(** A key storage over the same lists whose [Release] fails and removes
    nothing. *)
Record StickyStore := mkStickyStore {
  sticky_store : StubStore
}.

#[global] Instance StickyStore_storage : CacheKeyStorage StickyStore := {|
  backendExists := λ b, stub_exists (sticky_store b);
  WalkResults := λ b, stub_walk_results (sticky_store b);
  WalkLinks := λ b, stub_walk_links (sticky_store b);
  AddLink := λ b id l target,
    (mkStickyStore (stub_add_link (sticky_store b) id l target).1,
     (stub_add_link (sticky_store b) id l target).2);
  HasLink := λ b, stub_has_link (sticky_store b);
  backendLoad := λ b, stub_load (sticky_store b);
  Release := λ b _, (b, Some "release failed")
|}.


(** ** Relations between worlds *)

Section Frames.
Context {B R : Type} `{!CacheKeyStorage B, !CacheResultStorage R}.

(** The computation [c] moves every world along [P]. *)
Definition preserves {A : Type} (P : relation (World B R)) (c : St B R A)
  : Prop :=
  ∀ w, P w (c w).2.

(** What identity resolution may do: walk links and mint identifiers, and
    add memo entries at the addresses of [X]; nothing is written to either
    storage, no key object is allocated, no handle is released. *)
Record resolves (X : gset positive) (w w' : World B R) : Prop := mkResolves {
  res_backend : backend w' = backend w;
  res_results : results w' = results w;
  res_heap : heap_next w' = heap_next w;
  res_released : released w' = released w;
  res_minted : minted w ≤ minted w';
  res_trace : ∃ t, trace w' = trace w ++ t ∧ forallb is_WalkLinks t = true;
  res_dom : dom (ids w') ⊆ dom (ids w) ∪ X
}.

(** Resolution that also keeps every memo entry it found. *)
Definition extends (X : gset positive) (w w' : World B R) : Prop :=
  resolves X w w' ∧ ids w ⊆ ids w'.

(** The key storage is untouched and every memo entry is kept. *)
Definition grows (w w' : World B R) : Prop :=
  backend w' = backend w ∧ ids w ⊆ ids w'.

(** A preorder on worlds that every link walk and every minting respects. *)
Class Resolving (NewID : nat → string) (P : relation (World B R)) := {
  resolving_preorder :: PreOrder P;
  resolving_walk id l : preserves P (walkLinks id l);
  resolving_mint : preserves P (newID NewID)
}.
End Frames.

(** ** Candidate sets of a derivation *)

Section Candidates.
Context {B R : Type} `{!CacheKeyStorage B, !CacheResultStorage R}.

(** The label of the link from a parent in slot [i] to the key [k]. *)
Definition depLink (k : CacheKey) (i : nat) (sel : string) : CacheInfoLink :=
  mkCacheInfoLink (Z.of_nat i) (output k) (digest k) sel.

(** The identifiers that the link walk from the parent [d] of [k] in slot
    [i] delivers, for the identifier the parent is resolved to in [w]
    (nothing if it is not resolved). *)
Definition reached (w : World B R) (k : CacheKey) (i : nat)
    (d : CacheKey * string) : gset string :=
  match ids w !! addr d.1 with
  | Some pid => list_to_set (WalkLinks (backend w) pid (depLink k i d.2)).1
  | None => ∅
  end.

(** The parent [d] is resolved in [w] and the link walk from it fails. *)
Definition walk_fails (w : World B R) (k : CacheKey) (i : nat)
    (d : CacheKey * string) : bool :=
  match ids w !! addr d.1 with
  | Some pid =>
      match (WalkLinks (backend w) pid (depLink k i d.2)).2 with
      | Some _ => true
      | None => false
      end
  | None => false
  end.

(** The candidates as [getIDFromDeps] computes them: the union over the
    parents of slot 0, then cut down by every parent of every later slot. *)
Fixpoint derived_slots (w : World B R) (k : CacheKey) (i : nat)
    (dss : list (list (CacheKey * string))) (acc : gset string)
  : gset string :=
  match dss with
  | [] => acc
  | ps :: dss' =>
      derived_slots w k (S i) dss' (foldl (λ m d, m ∩ reached w k i d) acc ps)
  end.

Definition derived_candidates (w : World B R) (k : CacheKey) : gset string :=
  match deps k with
  | [] => ∅
  | ps :: dss => derived_slots w k 1 dss (⋃ (reached w k 0 <$> ps))
  end.

(** The candidates in the words of the specification: slot 0 seeds the
    set with the union over its parents, and every later slot intersects
    the running set with the union over its own parents. *)
Fixpoint spec_slots (w : World B R) (k : CacheKey) (i : nat)
    (dss : list (list (CacheKey * string))) (acc : gset string)
  : gset string :=
  match dss with
  | [] => acc
  | ps :: dss' => spec_slots w k (S i) dss' (acc ∩ ⋃ (reached w k i <$> ps))
  end.

Definition spec_candidates (w : World B R) (k : CacheKey) : gset string :=
  match deps k with
  | [] => ∅
  | ps :: dss => spec_slots w k 1 dss (⋃ (reached w k 0 <$> ps))
  end.
End Candidates.

(** ** Auxiliary notions for the statements *)

Section Notions.
Context {B R : Type} `{!CacheKeyStorage B, !CacheResultStorage R}.

(** The artifact of the association [r] exists in the result storage. *)
Definition present (w : World B R) (r : CacheResult) : bool :=
  resultExists (results w) (cr_ID r).

(** The record [Records] builds for the association [r] of the key [ck]. *)
Definition toRecord (ck : CacheKey) (r : CacheResult) : CacheRecord :=
  mkCacheRecord (cr_ID r) ck (cr_CreatedAt r).

(** The key storage after [Release] of every association of [crs]. *)
Definition releaseEach (b : B) (crs : list CacheResult) : B :=
  foldl (λ b r, (Release b (cr_ID r)).1) b crs.

(** Every [Release] of the associations of [crs], made in turn from the
    key storage [b], returns no error. *)
Fixpoint releases_succeed (b : B) (crs : list CacheResult) : bool :=
  match crs with
  | [] => true
  | r :: rest =>
      match (Release b (cr_ID r)).2 with
      | None => releases_succeed (Release b (cr_ID r)).1 rest
      | Some _ => false
      end
  end.

(** The world after the calls [t], none of which changed the storage. *)
Definition logCalls (t : list Call) (w : World B R) : World B R :=
  mkWorld (backend w) (results w) (ids w) (heap_next w) (minted w)
          (released w) (trace w ++ t).

(** Every memo entry and every stored link is kept. *)
Definition keeps (w w' : World B R) : Prop :=
  ids w ⊆ ids w' ∧
  ∀ id l target,
    HasLink (backend w) id l target = true →
    HasLink (backend w') id l target = true.

(** The parent [d] of [k] in slot [i] is resolved in [w], and the link
    from it to the identifier [id] of [k] is stored. *)
Definition parent_linked (w : World B R) (k : CacheKey) (id : string)
    (i : nat) (d : CacheKey * string) : Prop :=
  ∃ pid, ids w !! addr d.1 = Some pid ∧
         HasLink (backend w) pid (depLink k i d.2) id = true.

(** [k] is resolved in [w] and linked from every one of its parents. *)
Definition linked (w : World B R) (k : CacheKey) : Prop :=
  ∃ id, ids w !! addr k = Some id ∧
        ∀ i ps d, deps k !! i = Some ps → d ∈ ps → parent_linked w k id i d.

(** The allocator hands out addresses above every address in use. *)
Definition fresh_ids (w : World B R) : Prop :=
  ∀ a, a ∈ dom (ids w) → (a < heap_next w)%positive.

Definition below_heap (w : World B R) (deps : list CacheKeyWithSelector) : Prop :=
  ∀ d a, d ∈ deps → a ∈ addrs d.1 → (a < heap_next w)%positive.

(** Every key of [allRes] is resolved to the identifier it stands for. *)
Definition resolved_all (w : World B R) (allRes : list (string * CacheKey)) : Prop :=
  ∀ id key, (id, key) ∈ allRes → ids w !! addr key = Some id ∧ ID key = id.

(** The call [c] was logged between [w] and [w']. *)
Definition logged (w w' : World B R) (c : Call) : Prop :=
  ∃ t, trace w' = trace w ++ t ∧ c ∈ t.


(** Between [w] and [w'] links were added at most. *)
Definition linking (w w' : World B R) : Prop :=
  ids w' = ids w ∧
  (∀ id l target,
     HasLink (backend w) id l target = true →
     HasLink (backend w') id l target = true) ∧
  ∃ t, trace w' = trace w ++ t.

(** The label [Query] walks and links with for the dependency [d]. *)
Definition queryLink (input : Index) (dgst : string) (output : Index)
    (d : CacheKeyWithSelector) : CacheInfoLink :=
  mkCacheInfoLink input output dgst d.2.

(** [dresults] is what the walk from the dependency [d], as resolved in
    [w'], delivers on the key storage [b]. *)
Definition walked (b : B) (w' : World B R) (input : Index) (dgst : string)
    (output : Index) (d : CacheKeyWithSelector) (dresults : gset string)
  : Prop :=
  ∃ pid, ids w' !! addr d.1 = Some pid ∧
         dresults = list_to_set (WalkLinks b pid (queryLink input dgst output d)).1.
End Notions.

(** ** Concrete inputs *)

(** A key graph, a store and a record on which the traversal of
    [LoadWithParents] meets a failing walk. *)
Definition leak_key : CacheKey := mkCacheKey 1 "root" "op" 0%Z [].
Definition leak_result : CacheResult := mkCacheResult "r1" 0%Z.
Definition leak_store : StubStore :=
  mkStubStore [] [("root", leak_result)] ["root"] false.
Definition leak_artifacts : StubArtifacts :=
  mkStubArtifacts ["r1"] {[ "root" := "h-root"; "other" := "h-other" ]}.
Definition leak_record : CacheRecord := mkCacheRecord "r1" leak_key 0%Z.
Definition leak_world : World StubStore StubArtifacts :=
  stubWorld leak_store leak_artifacts.

(** Three root keys and a key with two input slots over them; a store in
    which [A] (slot 0) and [B] (slot 1) link to [X] and [C] links to
    nothing; the same store with failing walks from [B]. *)
Definition demoA : CacheKey := mkCacheKey 1 "A" "dA" 0%Z [].
Definition demoB : CacheKey := mkCacheKey 2 "B" "dB" 0%Z [].
Definition demoC : CacheKey := mkCacheKey 3 "C" "dC" 0%Z [].
Definition demoKey : CacheKey :=
  mkCacheKey 4 EmptyString "op" 0%Z [[(demoA, "s")]; [(demoB, "s"); (demoC, "s")]].
Definition demoLink (i : Z) : CacheInfoLink := mkCacheInfoLink i 0%Z "op" "s".
Definition demoLinks : list (string * CacheInfoLink * string) :=
  [("A", demoLink 0, "X"); ("B", demoLink 1, "X")].
Definition demoStore : StubStore := mkStubStore demoLinks [] [] false.
Definition flakyStore : StubStore := mkStubStore demoLinks [] ["B"] false.
Definition noArtifacts : StubArtifacts := mkStubArtifacts [] ∅.
Definition demoWorld : World StubStore StubArtifacts := stubWorld demoStore noArtifacts.
Definition flakyWorld : World StubStore StubArtifacts := stubWorld flakyStore noArtifacts.


(** Two alternative dependencies of one input slot, and a store with two
    result associations of which one has lost its artifact. *)
Definition queryDeps : list CacheKeyWithSelector := [(demoA, "s"); (demoC, "s")].
Definition staleResults : list (string * CacheResult) :=
  [("A", mkCacheResult "r1" 10%Z); ("A", mkCacheResult "r2" 20%Z)].
Definition staleStore : StubStore := mkStubStore [] staleResults [] false.
Definition staleWorld : World StubStore StubArtifacts :=
  stubWorld staleStore (mkStubArtifacts ["r1"] ∅).


(** The two associations under [A], one without artifact, in the key
    storage whose [Release] fails. *)
Definition stickyWorld : World StickyStore StubArtifacts :=
  mkWorld (mkStickyStore staleStore) (mkStubArtifacts ["r1"] ∅) ∅
          100%positive 0 [] [].

(** ** The rest of the manager: garbage collection and Save *)

(** Modelled from the spec: the operations [Walk] and [AddResult] of the
    interface [CacheKeyStorage], declared outside the file.  [Walk] yields
    the identifiers it hands to its callback, fixed when it starts, and its
    own error if any; when the callback returns an error the walk stops and
    returns that error.  These two calls are not part of the call log. *)
Class CacheKeyStorageExtra (B : Type) := {
  Walk : B → list string * option error;
  AddResult : B → string → CacheResult → B * option error
}.

(** Modelled from the spec: the operation [Save] of the interface
    [CacheResultStorage], declared outside the file. *)
Class CacheResultStorageSave (R : Type) := {
  resultSave : R → Result → Z → R * result CacheResult
}.

(** Modelled from the spec: what its words for these operations promise: a
    result added under an identifier is delivered by the walk of that
    identifier, adding a link or a result drops no result association, and a
    link walk that ends without error has delivered every stored link. *)
Class CacheKeyStorageExtraLaws (B : Type)
    `{!CacheKeyStorage B, !CacheKeyStorageExtra B} := {
  AddResult_WalkResults b id cr :
    (AddResult b id cr).2 = None →
    cr ∈ (WalkResults (AddResult b id cr).1 id).1;
  AddResult_keeps_links b id cr id' l target :
    HasLink b id' l target = true →
    HasLink (AddResult b id cr).1 id' l target = true;
  AddLink_keeps_results b id l target id' cr :
    cr ∈ (WalkResults b id').1 →
    cr ∈ (WalkResults (AddLink b id l target).1 id').1;
  WalkLinks_complete b id l target :
    (WalkLinks b id l).2 = None →
    HasLink b id l target = true → target ∈ (WalkLinks b id l).1
}.

(** Modelled from the spec: an artifact that was saved exists. *)
Class CacheResultStorageSaveLaws (R : Type)
    `{!CacheResultStorage R, !CacheResultStorageSave R} := {
  resultSave_exists r h createdAt r' cr :
    resultSave r h createdAt = (r', Ok cr) → resultExists r' (cr_ID cr) = true
}.

(** [ExportableCacheKey]: the key, and the exporter's record of it. *)
Record ExportableCacheKey := mkExportableCacheKey {
  eck_CacheKey : CacheKey;
  eck_record : CacheRecord
}.

Section Rest.
Context {B R : Type} `{!CacheKeyStorage B, !CacheResultStorage R}.
Context `{!CacheKeyStorageExtra B, !CacheResultStorageSave R}.
Variable NewID : nat → string.

(** *** ReleaseUnreferenced and NewCacheManager *)

(** The callback handed to [WalkResults], run on what one walk delivered;
    [visited] is shared by the whole pass. *)
Fixpoint releaseWalk (crs : list CacheResult) (visited : gset string)
  : St B R (gset string) :=
  match crs with
  | [] => mret visited
  | cr :: rest =>
      if bool_decide (cr_ID cr ∈ visited) then releaseWalk rest visited
      else
        present ← existsResult (cr_ID cr);
        _ ← (if (present : bool) then mret None
             else releaseBackend (cr_ID cr));
        releaseWalk rest ({[cr_ID cr]} ∪ visited)
  end.

(** The callback handed to [Walk], run on the identifiers it delivers: the
    first failing [WalkResults] ends the pass. *)
Fixpoint releaseKeys (keys : list string) (visited : gset string)
  : St B R (option error * gset string) :=
  match keys with
  | [] => mret (None, visited)
  | id :: rest =>
      '(crs, err) ← walkResults id;
      visited' ← releaseWalk crs visited;
      match err with
      | Some e => mret (Some e, visited')
      | None => releaseKeys rest visited'
      end
  end.

Definition ReleaseUnreferenced : St B R (option error) :=
  λ w, let '(keys, err) := Walk (backend w) in
       let '(r, w') := releaseKeys keys ∅ w in
       (match r.1 with
        | Some e => Some e
        | None => err
        end, w').

(** [NewCacheManager]: the manager over the two collaborators, after the
    pass whose error is only logged.  No key is resolved for a new manager;
    the allocator of key objects and the identifier stream are global and
    come as they stand. *)
Definition NewCacheManager (storage : B) (results : R) (next : positive)
    (minted : nat) : World B R :=
  (ReleaseUnreferenced (mkWorld storage results ∅ next minted [] [])).2.

(** *** Save *)

Definition saveResult (r : Result) (createdAt : Z) : St B R (result CacheResult) :=
  λ w, let '(rs, res) := resultSave (results w) r createdAt in
       (res, mkWorld (backend w) rs (ids w) (heap_next w) (minted w)
                     (released w) (trace w)).

Definition addResult (id : string) (res : CacheResult) : St B R (option error) :=
  λ w, let '(b, err) := AddResult (backend w) id res in (err, setBackend b w).

Definition Save (k : CacheKey) (r : Result) (createdAt : Z)
  : St B R (result ExportableCacheKey) :=
  saved ← saveResult r createdAt;
  match saved with
  | Err e => mret (Err e)
  | Ok res =>
      id ← getID NewID k;
      err ← addResult id res;
      match err with
      | Some e => mret (Err e)
      | None =>
          err ← ensurePersistentKey NewID k;
          match err with
          | Some e => mret (Err e)
          | None =>
              mret (Ok (mkExportableCacheKey k
                          (mkCacheRecord (cr_ID res) k (cr_CreatedAt res))))
          end
      end
  end.

(** The result identifiers of the [Release] calls of a log. *)
Definition releasedIDs (t : list Call) : list string :=
  omap (λ c, match c with CallRelease rid => Some rid | _ => None end) t.

(** Every result association delivered by a walk is kept. *)
Definition keeps_results (w w' : World B R) : Prop :=
  ∀ id cr, cr ∈ (WalkResults (backend w) id).1 →
           cr ∈ (WalkResults (backend w') id).1.
End Rest.

(** *** Stubs for the added operations *)

Definition stub_walk (b : StubStore) : list string * option error :=
  (remove_dups ((stub_results b).*1 ++ (stub_links b).*1.*1 ++ (stub_links b).*2),
   None).

Definition stub_add_result (b : StubStore) (id : string) (cr : CacheResult)
  : StubStore * option error :=
  if stub_readonly b then (b, Some "read-only store")
  else (mkStubStore (stub_links b) (stub_results b ++ [(id, cr)])
                    (stub_failing b) (stub_readonly b), None).

#[global] Instance StubStore_extra : CacheKeyStorageExtra StubStore := {|
  Walk := stub_walk;
  AddResult := stub_add_result
|}.

(** Saving names the result after the handle; a handle is saved once. *)
#[global] Instance StubArtifacts_save : CacheResultStorageSave StubArtifacts := {|
  resultSave := λ r h createdAt,
    if bool_decide (h ∈ art_present r) then (r, Err "already saved")
    else (mkStubArtifacts (h :: art_present r) (art_bulk r),
          Ok (mkCacheResult h createdAt))
|}.

(** A result storage without the bulk capability. *)
Record PlainArtifacts := mkPlainArtifacts {
  plain_present : list string
}.

#[global] Instance PlainArtifacts_storage : CacheResultStorage PlainArtifacts := {|
  resultExists := λ r id, bool_decide (id ∈ plain_present r);
  resultLoad := λ r cr,
    if bool_decide (cr_ID cr ∈ plain_present r) then Ok (cr_ID cr)
    else Err "artifact missing";
  resultLoadWithParents := None
|}.

(** ** Auxiliary notions for the rest of the manager *)

Section MoreNotions.
Context {B R : Type} `{!CacheKeyStorage B, !CacheResultStorage R}.

(** No walk of result associations fails on the key storage of [w]. *)
Definition walks_succeed (w : World B R) : Prop :=
  ∀ id, (WalkResults (backend w) id).2 = None.

(** What a traversal step does with the bulk mapping: it never fails, the
    handles it returns and those it leaves in the mapping are the handles it
    found there, it writes to no storage, and it releases nothing unless a
    walk fails. *)
Definition sound_traversal (f : Trav → St B R Filtered) : Prop :=
  ∀ t w,
    (f t w).1.1.2 = None
    ∧ handles t.1 ≡ₚ (lr_Result <$> (f t w).1.1.1) ++ handles (f t w).1.2.1
    ∧ backend (f t w).2 = backend w
    ∧ results (f t w).2 = results w
    ∧ ∃ rel, released (f t w).2 = released w ++ rel
             ∧ (walks_succeed w → rel = []).

(** An entry of [allRes] as [Query] makes it: a key without parents that
    carries the identifier it stands for and the digest and output asked
    for. *)
Definition query_key (dgst : string) (out : Index) (p : string * CacheKey)
  : Prop :=
  ID p.2 = p.1 ∧ digest p.2 = dgst ∧ output p.2 = out ∧ deps p.2 = [].

(** The key storage after [Release] of every result identifier of [rids]. *)
Definition releaseIDs (b : B) (rids : list string) : B :=
  foldl (λ b rid, (Release b rid).1) b rids.

(** Every association that a walk of [b] delivers and whose result
    identifier is in [visited] has its artifact. *)
Definition clean (rs : R) (b : B) (visited : gset string) : Prop :=
  ∀ id cr, cr ∈ (WalkResults b id).1 → cr_ID cr ∈ visited →
           resultExists rs (cr_ID cr) = true.

(** The walks of [b'] deliver nothing that the walks of [b] do not. *)
Definition shrinks (b b' : B) : Prop :=
  ∀ id cr, cr ∈ (WalkResults b' id).1 → cr ∈ (WalkResults b id).1.

(** Between [w] and [w'] the result storage is untouched and every result
    association is kept. *)
Definition storing (w w' : World B R) : Prop :=
  results w' = results w ∧ keeps_results w w'.

(** The world with the result storage [rs]. *)
Definition withResults (rs : R) (w : World B R) : World B R :=
  mkWorld (backend w) rs (ids w) (heap_next w) (minted w) (released w)
          (trace w).
End MoreNotions.

Section MoreFrames.
Context {B R : Type} `{!CacheKeyStorage B, !CacheResultStorage R}.

(** The result storage and the released handles are untouched. *)
Definition same_results (w w' : World B R) : Prop :=
  results w' = results w ∧ released w' = released w.
End MoreFrames.

Section OnceNotions.
Context {B R : Type} `{!CacheKeyStorage B, !CacheResultStorage R}.

(** The identifiers of the [WalkResults] calls of a log. *)
Definition walkedIDs (t : list Call) : list string :=
  omap (λ c, match c with CallWalkResults id => Some id | _ => None end) t.

(** A traversal step only adds to the visited set, and walks the result
    associations of no identifier twice and of no identifier visited
    before; what it walks it marks as visited. *)
Definition once_traversal (f : Trav → St B R Filtered) : Prop :=
  ∀ t w,
    t.2 ⊆ (f t w).1.2.2
    ∧ ∃ tr, trace (f t w).2 = trace w ++ tr
            ∧ NoDup (walkedIDs tr)
            ∧ ∀ id, id ∈ walkedIDs tr → (id ∉ t.2) ∧ id ∈ (f t w).1.2.2.
End OnceNotions.

(** ** Concrete inputs for the rest of the manager *)

(** The store with two associations under [A], over a result storage
    without the bulk capability, and a record of the first association. *)
Definition plainWorld : World StubStore PlainArtifacts :=
  mkWorld staleStore (mkPlainArtifacts ["r1"]) ∅ 100%positive 0 [] [].
Definition staleRecord : CacheRecord := mkCacheRecord "r1" demoA 10%Z.

(** A record of an association that is not stored. *)
Definition lostRecord : CacheRecord := mkCacheRecord "nope" demoA 0%Z.


(** Two dependencies of one input slot, the second with failing walks. *)
Definition flakyDeps : list CacheKeyWithSelector := [(demoA, "s"); (demoB, "s")].

(** The store of the three links that rejects every write. *)
Definition readonlyStore : StubStore := mkStubStore demoLinks [] [] true.
Definition readonlyWorld : World StubStore StubArtifacts :=
  stubWorld readonlyStore noArtifacts.

(** The world after saving the result [h1] under [demoKey]. *)
Definition savedWorld : World StubStore StubArtifacts :=
  (Save stubNewID demoKey "h1" 5%Z demoWorld).2.

(** A store with one association under [root] whose walks succeed, over the
    result storage whose bulk load returns two handles. *)
Definition bulkStore : StubStore :=
  mkStubStore [] [("root", leak_result)] [] false.
Definition bulkWorld : World StubStore StubArtifacts :=
  stubWorld bulkStore leak_artifacts.
(** * Proofs *)

#[local] Set Warnings "-clear-no-such-hyp".

Arguments getID : simpl never.
Arguments ensurePersistentKey : simpl never.

(** ** rootKey *)

Lemma prefix_split (p s : string) :
  String.prefix p s = true → ∃ r, s = p +:+ r.
Proof.
  revert s. induction p as [|c p IH]; intros s Hp.
  - by exists s.
  - destruct s as [|c' s]; simpl in Hp; [done|].
    destruct (Ascii.ascii_dec c c') as [->|]; [|done].
    destruct (IH _ Hp) as [r ->]. by exists r.
Qed.

Lemma Encoded_random (dgst : string) :
  HasPrefix dgst "random:" = true →
  ∃ e, Encoded dgst = Some e ∧ "random:" +:+ e = dgst.
Proof.
  intros Hp. destruct (prefix_split _ _ Hp) as [r ->]. by exists r.
Qed.

Lemma rootKey_random FromBytes (dgst : string) (output : Index) :
  HasPrefix dgst "random:" = true → rootKey FromBytes dgst output = dgst.
Proof.
  intros Hp. unfold rootKey. rewrite Hp.
  by destruct (Encoded_random _ Hp) as (e & -> & ?).
Qed.

Lemma rootKey_hashed FromBytes (dgst : string) (output : Index) :
  HasPrefix dgst "random:" = false →
  rootKey FromBytes dgst output = FromBytes (dgst +:+ "@" +:+ pretty output).
Proof. intros Hp. unfold rootKey. by rewrite Hp. Qed.

Lemma rootKey_output_inj FromBytes `{!Inj (=) (=) FromBytes}
    (dgst : string) (o1 o2 : Index) :
  HasPrefix dgst "random:" = false →
  rootKey FromBytes dgst o1 = rootKey FromBytes dgst o2 → o1 = o2.
Proof.
  intros Hp. rewrite !rootKey_hashed by done. intros Heq.
  apply (inj FromBytes), (inj (String.append dgst)) in Heq.
  apply (inj (String.append "@")) in Heq. by apply (inj pretty) in Heq.
Qed.

Lemma stubFromBytes_inj : Inj (=) (=) stubFromBytes.
Proof. intros x y Heq. by apply (inj (String.append "sha256:")) in Heq. Qed.

(** ** Induction on key graphs *)

Lemma CacheKey_nested_ind (P : CacheKey → Prop) :
  (∀ a id dg out ds,
      Forall (Forall (λ d : CacheKey * string, P d.1)) ds →
      P (mkCacheKey a id dg out ds)) →
  ∀ k, P k.
Proof.
  intros step. fix IH 1. intros [a id dg out ds]. apply step.
  induction ds as [|ps ds IHds]; constructor; [|exact IHds].
  induction ps as [|[p sel] ps IHps]; constructor; [apply IH|exact IHps].
Qed.

Lemma addrs_unfold (k : CacheKey) : addrs k = {[addr k]} ∪ parent_addrs k.
Proof. by destruct k. Qed.

Lemma acyclic_unfold (k : CacheKey) :
  acyclic k = true ↔
  (addr k ∉ parent_addrs k) ∧
  Forall (Forall (λ d : CacheKey * string, acyclic d.1 = true)) (deps k).
Proof.
  destruct k as [a id dg out ds]. simpl. unfold parent_addrs. simpl.
  rewrite andb_true_iff, bool_decide_eq_true.
  apply and_iff_compat_l.
  rewrite forallb_forall, Forall_forall. setoid_rewrite <-list_elem_of_In.
  apply forall_proper. intros ps. apply forall_proper. intros _.
  rewrite forallb_forall, Forall_forall. by setoid_rewrite <-list_elem_of_In.
Qed.

Lemma parent_addrs_elem (k p : CacheKey) (sel : string)
    (ps : list (CacheKey * string)) :
  ps ∈ deps k → (p, sel) ∈ ps → addrs p ⊆ parent_addrs k.
Proof.
  intros Hps Hp x Hx. unfold parent_addrs.
  apply elem_of_union_list. eexists. split.
  { apply list_elem_of_fmap. exists ps. eauto. }
  apply elem_of_union_list. exists (addrs p). split; [|done].
  apply list_elem_of_fmap. by exists (p, sel).
Qed.

(** ** Identity resolution: what it may change *)

Section Resolution.
Context {B R : Type} `{!CacheKeyStorage B, !CacheResultStorage R}.
Variable NewID : nat → string.

#[export] Instance resolves_refl X : Reflexive (resolves (B:=B) (R:=R) X).
Proof.
  intros w. split; [done..|lia| |set_solver].
  exists []. by rewrite app_nil_r.
Qed.

#[export] Instance resolves_trans X : Transitive (resolves (B:=B) (R:=R) X).
Proof.
  intros w1 w2 w3 [? ? ? ? ? (t1 & E1 & F1) Hd1] [? ? ? ? ? (t2 & E2 & F2) Hd2].
  split; [congruence..|lia| |clear -Hd1 Hd2; set_solver].
  exists (t1 ++ t2). rewrite E2, E1, <-app_assoc. split; [done|].
  by rewrite forallb_app, F1, F2.
Qed.

Lemma resolves_weaken X Y (w w' : World B R) :
  X ⊆ Y → resolves X w w' → resolves Y w w'.
Proof. intros HXY [? ? ? ? ? ? Hd]. split; [done..|clear -HXY Hd; set_solver]. Qed.

#[export] Instance extends_refl X : Reflexive (extends (B:=B) (R:=R) X).
Proof. intros w. split; reflexivity. Qed.

#[export] Instance extends_trans X : Transitive (extends (B:=B) (R:=R) X).
Proof. intros w1 w2 w3 [? ?] [? ?]. split; etrans; eauto. Qed.

Lemma extends_weaken X Y (w w' : World B R) :
  X ⊆ Y → extends X w w' → extends Y w w'.
Proof. intros HXY [? ?]. split; eauto using resolves_weaken. Qed.

Lemma preserves_ret {A} (P : relation (World B R)) `{!Reflexive P} (a : A) :
  preserves P (mret a).
Proof. intros w. simpl. reflexivity. Qed.

Lemma preserves_bind {A A'} (P : relation (World B R)) `{!Transitive P}
    (c : St B R A) (f : A → St B R A') :
  preserves P c → (∀ a, preserves P (f a)) → preserves P (c ≫= f).
Proof.
  intros Hc Hf w. unfold mbind, St_bind. specialize (Hc w).
  destruct (c w) as [a w1]. simpl in Hc. etrans; [exact Hc|]. apply Hf.
Qed.

Lemma walkSlot_preserves P `{!Resolving NewID P} i out dg ps matches :
  Forall (λ p : St B R string * string, preserves P p.1) ps →
  preserves P (walkSlot i out dg ps matches).
Proof.
  intros Hps. revert matches.
  induction Hps as [|[getp sel] ps Hp Hps IH]; intros matches; simpl.
  - apply preserves_ret, _.
  - apply preserves_bind; [apply _|exact Hp|]. intros pid.
    apply preserves_bind; [apply _|apply resolving_walk|]. intros [found [e|]].
    + apply preserves_ret, _.
    + apply IH.
Qed.

Lemma walkSlots_preserves P `{!Resolving NewID P} i out dg dss matches :
  Forall (Forall (λ p : St B R string * string, preserves P p.1)) dss →
  preserves P (walkSlots i out dg dss matches).
Proof.
  intros Hdss. revert i matches.
  induction Hdss as [|ps dss Hps Hdss IH]; intros i matches; simpl.
  - apply preserves_ret, _.
  - destruct (_ || _); [|apply IH].
    apply preserves_bind; [apply _|by apply walkSlot_preserves|].
    intros m. apply IH.
Qed.

Lemma getIDFromDeps_of_preserves P `{!Resolving NewID P} out dg dss :
  Forall (Forall (λ p : St B R string * string, preserves P p.1)) dss →
  preserves P (getIDFromDeps_of NewID out dg dss).
Proof.
  intros Hdss. unfold getIDFromDeps_of.
  apply preserves_bind; [apply _|by apply walkSlots_preserves|].
  intros m. destruct (range_first m).
  - apply preserves_ret, _.
  - apply resolving_mint.
Qed.

(** *** getID *)

Lemma getID_unfold k :
  getID (R:=R) NewID k =
  getID_of (addr k) (ID k) (bool_decide (deps k = [])) (getIDFromDeps NewID k).
Proof. by destruct k. Qed.

Lemma getID_cached k (w : World B R) v :
  ids w !! addr k = Some v → getID NewID k w = (v, w).
Proof. intros Hv. rewrite getID_unfold. unfold getID_of. by rewrite Hv. Qed.

Lemma getID_root k (w : World B R) :
  deps k = [] → ids w !! addr k = None →
  getID NewID k w = (ID k, setID (addr k) (ID k) w).
Proof.
  intros Hd Hn. rewrite getID_unfold. unfold getID_of. rewrite Hn, Hd.
  by rewrite bool_decide_eq_true_2.
Qed.

Lemma getID_derived k (w : World B R) :
  deps k ≠ [] → ids w !! addr k = None →
  getID NewID k w =
  ((getIDFromDeps NewID k w).1,
   setID (addr k) (getIDFromDeps NewID k w).1 (getIDFromDeps NewID k w).2).
Proof.
  intros Hd Hn. rewrite getID_unfold. unfold getID_of. rewrite Hn.
  rewrite bool_decide_eq_false_2 by done.
  by destruct (getIDFromDeps NewID k w).
Qed.

Lemma getID_memo k (w : World B R) :
  ids (getID NewID k w).2 !! addr k = Some (getID NewID k w).1.
Proof.
  destruct (ids w !! addr k) as [v|] eqn:Hv.
  { by rewrite (getID_cached _ _ _ Hv). }
  destruct (decide (deps k = [])) as [Hd|Hd].
  - rewrite getID_root by done. simpl. apply lookup_insert_eq.
  - rewrite getID_derived by done. simpl. apply lookup_insert_eq.
Qed.

#[export] Instance resolves_resolving X : Resolving NewID (resolves (R:=R) X).
Proof.
  split; [split; apply _|..].
  - intros id l w. split; simpl; [done..|lia| |apply union_subseteq_l].
    by exists [CallWalkLinks id l].
  - intros w. split; simpl; [done..|lia| |apply union_subseteq_l].
    exists []. by rewrite app_nil_r.
Qed.

#[export] Instance extends_resolving X : Resolving NewID (extends (R:=R) X).
Proof.
  split; [split; apply _|..].
  - intros id l w. split; [apply resolves_resolving|done].
  - intros w. split; [apply resolves_resolving|done].
Qed.

Lemma parents_preserve (P : relation (World B R)) k :
  (∀ ps d, ps ∈ deps k → d ∈ ps → preserves P (getID NewID d.1)) →
  Forall (Forall (λ p : St B R string * string, preserves P p.1))
    (map (map (λ d : CacheKey * string, (getID NewID d.1, d.2))) (deps k)).
Proof.
  intros HP. apply Forall_fmap, Forall_forall. intros ps Hps.
  apply Forall_fmap, Forall_forall. intros d Hd. by apply (HP ps).
Qed.

Lemma setID_resolves a v (w : World B R) : resolves {[a]} w (setID a v w).
Proof.
  split; simpl; [done..|lia| |].
  - exists []. by rewrite app_nil_r.
  - rewrite dom_insert. set_solver.
Qed.

Lemma getID_resolves k :
  preserves (resolves (R:=R) (addrs k)) (getID NewID k).
Proof.
  induction k as [a id dg out ds IH] using CacheKey_nested_ind.
  set (k := mkCacheKey a id dg out ds). intros w.
  destruct (ids w !! addr k) as [v|] eqn:Hv.
  { rewrite (getID_cached _ _ _ Hv). reflexivity. }
  destruct (decide (deps k = [])) as [Hd|Hd].
  { rewrite getID_root by done. cbn [fst snd].
    eapply resolves_weaken; [|apply setID_resolves].
    rewrite addrs_unfold. set_solver. }
  rewrite getID_derived by done. cbn [fst snd].
  assert (resolves (parent_addrs k) w (getIDFromDeps NewID k w).2) as Hw.
  { apply (getIDFromDeps_of_preserves (resolves (parent_addrs k)) _).
    apply parents_preserve.
    intros ps [p sel] Hps Hp w1. simpl.
    eapply resolves_weaken; [by eapply parent_addrs_elem|].
    rewrite Forall_forall in IH. specialize (IH ps Hps).
    rewrite Forall_forall in IH. apply (IH (p, sel) Hp). }
  rewrite addrs_unfold. etrans.
  - eapply resolves_weaken; [|exact Hw]. set_solver.
  - eapply resolves_weaken; [|apply setID_resolves]. set_solver.
Qed.

Lemma getID_extends k :
  acyclic k = true → preserves (extends (R:=R) (addrs k)) (getID NewID k).
Proof.
  induction k as [a id dg out ds IH] using CacheKey_nested_ind.
  set (k := mkCacheKey a id dg out ds). intros Hac w.
  apply acyclic_unfold in Hac as [Ha Hps].
  split; [apply getID_resolves|].
  destruct (ids w !! addr k) as [v|] eqn:Hv.
  { by rewrite (getID_cached _ _ _ Hv). }
  destruct (decide (deps k = [])) as [Hd|Hd].
  { rewrite getID_root by done. simpl. by apply insert_subseteq. }
  rewrite getID_derived by done. simpl.
  assert (extends (parent_addrs k) w (getIDFromDeps NewID k w).2) as [Hw Hsub].
  { apply (getIDFromDeps_of_preserves (extends (parent_addrs k)) _).
    apply parents_preserve.
    intros ps [p sel] Hps' Hp w1. simpl.
    eapply extends_weaken; [by eapply parent_addrs_elem|].
    rewrite Forall_forall in IH. specialize (IH ps Hps').
    rewrite Forall_forall in IH. apply (IH (p, sel) Hp).
    rewrite Forall_forall in Hps. specialize (Hps ps Hps').
    rewrite Forall_forall in Hps. apply (Hps (p, sel) Hp). }
  etrans; [exact Hsub|]. apply insert_subseteq.
  apply not_elem_of_dom. intros Hin. apply (res_dom _ _ _ Hw) in Hin.
  apply elem_of_union in Hin as [Hin|Hin]; [|done].
  by apply not_elem_of_dom in Hv.
Qed.
End Resolution.

(** ** Derivation from dependencies *)

Section Derivation.
Context {B R : Type} `{!CacheKeyStorage B, !CacheResultStorage R}.
Variable NewID : nat → string.

#[local] Abbreviation grows := (grows (B:=B) (R:=R)).

#[export] Instance grows_resolving : Resolving NewID grows.
Proof.
  split; [split|..].
  - intros w. by split.
  - intros w1 w2 w3 [? ?] [? ?]. split; [congruence|by etrans].
  - intros id l w. by split.
  - intros w. by split.
Qed.

Lemma getID_grows k : acyclic k = true → preserves grows (getID NewID k).
Proof.
  intros Hac w. destruct (getID_extends NewID k Hac w) as [Hr Hs].
  split; [apply Hr|done].
Qed.

Lemma parents_grow (ps : list (CacheKey * string)) :
  Forall (λ d, acyclic d.1 = true) ps →
  Forall (λ p : St B R string * string, preserves grows p.1)
    (map (λ d : CacheKey * string, (getID NewID d.1, d.2)) ps).
Proof.
  intros Hac. apply Forall_fmap. eapply Forall_impl; [exact Hac|].
  intros d Hd. by apply getID_grows.
Qed.

Lemma slots_grow (dss : list (list (CacheKey * string))) :
  Forall (Forall (λ d, acyclic d.1 = true)) dss →
  Forall (Forall (λ p : St B R string * string, preserves grows p.1))
    (map (map (λ d : CacheKey * string, (getID NewID d.1, d.2))) dss).
Proof.
  intros Hac. apply Forall_fmap. eapply Forall_impl; [exact Hac|].
  intros ps Hps. by apply parents_grow.
Qed.

Lemma reached_resolved (w : World B R) k i d pid :
  ids w !! addr d.1 = Some pid →
  reached w k i d = list_to_set (WalkLinks (backend w) pid (depLink k i d.2)).1.
Proof. intros Hp. unfold reached. by rewrite Hp. Qed.

Lemma walkSlot_grows i out dg (ps : list (CacheKey * string)) M :
  Forall (λ d, acyclic d.1 = true) ps →
  preserves grows
    (walkSlot i out dg
       (map (λ d : CacheKey * string, (getID NewID d.1, d.2)) ps) M).
Proof.
  intros Hac. apply (walkSlot_preserves NewID grows). by apply parents_grow.
Qed.

Lemma walkSlots_grows i out dg (dss : list (list (CacheKey * string))) M :
  Forall (Forall (λ d, acyclic d.1 = true)) dss →
  preserves grows
    (walkSlots i out dg
       (map (map (λ d : CacheKey * string, (getID NewID d.1, d.2))) dss) M).
Proof.
  intros Hac. apply (walkSlots_preserves NewID grows). by apply slots_grow.
Qed.

(** One parent of slot [i] walked: where the loop stands afterwards. *)
Lemma walkSlot_step k i d ps M (w : World B R) :
  let w1 := (getID NewID d.1 w).2 in
  let pid := (getID NewID d.1 w).1 in
  let walk := WalkLinks (backend w1) pid (depLink k i d.2) in
  let w2 := logCall (CallWalkLinks pid (depLink k i d.2)) w1 in
  ids w1 !! addr d.1 = Some pid ∧
  walkSlot i (output k) (digest k)
    (map (λ d : CacheKey * string, (getID NewID d.1, d.2)) (d :: ps)) M w =
  match walk.2 with
  | Some _ => (∅, w2)
  | None =>
      walkSlot i (output k) (digest k)
        (map (λ d : CacheKey * string, (getID NewID d.1, d.2)) ps)
        (if bool_decide (i = 0) then M ∪ list_to_set walk.1
         else M ∩ list_to_set walk.1) w2
  end.
Proof.
  intros w1 pid walk w2. split; [apply getID_memo|].
  simpl. unfold mbind, St_bind. subst w1 pid walk w2.
  destruct (getID NewID d.1 w) as [pid w1]. simpl.
  unfold depLink.
  by destruct (WalkLinks _ _ _) as [found [e|]].
Qed.

Lemma walkSlot_spec k i ps : ∀ M (w wf : World B R),
  Forall (λ d, acyclic d.1 = true) ps →
  ids (walkSlot i (output k) (digest k)
         (map (λ d : CacheKey * string, (getID NewID d.1, d.2)) ps) M w).2
    ⊆ ids wf →
  backend wf = backend w →
  (∀ d, d ∈ ps → walk_fails wf k i d = false) →
  (walkSlot i (output k) (digest k)
     (map (λ d : CacheKey * string, (getID NewID d.1, d.2)) ps) M w).1 =
  if bool_decide (i = 0) then M ∪ ⋃ (reached wf k i <$> ps)
  else foldl (λ m d, m ∩ reached wf k i d) M ps.
Proof.
  induction ps as [|d ps IH]; intros M w wf Hac Hsub Hb Hnf.
  { simpl. case_bool_decide; [|done]. by rewrite union_empty_r_L. }
  apply Forall_cons in Hac as [Hd Hac].
  destruct (walkSlot_step k i d ps M w) as [Hm Hstep].
  pose proof (getID_grows d.1 Hd w) as [Hb1 _].
  rewrite Hstep in Hsub |- *. clear Hstep.
  set (w1 := (getID NewID d.1 w).2) in *.
  set (pid := (getID NewID d.1 w).1) in *.
  set (w2 := logCall _ w1) in *.
  assert (ids w1 ⊆ ids wf) as Hw1.
  { destruct (WalkLinks (backend w1) pid (depLink k i d.2)).2; [done|].
    etrans; [|exact Hsub].
    by destruct (walkSlot_grows i (output k) (digest k) ps
                   (if bool_decide (i = 0)
                    then M ∪ list_to_set (WalkLinks (backend w1) pid (depLink k i d.2)).1
                    else M ∩ list_to_set (WalkLinks (backend w1) pid (depLink k i d.2)).1)
                   Hac w2). }
  assert (ids wf !! addr d.1 = Some pid) as Hpid by by eapply lookup_weaken.
  assert (backend wf = backend w1) as Hbw by congruence.
  pose proof (Hnf d (list_elem_of_here _ _)) as Hnfd.
  unfold walk_fails in Hnfd. rewrite Hpid, Hbw in Hnfd.
  destruct (WalkLinks (backend w1) pid (depLink k i d.2)) as [found err] eqn:Hwalk.
  simpl in *. destruct err as [e|]; [done|].
  rewrite (IH _ w2 wf Hac Hsub Hbw).
  - simpl. rewrite (reached_resolved wf k i d pid Hpid), Hbw, Hwalk. simpl.
    case_bool_decide; [|done]. by rewrite (assoc_L (∪)).
  - intros d' Hd'. apply Hnf. by apply list_elem_of_further.
Qed.

Lemma walkSlot_fail k i ps : ∀ M (w wf : World B R),
  Forall (λ d, acyclic d.1 = true) ps →
  ids (walkSlot i (output k) (digest k)
         (map (λ d : CacheKey * string, (getID NewID d.1, d.2)) ps) M w).2
    ⊆ ids wf →
  backend wf = backend w →
  (∃ d, d ∈ ps ∧ walk_fails wf k i d = true) →
  (walkSlot i (output k) (digest k)
     (map (λ d : CacheKey * string, (getID NewID d.1, d.2)) ps) M w).1 = ∅.
Proof.
  induction ps as [|d ps IH]; intros M w wf Hac Hsub Hb (d' & Hd' & Hf).
  { by apply elem_of_nil in Hd'. }
  apply Forall_cons in Hac as [Hd Hac].
  destruct (walkSlot_step k i d ps M w) as [Hm Hstep].
  pose proof (getID_grows d.1 Hd w) as [Hb1 _].
  rewrite Hstep in Hsub |- *. clear Hstep.
  set (w1 := (getID NewID d.1 w).2) in *.
  set (pid := (getID NewID d.1 w).1) in *.
  set (w2 := logCall _ w1) in *.
  destruct (WalkLinks (backend w1) pid (depLink k i d.2)) as [found err] eqn:Hwalk.
  simpl in *. destruct err as [e|]; [done|].
  assert (backend wf = backend w1) as Hbw by congruence.
  apply (IH _ w2 wf Hac Hsub Hbw).
  apply elem_of_cons in Hd' as [->|Hd']; [|by exists d'].
  exfalso.
  assert (ids w1 ⊆ ids wf) as Hw1.
  { etrans; [|exact Hsub].
    by destruct (walkSlot_grows i (output k) (digest k) ps
                   (if bool_decide (i = 0) then M ∪ list_to_set found
                    else M ∩ list_to_set found) Hac w2). }
  assert (ids wf !! addr d.1 = Some pid) as Hpid by by eapply lookup_weaken.
  unfold walk_fails in Hf. by rewrite Hpid, Hbw, Hwalk in Hf.
Qed.

Lemma walkSlots_empty i out dg (dss : list (list (St B R string * string)))
    (w : World B R) :
  i ≠ 0 → walkSlots i out dg dss ∅ w = (∅, w).
Proof.
  revert i. induction dss as [|ps dss IH]; intros i Hi; [done|].
  simpl. rewrite bool_decide_eq_false_2 by done.
  rewrite bool_decide_eq_true_2 by done. simpl. by apply IH.
Qed.

Lemma foldl_inter_empty (w : World B R) k i ps :
  foldl (λ m d, m ∩ reached w k i d) ∅ ps = ∅.
Proof.
  induction ps as [|d ps IH]; [done|]. simpl.
  by rewrite (left_absorb_L ∅ (∩)).
Qed.

Lemma derived_slots_empty (w : World B R) k dss : ∀ i,
  derived_slots w k i dss ∅ = ∅.
Proof.
  induction dss as [|ps dss IH]; intros i; [done|]. simpl.
  by rewrite foldl_inter_empty.
Qed.

(** One slot walked (or skipped): where the outer loop stands afterwards. *)
Lemma walkSlots_step i out dg ps (dss : list (list (St B R string * string)))
    M (w : World B R) :
  walkSlots i out dg (ps :: dss) M w =
  if bool_decide (i = 0) || negb (bool_decide (M = ∅)) then
    walkSlots (S i) out dg dss (walkSlot i out dg ps M w).1
              (walkSlot i out dg ps M w).2
  else walkSlots (S i) out dg dss M w.
Proof.
  simpl. destruct (_ || _); [|done]. unfold mbind, St_bind.
  by destruct (walkSlot i out dg ps M w).
Qed.

Lemma walkSlots_spec k dss : ∀ i M (w wf : World B R),
  i ≠ 0 →
  Forall (Forall (λ d, acyclic d.1 = true)) dss →
  ids (walkSlots i (output k) (digest k)
         (map (map (λ d : CacheKey * string, (getID NewID d.1, d.2))) dss)
         M w).2 ⊆ ids wf →
  backend wf = backend w →
  (∀ j ps d, dss !! j = Some ps → d ∈ ps → walk_fails wf k (i + j) d = false) →
  (walkSlots i (output k) (digest k)
     (map (map (λ d : CacheKey * string, (getID NewID d.1, d.2))) dss)
     M w).1 = derived_slots wf k i dss M.
Proof.
  induction dss as [|ps dss IH]; intros i M w wf Hi Hac Hsub Hb Hnf; [done|].
  apply Forall_cons in Hac as [Hps Hac].
  simpl map in Hsub |- *. rewrite walkSlots_step in Hsub |- *.
  rewrite bool_decide_eq_false_2 in Hsub |- * by done. simpl orb in Hsub |- *.
  assert (∀ j ps' d, dss !! j = Some ps' → d ∈ ps' →
                     walk_fails wf k (S i + j) d = false) as Hnf'.
  { intros j ps' d Hj Hd. replace (S i + j) with (i + S j) by lia.
    by apply (Hnf (S j) ps'). }
  case_bool_decide as HM; simpl negb in Hsub |- *; cbv iota in Hsub |- *.
  { subst M. rewrite walkSlots_empty by done. simpl.
    by rewrite foldl_inter_empty, derived_slots_empty. }
  set (r := walkSlot i (output k) (digest k)
              (map (λ d : CacheKey * string, (getID NewID d.1, d.2)) ps) M w)
    in *.
  pose proof (walkSlot_grows i (output k) (digest k) ps M Hps w) as [Hbr _].
  fold r in Hbr.
  pose proof (walkSlots_grows (S i) (output k) (digest k) dss r.1 Hac r.2)
    as [_ Hgr].
  rewrite (IH (S i) r.1 r.2 wf); [|done|done|done|congruence|done].
  simpl. f_equal. subst r.
  rewrite (walkSlot_spec k i ps M w wf); [|done|by etrans|done|].
  - by rewrite bool_decide_eq_false_2.
  - intros d Hd. specialize (Hnf 0 ps d). rewrite Nat.add_0_r in Hnf.
    by apply Hnf.
Qed.

Lemma walkSlots_fail k dss : ∀ i M (w wf : World B R),
  i ≠ 0 →
  Forall (Forall (λ d, acyclic d.1 = true)) dss →
  ids (walkSlots i (output k) (digest k)
         (map (map (λ d : CacheKey * string, (getID NewID d.1, d.2))) dss)
         M w).2 ⊆ ids wf →
  backend wf = backend w →
  (∃ j ps d, dss !! j = Some ps ∧ d ∈ ps ∧ walk_fails wf k (i + j) d = true) →
  (walkSlots i (output k) (digest k)
     (map (map (λ d : CacheKey * string, (getID NewID d.1, d.2))) dss)
     M w).1 = ∅.
Proof.
  induction dss as [|ps dss IH];
    intros i M w wf Hi Hac Hsub Hb (j & ps' & d & Hj & Hd & Hf); [done|].
  apply Forall_cons in Hac as [Hps Hac].
  simpl map in Hsub |- *. rewrite walkSlots_step in Hsub |- *.
  rewrite bool_decide_eq_false_2 in Hsub |- * by done. simpl orb in Hsub |- *.
  case_bool_decide as HM; simpl negb in Hsub |- *; cbv iota in Hsub |- *.
  { subst M. by rewrite walkSlots_empty. }
  set (r := walkSlot i (output k) (digest k)
              (map (λ d : CacheKey * string, (getID NewID d.1, d.2)) ps) M w)
    in *.
  pose proof (walkSlot_grows i (output k) (digest k) ps M Hps w) as [Hbr _].
  fold r in Hbr.
  pose proof (walkSlots_grows (S i) (output k) (digest k) dss r.1 Hac r.2)
    as [_ Hgr].
  destruct j as [|j].
  - assert (ps' = ps) as -> by (simpl in Hj; congruence).
    rewrite Nat.add_0_r in Hf.
    assert (r.1 = ∅) as ->.
    { subst r. apply (walkSlot_fail k i ps M w wf); [done|by etrans|done|].
      by exists d. }
    by rewrite walkSlots_empty.
  - apply (IH (S i) r.1 r.2 wf); [done|done|done|congruence|].
    exists j, ps', d. split_and!; [done|done|].
    by replace (S i + j) with (i + S j) by lia.
Qed.

(** *** The whole derivation *)

Lemma getIDFromDeps_run k (w : World B R) :
  let loop := walkSlots 0 (output k) (digest k)
                (map (map (λ d : CacheKey * string, (getID NewID d.1, d.2)))
                     (deps k)) ∅ w in
  getIDFromDeps NewID k w =
  match range_first loop.1 with
  | Some id => (id, loop.2)
  | None => newID NewID loop.2
  end.
Proof.
  intros loop. unfold getIDFromDeps, getIDFromDeps_of, mbind, St_bind.
  fold loop. destruct loop as [M w1]. simpl. by destruct (range_first M).
Qed.

Lemma parents_resolve k :
  Forall (Forall (λ p : St B R string * string,
                    preserves (resolves (parent_addrs k)) p.1))
    (map (map (λ d : CacheKey * string, (getID NewID d.1, d.2))) (deps k)).
Proof.
  apply parents_preserve. intros ps [p sel] Hps Hp w. simpl.
  eapply resolves_weaken; [by eapply parent_addrs_elem|].
  apply getID_resolves.
Qed.

Lemma getIDFromDeps_resolves k :
  preserves (resolves (R:=R) (parent_addrs k)) (getIDFromDeps NewID k).
Proof.
  apply (getIDFromDeps_of_preserves NewID (resolves (parent_addrs k)) _).
  apply parents_resolve.
Qed.

Lemma range_first_elem (M : gset string) id :
  range_first M = Some id → id ∈ M.
Proof.
  unfold range_first. intros Hh. apply elem_of_elements.
  destruct (elements M) as [|x l]; simplify_eq/=. apply list_elem_of_here.
Qed.

Lemma range_first_none (M : gset string) : range_first M = None → M = ∅.
Proof.
  unfold range_first. intros Hh. apply leibniz_equiv, elements_empty_inv.
  by destruct (elements M).
Qed.

Lemma candidates_spec k (w wf : World B R) :
  let loop := walkSlots 0 (output k) (digest k)
                (map (map (λ d : CacheKey * string, (getID NewID d.1, d.2)))
                     (deps k)) ∅ w in
  acyclic k = true →
  ids loop.2 ⊆ ids wf →
  backend wf = backend w →
  (∀ i ps d, deps k !! i = Some ps → d ∈ ps → walk_fails wf k i d = false) →
  loop.1 = derived_candidates wf k.
Proof.
  intros loop Hac Hsub Hb Hnf. subst loop.
  apply acyclic_unfold in Hac as [_ Hac]. unfold derived_candidates.
  destruct (deps k) as [|ps dss]; [done|].
  apply Forall_cons in Hac as [Hps Hac].
  simpl map in Hsub |- *. rewrite walkSlots_step in Hsub |- *.
  simpl in Hsub |- *.
  set (r := walkSlot 0 (output k) (digest k)
              (map (λ d : CacheKey * string, (getID NewID d.1, d.2)) ps) ∅ w)
    in *.
  pose proof (walkSlot_grows 0 (output k) (digest k) ps ∅ Hps w) as [Hbr _].
  fold r in Hbr.
  pose proof (walkSlots_grows 1 (output k) (digest k) dss r.1 Hac r.2)
    as [_ Hgr].
  rewrite (walkSlots_spec k dss 1 r.1 r.2 wf); [|done|done|done|congruence|].
  - f_equal. subst r.
    rewrite (walkSlot_spec k 0 ps ∅ w wf); [|done|by etrans|done|].
    + simpl. by rewrite (left_id_L ∅ (∪)).
    + intros d Hd. by apply (Hnf 0 ps).
  - intros j ps' d Hj Hd. by apply (Hnf (S j) ps').
Qed.

Lemma candidates_fail k (w wf : World B R) :
  let loop := walkSlots 0 (output k) (digest k)
                (map (map (λ d : CacheKey * string, (getID NewID d.1, d.2)))
                     (deps k)) ∅ w in
  acyclic k = true →
  ids loop.2 ⊆ ids wf →
  backend wf = backend w →
  (∃ i ps d, deps k !! i = Some ps ∧ d ∈ ps ∧ walk_fails wf k i d = true) →
  loop.1 = ∅.
Proof.
  intros loop Hac Hsub Hb (i & ps' & d & Hi & Hd & Hf). subst loop.
  apply acyclic_unfold in Hac as [_ Hac].
  destruct (deps k) as [|ps dss]; [done|].
  apply Forall_cons in Hac as [Hps Hac].
  simpl map in Hsub |- *. rewrite walkSlots_step in Hsub |- *.
  simpl in Hsub |- *.
  set (r := walkSlot 0 (output k) (digest k)
              (map (λ d : CacheKey * string, (getID NewID d.1, d.2)) ps) ∅ w)
    in *.
  pose proof (walkSlot_grows 0 (output k) (digest k) ps ∅ Hps w) as [Hbr _].
  fold r in Hbr.
  pose proof (walkSlots_grows 1 (output k) (digest k) dss r.1 Hac r.2)
    as [_ Hgr].
  destruct i as [|i].
  - assert (ps' = ps) as -> by (simpl in Hi; congruence).
    assert (r.1 = ∅) as ->.
    { subst r. apply (walkSlot_fail k 0 ps ∅ w wf); [done|by etrans|done|].
      by exists d. }
    by rewrite walkSlots_empty.
  - apply (walkSlots_fail k dss 1 r.1 r.2 wf); [done|done|done|congruence|].
    by exists i, ps', d.
Qed.

Lemma elem_of_foldl_inter (w : World B R) k i ps : ∀ M id,
  id ∈ foldl (λ m d, m ∩ reached w k i d) M ps ↔
  id ∈ M ∧ ∀ d, d ∈ ps → id ∈ reached w k i d.
Proof.
  induction ps as [|d ps IH]; intros M id; simpl.
  - split; [|by intros [? _]]. intros ?. split; [done|].
    intros d Hd. by apply elem_of_nil in Hd.
  - rewrite IH, elem_of_intersection. split.
    + intros [[? ?] Hps]. split; [done|]. intros d' Hd'.
      apply elem_of_cons in Hd' as [->|Hd']; [done|by apply Hps].
    + intros [? Hps]. split; [split; [done|]|].
      * apply Hps, list_elem_of_here.
      * intros d' Hd'. by apply Hps, list_elem_of_further.
Qed.

Lemma elem_of_derived_slots (w : World B R) k dss : ∀ i M id,
  id ∈ derived_slots w k i dss M ↔
  id ∈ M ∧ ∀ j ps d, dss !! j = Some ps → d ∈ ps → id ∈ reached w k (i + j) d.
Proof.
  induction dss as [|ps dss IH]; intros i M id; simpl.
  - split; [|by intros [? _]]. by intros ?.
  - rewrite IH, elem_of_foldl_inter. split.
    + intros [[? Hps] Hdss]. split; [done|]. intros [|j] ps' d Hj Hd.
      * simpl in Hj. assert (ps' = ps) as -> by congruence.
        rewrite Nat.add_0_r. by apply Hps.
      * replace (i + S j) with (S i + j) by lia. by apply (Hdss j ps').
    + intros [? Hall]. split; [split; [done|]|].
      * intros d Hd. specialize (Hall 0 ps d). rewrite Nat.add_0_r in Hall.
        by apply Hall.
      * intros j ps' d Hj Hd. replace (S i + j) with (i + S j) by lia.
        by apply (Hall (S j) ps').
Qed.

Lemma elem_of_derived_candidates (w : World B R) k id :
  id ∈ derived_candidates w k ↔
  (∃ ps d, deps k !! 0 = Some ps ∧ d ∈ ps ∧ id ∈ reached w k 0 d) ∧
  (∀ i ps d, deps k !! S i = Some ps → d ∈ ps → id ∈ reached w k (S i) d).
Proof.
  unfold derived_candidates. destruct (deps k) as [|ps dss].
  { split; [by intros ?%elem_of_empty|]. by intros [(? & ? & ? & _) _]. }
  rewrite elem_of_derived_slots, elem_of_union_list. simpl. split.
  - intros [(X & HX & Hid) Hall]. apply list_elem_of_fmap in HX as (d & -> & Hd).
    split; [by exists ps, d|]. intros i ps' d' Hi Hd'. by apply (Hall i ps').
  - intros [(ps0 & d & Hps & Hd & Hid) Hall]. simplify_eq. split.
    + exists (reached w k 0 d). split; [|done]. apply list_elem_of_fmap.
      by exists d.
    + intros j ps' d' Hj Hd'. by apply (Hall j ps').
Qed.

(** C1 (amended): the candidate set that [getIDFromDeps] ends with holds
    exactly the identifiers that some parent of slot 0 links to and that
    every parent of every later slot links to, provided no link walk from a
    parent fails (it is empty otherwise); a member of it is returned when it
    is not empty, and a newly minted identifier otherwise. *)
Theorem getIDFromDeps_candidates (k : CacheKey) (w : World B R) :
  acyclic k = true →
  let id := (getIDFromDeps NewID k w).1 in
  let w' := (getIDFromDeps NewID k w).2 in
  let matches := (walkSlots 0 (output k) (digest k)
                    (map (map (λ d : CacheKey * string, (getID NewID d.1, d.2)))
                         (deps k)) ∅ w).1 in
  (∀ x, x ∈ matches ↔
        (∀ i ps d, deps k !! i = Some ps → d ∈ ps →
                   walk_fails w' k i d = false) ∧
        (∃ ps d, deps k !! 0 = Some ps ∧ d ∈ ps ∧ x ∈ reached w' k 0 d) ∧
        (∀ i ps d, deps k !! S i = Some ps → d ∈ ps →
                   x ∈ reached w' k (S i) d))
  ∧ (matches ≠ ∅ → id ∈ matches)
  ∧ (matches = ∅ → ∃ n, minted w ≤ n ∧ minted w' = S n ∧ id = NewID n).
Proof.
  intros Hac id w' matches.
  pose proof (getIDFromDeps_run k w) as Hrun. cbv zeta in Hrun.
  pose proof (getIDFromDeps_resolves k w) as Hres. fold w' in Hres.
  set (loop := walkSlots 0 (output k) (digest k) _ ∅ w) in *.
  assert (ids loop.2 ⊆ ids w') as Hids.
  { subst w'. rewrite Hrun. by destruct (range_first loop.1). }
  split_and!.
  - intros x. split.
    + intros Hx.
      assert (∀ i ps d, deps k !! i = Some ps → d ∈ ps →
                        walk_fails w' k i d = false) as Hnf.
      { intros i ps d Hi Hd. destruct (walk_fails w' k i d) eqn:Hf; [|done].
        exfalso.
        assert (loop.1 = ∅) as He.
        { apply (candidates_fail k w w'); [done|done|apply Hres|].
          by exists i, ps, d. }
        unfold matches in Hx. rewrite He in Hx. by apply elem_of_empty in Hx. }
      split; [done|]. apply elem_of_derived_candidates.
      assert (loop.1 = derived_candidates w' k) as HM.
      { apply (candidates_spec k w w'); [done|done|apply Hres|done]. }
      by rewrite <-HM.
    + intros [Hnf Hx]. apply elem_of_derived_candidates in Hx.
      assert (loop.1 = derived_candidates w' k) as HM.
      { apply (candidates_spec k w w'); [done|done|apply Hres|done]. }
      unfold matches. by rewrite HM.
  - intros Hne. subst id. rewrite Hrun. fold matches.
    destruct (range_first matches) as [x|] eqn:Hx.
    + by apply range_first_elem.
    + by apply range_first_none in Hx.
  - intros He. subst id w'. rewrite Hrun. fold matches. rewrite He.
    assert (range_first (∅ : gset string) = None) as -> by done.
    exists (minted loop.2). split_and!; [|done..].
    pose proof (walkSlots_preserves NewID (resolves (parent_addrs k)) 0
                  (output k) (digest k) _ ∅ (parents_resolve k) w) as Hl.
    apply Hl.
Qed.

End Derivation.

(** ** Root keys, root queries and the memo table *)

Section RootKeys.
Context {B R : Type} `{!CacheKeyStorage B, !CacheResultStorage R}.
Variable FromBytes : string → string.
Variable NewID : nat → string.

Lemma newKeyWithID_resolved id dgst out (w : World B R) :
  getID NewID (newKeyWithID id dgst out w).1 (newKeyWithID id dgst out w).2 =
  (id, (newKeyWithID id dgst out w).2).
Proof. apply getID_cached. simpl. apply lookup_insert_eq. Qed.

(** C8: resolving a key without dependencies yields its [ID] field, again
    on every later call and for every other key object with the same [ID];
    a key built by [newRootKey] resolves to [rootKey], which is the digest
    itself when it starts with [random:] and otherwise the hash of the
    digest, [@] and the output index. *)
Theorem root_key_identity (k : CacheKey) (w : World B R)
    (dgst : string) (out : Index) :
  deps k = [] →
  ids w !! addr k = None ∨ ids w !! addr k = Some (ID k) →
  (getID NewID k w).1 = ID k
  ∧ getID NewID k (getID NewID k w).2 = (ID k, (getID NewID k w).2)
  ∧ (∀ (k' : CacheKey) (w' : World B R),
       deps k' = [] → ID k' = ID k →
       ids w' !! addr k' = None ∨ ids w' !! addr k' = Some (ID k') →
       (getID NewID k' w').1 = (getID NewID k w).1)
  ∧ (∀ w' : World B R,
       getID NewID (newRootKey FromBytes dgst out w').1
                   (newRootKey FromBytes dgst out w').2 =
       (rootKey FromBytes dgst out, (newRootKey FromBytes dgst out w').2))
  ∧ rootKey FromBytes dgst out =
      (if HasPrefix dgst "random:" then dgst
       else FromBytes (dgst +:+ "@" +:+ pretty out)).
Proof.
  intros Hd Hc.
  assert (∀ (k' : CacheKey) (w' : World B R), deps k' = [] →
            ids w' !! addr k' = None ∨ ids w' !! addr k' = Some (ID k') →
            (getID NewID k' w').1 = ID k') as Hroot.
  { intros k' w' Hd' [Hn|Hs].
    - by rewrite getID_root.
    - by rewrite (getID_cached _ _ _ _ Hs). }
  split_and!.
  - by apply Hroot.
  - apply getID_cached. rewrite getID_memo. f_equal. by apply Hroot.
  - intros k' w' Hd' Hid Hc'. rewrite !Hroot by done. done.
  - intros w'. apply newKeyWithID_resolved.
  - destruct (HasPrefix dgst "random:") eqn:Hp.
    + by apply rootKey_random.
    + by apply rootKey_hashed.
Qed.

(** C10: for a digest that starts with [random:], [rootKey] does not
    depend on the output index, so the root keys of two different outputs
    resolve to one identifier; for any other digest, and a collision-free
    hash, different outputs have different root identifiers. *)
Theorem rootKey_random_ignores_output `{!Inj (=) (=) FromBytes}
    (dgst : string) (o1 o2 : Index) (w : World B R) :
  o1 ≠ o2 →
  if HasPrefix dgst "random:" then
    rootKey FromBytes dgst o1 = rootKey FromBytes dgst o2
    ∧ (let k1 := (newRootKey FromBytes dgst o1 w).1 in
       let w1 := (newRootKey FromBytes dgst o1 w).2 in
       let k2 := (newRootKey FromBytes dgst o2 w1).1 in
       let w2 := (newRootKey FromBytes dgst o2 w1).2 in
       addr k1 ≠ addr k2 ∧ output k1 ≠ output k2
       ∧ (getID NewID k1 w2).1 = (getID NewID k2 w2).1)
  else rootKey FromBytes dgst o1 ≠ rootKey FromBytes dgst o2.
Proof.
  intros Ho. destruct (HasPrefix dgst "random:") eqn:Hp.
  - split; [by rewrite !rootKey_random|]. cbv zeta. split_and!.
    + simpl. lia.
    + done.
    + assert (heap_next w ≠ Pos.succ (heap_next w)) as Hne by lia.
      erewrite (getID_cached _ (newRootKey FromBytes dgst o1 w).1); last first.
      { simpl. rewrite lookup_insert_ne by done. apply lookup_insert_eq. }
      erewrite (getID_cached _ (newRootKey FromBytes dgst o2 _).1); last first.
      { simpl. apply lookup_insert_eq. }
      simpl. by rewrite !rootKey_random.
  - intros Heq. by apply rootKey_output_inj in Heq.
Qed.

(** C7: [Query] without dependencies asks the key storage for the root
    identifier alone; it returns one key that resolves to it when it exists
    and nothing otherwise, and neither mints an identifier nor writes to a
    storage. *)
Theorem Query_no_deps (input : Index) (dgst : string) (out : Index)
    (w : World B R) :
  let root := rootKey FromBytes dgst out in
  let found := backendExists (backend w) root in
  let k := mkCacheKey (heap_next w) root dgst out [] in
  ∃ w' : World B R,
    Query FromBytes NewID [] input dgst out w =
      (Ok (if found then [k] else []), w')
    ∧ backend w' = backend w
    ∧ results w' = results w
    ∧ minted w' = minted w
    ∧ trace w' = trace w ++ [CallExists root]
    ∧ (if found then getID NewID k w' = (root, w')
       else ids w' = ids w ∧ heap_next w' = heap_next w).
Proof.
  intros root found k. unfold Query. simpl. unfold mbind, St_bind. simpl.
  fold root. fold found. destruct found eqn:Hf; simpl.
  - eexists. split; [reflexivity|]. simpl. split_and!; try done.
    apply getID_cached. simpl. apply lookup_insert_eq.
  - eexists. split; [reflexivity|]. simpl. by split_and!.
Qed.

(** C9: once [getID] has returned an identifier for a key, the memo entry
    of the key holds it, every later call returns it and leaves the world
    as it is, and resolving any other key keeps the entry. *)
Theorem getID_memoized (k : CacheKey) (w : World B R) :
  let id := (getID NewID k w).1 in
  let w1 := (getID NewID k w).2 in
  ids w1 !! addr k = Some id
  ∧ (∀ w2 : World B R,
       ids w2 !! addr k = Some id → getID NewID k w2 = (id, w2))
  ∧ (∀ (k' : CacheKey) (w2 : World B R),
       acyclic k' = true →
       ids w2 !! addr k = Some id →
       ids (getID NewID k' w2).2 !! addr k = Some id).
Proof.
  intros id w1. split_and!.
  - apply getID_memo.
  - intros w2 Hw2. by apply getID_cached.
  - intros k' w2 Hac Hw2.
    destruct (getID_extends NewID k' Hac w2) as [_ Hsub].
    by eapply lookup_weaken.
Qed.
End RootKeys.

(** ** The stub storage obeys the laws *)

Lemma StubStore_laws : CacheKeyStorageLaws StubStore.
Proof.
  split.
  - intros b id l t. simpl. unfold stub_add_link, stub_has_link.
    destruct (stub_readonly b); [done|]. simpl. intros _.
    apply bool_decide_eq_true. set_solver.
  - intros b id l t id' l' t'. simpl. unfold stub_add_link, stub_has_link.
    rewrite !bool_decide_eq_true. destruct (stub_readonly b); [done|].
    simpl. set_solver.
  - intros b id l t. simpl. unfold stub_walk_links, stub_has_link. simpl.
    rewrite bool_decide_eq_true. intros Hin.
    apply list_elem_of_fmap in Hin as ([[id' l'] t'] & -> & Hin).
    apply list_elem_of_filter in Hin as [Heq Hin]. simpl in Heq.
    by simplify_eq.
  - intros b rid id cr. simpl. unfold stub_walk_results, stub_release. simpl.
    intros Hin. apply list_elem_of_fmap in Hin as ([id' cr'] & -> & Hin).
    apply list_elem_of_filter in Hin as [Heq Hin]. simpl in Heq. subst id'.
    apply list_elem_of_filter in Hin as [Hne Hin]. simpl in Hne.
    split; [|done]. apply list_elem_of_fmap. exists (id, cr').
    split; [done|]. by apply list_elem_of_filter.
Qed.

Lemma StubStore_release_laws : CacheKeyStorageReleaseLaws StubStore.
Proof. split. intros b rid id cr _. apply StubStore_laws. Qed.

(** ** Records *)

Section RecordsProofs.
Context {B R : Type} `{!CacheKeyStorage B, !CacheResultStorage R}.
Variable NewID : nat → string.

Lemma recordsWalk_spec ck crs : ∀ outs (w : World B R),
  let stale := filter (λ r, present w r = false) crs in
  recordsWalk ck crs outs w =
  (outs ++ (toRecord ck <$> filter (λ r, present w r = true) crs),
   mkWorld (releaseEach (backend w) stale) (results w) (ids w) (heap_next w)
           (minted w) (released w)
           (trace w ++ (CallRelease ∘ cr_ID <$> stale))).
Proof.
  induction crs as [|r crs IH]; intros outs w; simpl.
  { rewrite !app_nil_r. by destruct w. }
  unfold mbind, St_bind. unfold existsResult at 1. simpl.
  rewrite !filter_cons. fold (present w r).
  destruct (present w r) eqn:Hp.
  - rewrite decide_True by done. rewrite decide_False by done.
    rewrite IH. simpl. by rewrite <-app_assoc.
  - rewrite decide_False by done. rewrite decide_True by done.
    unfold releaseBackend at 1.
    destruct (Release (backend w) (cr_ID r)) as [b' e] eqn:Hr.
    rewrite IH. simpl. unfold present. simpl.
    rewrite Hr. simpl. by rewrite <-app_assoc.
Qed.

Lemma releaseEach_ok_drops `{!CacheKeyStorageReleaseLaws B} crs :
  ∀ (b : B) id cr,
  releases_succeed b crs = true →
  cr ∈ (WalkResults (releaseEach b crs) id).1 →
  cr ∈ (WalkResults b id).1 ∧ cr_ID cr ∉ cr_ID <$> crs.
Proof.
  induction crs as [|r crs IH]; intros b id cr Hok Hin; simpl in *.
  { split; [done|]. apply not_elem_of_nil. }
  destruct (Release b (cr_ID r)).2 as [e|] eqn:Hrel; [done|].
  apply IH in Hin as [Hin Hnot]; [|done].
  apply Release_ok_drops in Hin as [Hin Hne]; [|done].
  split; [done|]. by apply not_elem_of_cons.
Qed.

(** C6 (amended): a successful [Records] returns a record for exactly the
    stored associations of the resolved identifier whose artifact exists
    and calls [Release] on every other one, whatever [Release] returns;
    when each of these calls returns no error, no association whose
    artifact is absent is left under that identifier. *)
Theorem Records_self_healing `{!CacheKeyStorageReleaseLaws B} (ck : CacheKey)
    (w : World B R) (recs : list CacheRecord) (w' : World B R) :
  Records NewID ck w = (Ok recs, w') →
  let id := (getID NewID ck w).1 in
  let stored := (WalkResults (backend w) id).1 in
  let stale := filter (λ r, resultExists (results w) (cr_ID r) = false) stored in
  recs = toRecord ck <$>
           filter (λ r, resultExists (results w) (cr_ID r) = true) stored
  ∧ results w' = results w
  ∧ backend w' = releaseEach (backend w) stale
  ∧ (∃ t, trace w' = trace w ++ t ++ [CallWalkResults id]
                       ++ (CallRelease ∘ cr_ID <$> stale)
          ∧ forallb is_WalkLinks t = true)
  ∧ (releases_succeed (backend w) stale = true →
     ∀ cr, cr ∈ (WalkResults (backend w') id).1 →
           cr ∈ stored ∧ resultExists (results w') (cr_ID cr) = true).
Proof.
  intros Hrec id stored stale. unfold Records, mbind, St_bind in Hrec.
  pose proof (getID_resolves NewID ck w) as Hres.
  fold id in Hrec. subst id.
  destruct (getID NewID ck w) as [id w1]. simpl in Hres, stored |- *.
  unfold walkResults at 1 in Hrec.
  destruct Hres as [Hb Hr _ _ _ (t & Ht & Hwalks) _].
  rewrite Hb in Hrec. fold stored in Hrec.
  destruct (WalkResults (backend w) id) as [crs err] eqn:Hwalk.
  simpl in stored. subst stored.
  rewrite recordsWalk_spec in Hrec. unfold present in Hrec. simpl in Hrec.
  rewrite Hr, Hb in Hrec. fold stale in Hrec.
  destruct err as [e|]; [done|]. unfold mret, St_ret in Hrec.
  injection Hrec as <- <-. simpl.
  split_and!; try done.
  - exists t. by rewrite Ht, <-!app_assoc.
  - intros Hok cr Hin. apply releaseEach_ok_drops in Hin as [Hin Hnot]; [|done].
    rewrite Hwalk in Hin. simpl in Hin. split; [done|].
    destruct (resultExists (results w) (cr_ID cr)) eqn:Hex; [done|].
    exfalso. apply Hnot. apply list_elem_of_fmap. exists cr. split; [done|].
    by apply list_elem_of_filter.
Qed.
End RecordsProofs.

(** ** The traversal of LoadWithParents *)

Section LoadProofs.
Context {B R : Type} `{!CacheKeyStorage B, !CacheResultStorage R}.
Variable NewID : nat → string.

Lemma filterSlot_no_error (ps : list (Trav → St B R Filtered)) :
  Forall (λ f, ∀ t w, (f t w).1.1.2 = None) ps →
  ∀ results t w, (filterSlot ps results t w).1.1.1 = None.
Proof.
  induction 1 as [|f ps Hf _ IH]; intros results t w; [done|].
  simpl. unfold mbind, St_bind. specialize (Hf t w).
  destruct (f t w) as [[[res err] t'] w1]. simpl in Hf. subst err.
  apply IH.
Qed.

Lemma filterSlots_no_error (dss : list (list (Trav → St B R Filtered))) :
  Forall (Forall (λ f, ∀ t w, (f t w).1.1.2 = None)) dss →
  ∀ results t w, (filterSlots dss results t w).1.1.2 = None.
Proof.
  induction 1 as [|ps dss Hps _ IH]; intros results t w; [done|].
  simpl. unfold mbind, St_bind.
  pose proof (filterSlot_no_error ps Hps results t w) as Hs.
  destruct (filterSlot ps results t w) as [[[ret results'] t'] w1].
  simpl in Hs. subst ret. apply IH.
Qed.

Lemma filterResults_no_error (ck : CacheKey) :
  ∀ t (w : World B R), (filterResults NewID ck t w).1.1.2 = None.
Proof.
  induction ck as [a id dg out ds IH] using CacheKey_nested_ind.
  intros t w. simpl. unfold filterResults_of, mbind, St_bind.
  destruct (getID NewID _ w) as [kid w1].
  case_bool_decide; [done|].
  unfold walkResults at 1.
  destruct (WalkResults (backend w1) kid) as [crs err].
  destruct (matchResults _ _ crs [] t.1) as [results m].
  assert (Forall (Forall (λ f : Trav → St B R Filtered,
                            ∀ t w, (f t w).1.1.2 = None))
            (map (map (λ d : CacheKey * string, filterResults NewID d.1)) ds))
    as Hds.
  { apply Forall_fmap. eapply Forall_impl; [exact IH|]. intros ps Hps.
    apply Forall_fmap. eapply Forall_impl; [exact Hps|]. by intros d Hd. }
  destruct err as [e|]; simpl; by apply filterSlots_no_error.
Qed.

(** C2: on [leak_record] the walk of the traversal fails after it has
    delivered the association of the key; [LoadWithParents] releases the
    matched handle, returns it all the same, and reports no error. *)
Theorem LoadWithParents_swallows_walk_failure :
  (WalkResults leak_store "root").2 = Some "walk failed"
  ∧ (LoadWithParents stubNewID leak_record leak_world).1 =
      Ok [mkLoadedResult "h-root" leak_result leak_key]
  ∧ released (LoadWithParents stubNewID leak_record leak_world).2 =
      ["h-root"; "h-other"].
Proof. vm_compute. done. Qed.
End LoadProofs.

(** ** ensurePersistentKey *)

Section Persistence.
Context {B R : Type} `{!CacheKeyStorage B, !CacheResultStorage R}.
Variable NewID : nat → string.

#[local] Abbreviation keeps := (keeps (B:=B) (R:=R)).

#[export] Instance keeps_preorder : PreOrder keeps.
Proof.
  split.
  - intros w. by split.
  - intros w1 w2 w3 [? H12] [? H23]. split; [by etrans|].
    intros id l t Hl. by apply H23, H12.
Qed.

Lemma logCalls_nil (w : World B R) : logCalls [] w = w.
Proof. unfold logCalls. rewrite app_nil_r. by destruct w. Qed.

Lemma logCalls_app t1 t2 (w : World B R) :
  logCalls t2 (logCalls t1 w) = logCalls (t1 ++ t2) w.
Proof. unfold logCalls. simpl. by rewrite app_assoc. Qed.

Lemma ensurePersistentKey_unfold k :
  ensurePersistentKey (R:=R) NewID k =
  (getID NewID k ≫= λ id,
     ensureSlots 0 (output k) (digest k) id
       (map (map (λ d : CacheKey * string,
                    (getID NewID d.1, ensurePersistentKey NewID d.1, d.2)))
            (deps k))).
Proof. by destruct k. Qed.

Lemma getID_keeps k : acyclic k = true → preserves keeps (getID NewID k).
Proof.
  intros Hac w. destruct (getID_grows NewID k Hac w) as [Hb Hs].
  split; [done|]. intros id l t. by rewrite Hb.
Qed.

Lemma hasLink_keeps id l t : preserves keeps (hasLink id l t).
Proof. intros w. by split. Qed.

Lemma addLink_keeps `{!CacheKeyStorageLaws B} id l t :
  preserves keeps (addLink id l t).
Proof.
  intros w. unfold addLink.
  pose proof (AddLink_keeps (backend w) id l t) as Hk.
  destruct (AddLink (backend w) id l t) as [b e]. simpl in *.
  split; [done|]. intros id' l' t'. apply Hk.
Qed.

Lemma ensureSlot_keeps `{!CacheKeyStorageLaws B} i out dg id
    (ps : list (St B R string * St B R (option error) * string)) :
  Forall (λ p, preserves keeps p.1.1 ∧ preserves keeps p.1.2) ps →
  preserves keeps (ensureSlot i out dg id ps).
Proof.
  induction 1 as [|[[getp ensurep] sel] ps [Hg He] _ IH]; simpl.
  { apply preserves_ret, _. }
  apply preserves_bind; [apply _|exact Hg|]. intros pid.
  apply preserves_bind; [apply _|apply hasLink_keeps|]. intros [|]; [done|].
  apply preserves_bind; [apply _|exact He|]. intros [e|].
  { apply preserves_ret, _. }
  apply preserves_bind; [apply _|apply addLink_keeps|]. intros [e|]; [|done].
  apply preserves_ret, _.
Qed.

Lemma ensureSlots_keeps `{!CacheKeyStorageLaws B} out dg id
    (dss : list (list (St B R string * St B R (option error) * string))) :
  Forall (Forall (λ p, preserves keeps p.1.1 ∧ preserves keeps p.1.2)) dss →
  ∀ i, preserves keeps (ensureSlots i out dg id dss).
Proof.
  induction 1 as [|ps dss Hps _ IH]; intros i; simpl.
  { apply preserves_ret, _. }
  apply preserves_bind; [apply _|by apply ensureSlot_keeps|]. intros [e|].
  - apply preserves_ret, _.
  - apply IH.
Qed.

Lemma ensurePersistentKey_keeps `{!CacheKeyStorageLaws B} k :
  acyclic k = true → preserves keeps (ensurePersistentKey NewID k).
Proof.
  induction k as [a id dg out ds IH] using CacheKey_nested_ind.
  intros Hac. rewrite ensurePersistentKey_unfold.
  apply preserves_bind; [apply _|by apply getID_keeps|]. intros kid.
  apply ensureSlots_keeps. apply acyclic_unfold in Hac as [_ Hac].
  simpl in Hac |- *.
  apply Forall_fmap. rewrite Forall_forall in IH, Hac |- *. intros ps Hps.
  specialize (IH ps Hps). specialize (Hac ps Hps).
  apply Forall_fmap. rewrite Forall_forall in IH, Hac |- *. intros d Hd.
  simpl. split; [apply getID_keeps|apply IH; [done|]]; by apply Hac.
Qed.

(** *** A successful run leaves the key linked *)

Lemma parent_linked_keeps (w w' : World B R) k id i d :
  keeps w w' → parent_linked w k id i d → parent_linked w' k id i d.
Proof.
  intros [Hs Hl] (pid & Hp & Hh). exists pid. split.
  - by eapply lookup_weaken.
  - by apply Hl.
Qed.

Lemma parents_keep `{!CacheKeyStorageLaws B} (ps : list (CacheKey * string)) :
  Forall (λ d, acyclic d.1 = true) ps →
  Forall (λ p : St B R string * St B R (option error) * string,
            preserves keeps p.1.1 ∧ preserves keeps p.1.2)
    (map (λ d : CacheKey * string,
            (getID NewID d.1, ensurePersistentKey NewID d.1, d.2)) ps).
Proof.
  intros Hac. apply Forall_fmap. eapply Forall_impl; [exact Hac|].
  intros d Hd. simpl.
  split; [by apply getID_keeps|by apply ensurePersistentKey_keeps].
Qed.

Lemma ensureSlot_links `{!CacheKeyStorageLaws B} k i id ps : ∀ w : World B R,
  Forall (λ d, acyclic d.1 = true) ps →
  let run := ensureSlot i (output k) (digest k) id
               (map (λ d : CacheKey * string,
                       (getID NewID d.1, ensurePersistentKey NewID d.1, d.2))
                    ps) w in
  run.1 = None → ∀ d, d ∈ ps → parent_linked run.2 k id i d.
Proof.
  induction ps as [|d ps IH]; intros w Hac run Hok d' Hd'.
  { by apply elem_of_nil in Hd'. }
  apply Forall_cons in Hac as [Hd Hac].
  subst run. simpl in Hok |- *. unfold mbind, St_bind in Hok |- *.
  pose proof (getID_memo NewID d.1 w) as Hm.
  destruct (getID NewID d.1 w) as [pid w1]. simpl in Hm.
  unfold hasLink at 1 in Hok. unfold hasLink at 1.
  fold (depLink k i d.2) in Hok |- *.
  set (w2 := logCall (CallHasLink pid (depLink k i d.2) id) w1) in *.
  destruct (HasLink (backend w1) pid (depLink k i d.2) id) eqn:Hh.
  - (* the link is there *)
    pose proof (ensureSlot_keeps i (output k) (digest k) id _
                  (parents_keep ps Hac) w2) as Hk.
    apply elem_of_cons in Hd' as [->|Hd']; [|by apply IH].
    eapply parent_linked_keeps; [exact Hk|]. by exists pid.
  - (* the link is added *)
    pose proof (ensurePersistentKey_keeps d.1 Hd w2) as [Hk3 _].
    destruct (ensurePersistentKey NewID d.1 w2) as [[e|] w3]; [done|].
    simpl in Hk3.
    pose proof (AddLink_HasLink (backend w3) pid (depLink k i d.2) id) as Hadd.
    unfold addLink at 1 in Hok. unfold addLink at 1.
    destruct (AddLink (backend w3) pid (depLink k i d.2) id) as [b err].
    simpl in Hadd. destruct err as [e|]; [done|].
    set (w4 := logCall _ (setBackend b w3)) in *.
    pose proof (ensureSlot_keeps i (output k) (digest k) id _
                  (parents_keep ps Hac) w4) as Hk.
    apply elem_of_cons in Hd' as [->|Hd']; [|by apply IH].
    eapply parent_linked_keeps; [exact Hk|]. exists pid. split; [|by apply Hadd].
    by eapply lookup_weaken.
Qed.

Lemma ensureSlots_links `{!CacheKeyStorageLaws B} k id dss :
  ∀ i (w : World B R),
  Forall (Forall (λ d, acyclic d.1 = true)) dss →
  let run := ensureSlots i (output k) (digest k) id
               (map (map (λ d : CacheKey * string,
                            (getID NewID d.1, ensurePersistentKey NewID d.1,
                             d.2))) dss) w in
  run.1 = None →
  ∀ j ps d, dss !! j = Some ps → d ∈ ps → parent_linked run.2 k id (i + j) d.
Proof.
  induction dss as [|ps dss IH]; intros i w Hac run Hok j ps' d Hj Hd; [done|].
  apply Forall_cons in Hac as [Hps Hac].
  subst run. simpl in Hok |- *. unfold mbind, St_bind in Hok |- *.
  pose proof (ensureSlot_links k i id ps w Hps) as Hslot. simpl in Hslot.
  destruct (ensureSlot i _ _ id _ w) as [[e|] w1]; [done|].
  simpl in Hslot.
  assert (Forall (Forall (λ p : St B R string * St B R (option error) * string,
                            preserves keeps p.1.1 ∧ preserves keeps p.1.2))
            (map (map (λ d : CacheKey * string,
                         (getID NewID d.1, ensurePersistentKey NewID d.1, d.2)))
                 dss)) as Hkeep.
  { apply Forall_fmap. eapply Forall_impl; [exact Hac|]. intros ps0 Hps0.
    by apply parents_keep. }
  pose proof (ensureSlots_keeps (output k) (digest k) id _ Hkeep (S i) w1) as Hk.
  destruct j as [|j].
  - assert (ps' = ps) as -> by (simpl in Hj; congruence).
    rewrite Nat.add_0_r. eapply parent_linked_keeps; [exact Hk|].
    by apply Hslot.
  - replace (i + S j) with (S i + j) by lia. by apply (IH (S i) w1 Hac Hok j ps').
Qed.

Lemma ensurePersistentKey_links `{!CacheKeyStorageLaws B} k (w : World B R) :
  acyclic k = true →
  (ensurePersistentKey NewID k w).1 = None →
  linked (ensurePersistentKey NewID k w).2 k.
Proof.
  intros Hac Hok. rewrite ensurePersistentKey_unfold in Hok |- *.
  unfold mbind, St_bind in Hok |- *.
  pose proof (getID_memo NewID k w) as Hm.
  destruct (getID NewID k w) as [id w1]. simpl in Hm.
  apply acyclic_unfold in Hac as [_ Hps].
  assert (Forall (Forall (λ p : St B R string * St B R (option error) * string,
                            preserves keeps p.1.1 ∧ preserves keeps p.1.2))
            (map (map (λ d : CacheKey * string,
                         (getID NewID d.1, ensurePersistentKey NewID d.1, d.2)))
                 (deps k))) as Hkeep.
  { apply Forall_fmap. eapply Forall_impl; [exact Hps|]. intros ps0 Hps0.
    by apply parents_keep. }
  pose proof (ensureSlots_keeps (output k) (digest k) id _ Hkeep 0 w1) as [Hk _].
  exists id. split; [by eapply lookup_weaken|].
  intros i ps d Hi Hd.
  by apply (ensureSlots_links k id (deps k) 0 w1 Hps Hok i ps).
Qed.

(** *** On a linked key only existence checks are made *)

Lemma ensureSlot_checks k i id ps : ∀ w : World B R,
  (∀ d, d ∈ ps → parent_linked w k id i d) →
  ∃ t, ensureSlot i (output k) (digest k) id
         (map (λ d : CacheKey * string,
                 (getID NewID d.1, ensurePersistentKey NewID d.1, d.2)) ps) w
       = (None, logCalls t w)
       ∧ forallb is_HasLink t = true.
Proof.
  induction ps as [|d ps IH]; intros w Hl.
  { exists []. by rewrite logCalls_nil. }
  destruct (Hl d (list_elem_of_here _ _)) as (pid & Hp & Hh).
  simpl. unfold mbind, St_bind. rewrite (getID_cached _ _ _ _ Hp).
  unfold hasLink at 1. fold (depLink k i d.2). rewrite Hh.
  destruct (IH (logCall (CallHasLink pid (depLink k i d.2) id) w))
    as (t & Hrun & Ht).
  { intros d' Hd'. by apply Hl, list_elem_of_further. }
  exists (CallHasLink pid (depLink k i d.2) id :: t). split; [|done].
  rewrite Hrun. f_equal. apply (logCalls_app [_] t w).
Qed.

Lemma ensureSlots_checks k id dss : ∀ i (w : World B R),
  (∀ j ps d, dss !! j = Some ps → d ∈ ps → parent_linked w k id (i + j) d) →
  ∃ t, ensureSlots i (output k) (digest k) id
         (map (map (λ d : CacheKey * string,
                      (getID NewID d.1, ensurePersistentKey NewID d.1, d.2)))
              dss) w
       = (None, logCalls t w)
       ∧ forallb is_HasLink t = true.
Proof.
  induction dss as [|ps dss IH]; intros i w Hl.
  { exists []. by rewrite logCalls_nil. }
  destruct (ensureSlot_checks k i id ps w) as (t1 & Hrun1 & Ht1).
  { intros d Hd. specialize (Hl 0 ps d). rewrite Nat.add_0_r in Hl.
    by apply Hl. }
  destruct (IH (S i) (logCalls t1 w)) as (t2 & Hrun2 & Ht2).
  { intros j ps' d Hj Hd. replace (S i + j) with (i + S j) by lia.
    by apply (Hl (S j) ps'). }
  exists (t1 ++ t2). split; [|by rewrite forallb_app, Ht1, Ht2].
  simpl. unfold mbind, St_bind. rewrite Hrun1, Hrun2.
  by rewrite logCalls_app.
Qed.

Lemma ensurePersistentKey_checks k (w : World B R) :
  linked w k →
  ∃ t, ensurePersistentKey NewID k w = (None, logCalls t w)
       ∧ forallb is_HasLink t = true.
Proof.
  intros (id & Hid & Hl). rewrite ensurePersistentKey_unfold.
  unfold mbind, St_bind. rewrite (getID_cached _ _ _ _ Hid).
  apply ensureSlots_checks. intros j ps d Hj Hd. by apply (Hl j ps).
Qed.

(** C4: on a key that is resolved and linked from all its parents,
    [ensurePersistentKey] only asks [HasLink] and changes nothing else; this
    is the case right after a successful call, so a second call writes
    nothing. *)
Theorem ensurePersistentKey_idempotent `{!CacheKeyStorageLaws B}
    (k : CacheKey) (w : World B R) :
  (linked w k →
   ∃ t, ensurePersistentKey NewID k w = (None, logCalls t w)
        ∧ forallb is_HasLink t = true)
  ∧ (acyclic k = true →
     (ensurePersistentKey NewID k w).1 = None →
     let w1 := (ensurePersistentKey NewID k w).2 in
     ∃ t, ensurePersistentKey NewID k w1 = (None, logCalls t w1)
          ∧ forallb is_HasLink t = true).
Proof.
  split.
  - apply ensurePersistentKey_checks.
  - intros Hac Hok w1. apply ensurePersistentKey_checks.
    by apply ensurePersistentKey_links.
Qed.
End Persistence.

(** ** Query *)

Section QueryProofs.
Context {B R : Type} `{!CacheKeyStorage B, !CacheResultStorage R}.
Variable FromBytes : string → string.
Variable NewID : nat → string.

Lemma discover_spec dgst output found : ∀ allRes (w : World B R),
  let run := discover dgst output found allRes w in
  fresh_ids w → resolved_all w allRes →
  backend run.2 = backend w ∧ trace run.2 = trace w ∧ ids w ⊆ ids run.2
  ∧ (heap_next w ≤ heap_next run.2)%positive
  ∧ fresh_ids run.2 ∧ resolved_all run.2 run.1
  ∧ (∀ id, id ∈ run.1.*1 ↔ id ∈ allRes.*1 ∨ id ∈ found).
Proof.
  induction found as [|x found IH]; intros allRes w run Hf Hr; subst run.
  { simpl. split_and!; try done. intros id. rewrite elem_of_nil. tauto. }
  simpl. case_bool_decide as Hx.
  - destruct (IH allRes w Hf Hr) as (? & ? & ? & ? & ? & ? & Hiff).
    split_and!; try done. intros id. rewrite Hiff, elem_of_cons.
    split; [tauto|]. intros [?|[->|?]]; tauto.
  - unfold mbind, St_bind. simpl.
    set (a := heap_next w).
    set (w1 := mkWorld _ _ _ _ _ _ _).
    assert (ids w !! a = None) as Hnone.
    { apply not_elem_of_dom. intros Hin. apply Hf in Hin. subst a. lia. }
    assert (fresh_ids w1) as Hf1.
    { intros a' Hin. subst w1. simpl in *. rewrite dom_insert in Hin.
      apply elem_of_union in Hin as [Hin|Hin].
      - apply elem_of_singleton in Hin. subst a' a. lia.
      - apply Hf in Hin. lia. }
    assert (resolved_all w1 (allRes ++ [(x, mkCacheKey a x dgst output [])]))
      as Hr1.
    { intros id key Hin. apply elem_of_app in Hin as [Hin|Hin].
      - destruct (Hr id key Hin) as [Hid ?]. split; [|done]. subst w1. simpl.
        rewrite lookup_insert_ne; [done|]. intros Heq.
        rewrite <-Heq in Hid. congruence.
      - apply list_elem_of_singleton in Hin. simplify_eq. split; [|done].
        subst w1. simpl. apply lookup_insert_eq. }
    destruct (IH _ w1 Hf1 Hr1) as (Hb & Ht & Hs & Hh & Hf' & Hr' & Hiff).
    split_and!; try done.
    + etrans; [|exact Hs]. subst w1. simpl. by apply insert_subseteq.
    + etrans; [|exact Hh]. subst w1 a. simpl. lia.
    + intros id. rewrite Hiff, fmap_app, elem_of_app, elem_of_cons. simpl.
      rewrite list_elem_of_singleton. tauto.
Qed.

Lemma queryWalk_spec input dgst output deps :
  ∀ allRes (w : World B R) sets allRes' w',
  Forall (λ d : CacheKeyWithSelector, acyclic d.1 = true) deps →
  fresh_ids w → below_heap w deps → resolved_all w allRes →
  queryWalk NewID input dgst output deps allRes w = (Ok (sets, allRes'), w') →
  backend w' = backend w ∧ ids w ⊆ ids w'
  ∧ (∃ t, trace w' = trace w ++ t)
  ∧ resolved_all w' allRes'
  ∧ Forall2 (walked (backend w) w' input dgst output) deps sets
  ∧ (∀ id, id ∈ allRes'.*1 ↔ id ∈ allRes.*1 ∨ ∃ set, set ∈ sets ∧ id ∈ set).
Proof.
  induction deps as [|d deps IH];
    intros allRes w sets allRes' w' Hac Hf Hbelow Hr Hrun.
  { simpl in Hrun. unfold mret, St_ret in Hrun. simplify_eq.
    split_and!; try done.
    - exists []. by rewrite app_nil_r.
    - intros id. split; [tauto|]. intros [?|(set & Hs & _)]; [done|].
      by apply elem_of_nil in Hs. }
  apply Forall_cons in Hac as [Hd Hac].
  simpl in Hrun. unfold mbind, St_bind in Hrun.
  pose proof (getID_memo NewID d.1 w) as Hm.
  pose proof (getID_extends NewID d.1 Hd w) as [Hres Hsub].
  destruct (getID NewID d.1 w) as [pid w1]. simpl in Hm, Hres, Hsub.
  destruct Hres as [Hb1 _ Hh1 _ _ (t1 & Ht1 & _) Hdom1].
  unfold walkLinks at 1 in Hrun. fold (queryLink input dgst output d) in Hrun.
  destruct (WalkLinks (backend w1) pid (queryLink input dgst output d))
    as [found err] eqn:Hwalk.
  set (w2 := logCall (CallWalkLinks pid (queryLink input dgst output d)) w1) in *.
  assert (fresh_ids w2) as Hf2.
  { intros a Ha. simpl in *. rewrite Hh1. apply Hdom1 in Ha.
    apply elem_of_union in Ha as [Ha|Ha]; [by apply Hf|].
    apply (Hbelow d a); [apply list_elem_of_here|done]. }
  assert (resolved_all w2 allRes) as Hr2.
  { intros id key Hin. destruct (Hr id key Hin) as [Hid ?]. split; [|done].
    simpl. by eapply lookup_weaken. }
  destruct (discover_spec dgst output found allRes w2 Hf2 Hr2)
    as (Hb3 & Ht3 & Hs3 & Hh3 & Hf3 & Hr3 & Hiff3).
  destruct (discover dgst output found allRes w2) as [allRes1 w3].
  simpl in Hb3, Ht3, Hs3, Hh3, Hf3, Hr3, Hiff3.
  destruct err as [e|]; [done|].
  destruct (queryWalk NewID input dgst output deps allRes1 w3)
    as [[[sets1 allRes2]|e] w4] eqn:Hrest; [|done].
  unfold mret, St_ret in Hrun. simplify_eq.
  assert (below_heap w3 deps) as Hbelow3.
  { intros d' a Hd' Ha.
    specialize (Hbelow d' a (list_elem_of_further _ _ _ Hd') Ha).
    simpl in Hh3. lia. }
  destruct (IH allRes1 w3 sets1 allRes' w' Hac Hf3 Hbelow3 Hr3 Hrest)
    as (Hb' & Hs' & (t' & Ht') & Hr' & Hall & Hiff').
  assert (backend w3 = backend w) as Hbw by (simpl in Hb3; congruence).
  split_and!.
  - congruence.
  - etrans; [exact Hsub|]. etrans; [exact Hs3|done].
  - exists (t1 ++ [CallWalkLinks pid (queryLink input dgst output d)] ++ t').
    rewrite Ht', Ht3. simpl. rewrite Ht1. by rewrite <-!app_assoc.
  - done.
  - constructor.
    + exists pid. split.
      * eapply lookup_weaken; [|exact Hs']. eapply lookup_weaken; [|exact Hs3].
        done.
      * by rewrite <-Hb1, Hwalk.
    + by rewrite <-Hbw.
  - intros id. rewrite Hiff', Hiff3. split.
    + intros [[?|Hin]|(set & Hs & Hin)].
      * by left.
      * right. exists (list_to_set found). split; [apply list_elem_of_here|].
        by apply elem_of_list_to_set.
      * right. exists set. split; [by apply list_elem_of_further|done].
    + intros [?|(set & Hs & Hin)]; [by left; left|].
      apply elem_of_cons in Hs as [->|Hs].
      * left; right. by apply elem_of_list_to_set in Hin.
      * right. by exists set.
Qed.

(** *** The second loop *)

#[export] Instance linking_preorder : PreOrder (linking (B:=B) (R:=R)).
Proof.
  split.
  - intros w. split_and!; try done. exists []. by rewrite app_nil_r.
  - intros w1 w2 w3 (Hi1 & Hl1 & t1 & Ht1) (Hi2 & Hl2 & t2 & Ht2).
    split_and!.
    + congruence.
    + intros id l t Hh. by apply Hl2, Hl1.
    + exists (t1 ++ t2). by rewrite Ht2, Ht1, <-app_assoc.
Qed.

Lemma logged_before (w w1 w2 : World B R) c :
  linking w w1 → logged w1 w2 c → logged w w2 c.
Proof.
  intros (_ & _ & t0 & Ht0) (t & Ht & Hc). exists (t0 ++ t). split.
  - by rewrite Ht, Ht0, <-app_assoc.
  - apply elem_of_app. by right.
Qed.

Lemma logged_after (w w1 w2 : World B R) c :
  logged w w1 c → linking w1 w2 → logged w w2 c.
Proof.
  intros (t & Ht & Hc) (_ & _ & t0 & Ht0). exists (t ++ t0). split.
  - by rewrite Ht0, Ht, <-app_assoc.
  - apply elem_of_app. by left.
Qed.

Lemma addLink_linking `{!CacheKeyStorageLaws B} id l target (w : World B R) :
  linking w (addLink id l target w).2
  ∧ logged w (addLink id l target w).2 (CallAddLink id l target)
  ∧ ((addLink id l target w).1 = None →
     HasLink (backend (addLink id l target w).2) id l target = true).
Proof.
  unfold addLink.
  pose proof (AddLink_keeps (backend w) id l target) as Hk.
  pose proof (AddLink_HasLink (backend w) id l target) as Hh.
  destruct (AddLink (backend w) id l target) as [b e]. simpl in *.
  split_and!.
  - split_and!; [done|exact Hk|]. by exists [CallAddLink id l target].
  - exists [CallAddLink id l target]. split; [done|apply list_elem_of_here].
  - done.
Qed.

Lemma linkDeps_spec `{!CacheKeyStorageLaws B} input dgst output id key :
  ∀ allDeps (w : World B R),
  ids w !! addr key = Some id →
  (∀ d dresults, (d, dresults) ∈ allDeps → is_Some (ids w !! addr d.1)) →
  let run := linkDeps NewID input dgst output id key allDeps w in
  linking w run.2
  ∧ (run.1 = None →
     ∀ d dresults pid, (d, dresults) ∈ allDeps →
       ids w !! addr d.1 = Some pid →
       id ∈ dresults
       ∨ (HasLink (backend run.2) pid (queryLink input dgst output d) id = true
          ∧ logged w run.2 (CallAddLink pid (queryLink input dgst output d) id))).
Proof.
  induction allDeps as [|[d dres] rest IH]; intros w Hkey Hdeps run; subst run.
  { simpl. split; [reflexivity|]. intros _ d dres pid Hin.
    by apply elem_of_nil in Hin. }
  assert (∀ d' dres', (d', dres') ∈ rest → is_Some (ids w !! addr d'.1))
    as Hrest.
  { intros d' dres' Hin. apply (Hdeps d' dres'). by apply list_elem_of_further. }
  simpl. case_bool_decide as Hin.
  - destruct (IH w Hkey Hrest) as [Hl Hok]. split; [done|].
    intros Hnone d' dres' pid Hel Hpid.
    apply elem_of_cons in Hel as [Heq|Hel]; [|by apply Hok].
    simplify_eq. by left.
  - unfold mbind, St_bind.
    destruct (Hdeps d dres (list_elem_of_here _ _)) as [pid Hpid].
    rewrite (getID_cached _ _ _ _ Hpid), (getID_cached _ _ _ _ Hkey).
    fold (queryLink input dgst output d).
    destruct (addLink_linking pid (queryLink input dgst output d) id w)
      as (Hl1 & Hlog1 & Hhas1).
    destruct (addLink pid (queryLink input dgst output d) id w) as [err w1].
    simpl in Hl1, Hlog1, Hhas1.
    destruct err as [e|]; [by split|].
    assert (ids w1 = ids w) as Hids by apply Hl1.
    destruct (IH w1) as [Hl Hok].
    { by rewrite Hids. }
    { intros d' dres' Hel. rewrite Hids. by apply (Hrest d' dres'). }
    split; [by etrans|].
    intros Hnone d' dres' pid' Hel Hpid'.
    apply elem_of_cons in Hel as [Heq|Hel].
    + simplify_eq. right. split.
      * apply Hl. by apply Hhas1.
      * by eapply logged_after.
    + rewrite <-Hids in Hpid'.
      destruct (Hok Hnone d' dres' pid' Hel Hpid') as [?|[? ?]]; [by left|].
      right. split; [done|]. by eapply logged_before.
Qed.

Lemma linkResults_spec `{!CacheKeyStorageLaws B} input dgst output allDeps :
  ∀ allRes (w : World B R),
  resolved_all w allRes →
  (∀ d dresults, (d, dresults) ∈ allDeps → is_Some (ids w !! addr d.1)) →
  let run := linkResults NewID input dgst output allRes allDeps w in
  linking w run.2
  ∧ (run.1 = None →
     ∀ id key d dresults pid, (id, key) ∈ allRes → (d, dresults) ∈ allDeps →
       ids w !! addr d.1 = Some pid →
       id ∈ dresults
       ∨ (HasLink (backend run.2) pid (queryLink input dgst output d) id = true
          ∧ logged w run.2 (CallAddLink pid (queryLink input dgst output d) id))).
Proof.
  induction allRes as [|[id key] rest IH]; intros w Hr Hdeps run; subst run.
  { simpl. split; [reflexivity|]. intros _ id key d dres pid Hin.
    by apply elem_of_nil in Hin. }
  simpl. unfold mbind, St_bind.
  destruct (Hr id key (list_elem_of_here _ _)) as [Hkey _].
  destruct (linkDeps_spec input dgst output id key allDeps w Hkey Hdeps)
    as [Hl1 Hok1].
  destruct (linkDeps NewID input dgst output id key allDeps w) as [err w1].
  simpl in Hl1, Hok1. destruct err as [e|]; [by split|].
  assert (ids w1 = ids w) as Hids by apply Hl1.
  destruct (IH w1) as [Hl Hok].
  { intros id' key' Hin. unfold resolved_all in Hr. rewrite Hids.
    apply Hr. by apply list_elem_of_further. }
  { intros d' dres' Hel. rewrite Hids. by apply (Hdeps d' dres'). }
  split; [by etrans|].
  intros Hnone id' key' d dres pid Hin Hel Hpid.
  apply elem_of_cons in Hin as [Heq|Hin].
  - simplify_eq.
    destruct (Hok1 eq_refl d dres pid Hel Hpid) as [?|[Hh Hlog]]; [by left|].
    right. split; [by apply Hl|by eapply logged_after].
  - rewrite <-Hids in Hpid.
    destruct (Hok Hnone id' key' d dres pid Hin Hel Hpid) as [?|[? ?]];
      [by left|].
    right. split; [done|]. by eapply logged_before.
Qed.
Lemma Forall2_zip_elem {A A'} (P : A → A' → Prop) l k x y :
  Forall2 P l k → (x, y) ∈ zip l k → P x y.
Proof.
  induction 1 as [|a b l k Hab _ IH]; simpl; intros Hin.
  - by apply elem_of_nil in Hin.
  - apply elem_of_cons in Hin as [Heq|Hin]; [by simplify_eq|by apply IH].
Qed.

Lemma Forall2_zip_l {A A'} (P : A → A' → Prop) l k x :
  Forall2 P l k → x ∈ l → ∃ y, (x, y) ∈ zip l k.
Proof.
  induction 1 as [|a b l k Hab _ IH]; simpl; intros Hin.
  - by apply elem_of_nil in Hin.
  - apply elem_of_cons in Hin as [->|Hin].
    + exists b. apply list_elem_of_here.
    + destruct (IH Hin) as [y Hy]. exists y. by apply list_elem_of_further.
Qed.

Lemma Forall2_zip_r {A A'} (P : A → A' → Prop) l k y :
  Forall2 P l k → y ∈ k → ∃ x, (x, y) ∈ zip l k.
Proof.
  induction 1 as [|a b l k Hab _ IH]; simpl; intros Hin.
  - by apply elem_of_nil in Hin.
  - apply elem_of_cons in Hin as [->|Hin].
    + exists a. apply list_elem_of_here.
    + destruct (IH Hin) as [x Hx]. exists x. by apply list_elem_of_further.
Qed.

Lemma resolved_all_IDs (w : World B R) allRes :
  resolved_all w allRes → ID <$> allRes.*2 = allRes.*1.
Proof.
  intros Hr. induction allRes as [|[id key] rest IH]; [done|]. simpl.
  destruct (Hr id key (list_elem_of_here _ _)) as [_ ->]. f_equal.
  apply IH. intros id' key' Hin. apply Hr. by apply list_elem_of_further.
Qed.

(** C5: after a successful [Query] with dependencies, the identifiers of
    the returned keys are exactly those the walks from the dependencies
    delivered, and each of them is linked from every dependency under that
    dependency's label: the walk from the dependency delivered it, or
    [Query] added the link. *)
Theorem Query_cross_links `{!CacheKeyStorageLaws B}
    (deps : list CacheKeyWithSelector) (input : Index) (dgst : string)
    (output : Index) (w : World B R) (keys : list CacheKey) (w' : World B R) :
  deps ≠ [] →
  Forall (λ d : CacheKeyWithSelector, acyclic d.1 = true) deps →
  fresh_ids w → below_heap w deps →
  Query FromBytes NewID deps input dgst output w = (Ok keys, w') →
  (∀ id, id ∈ ID <$> keys ↔
         ∃ d pid, d ∈ deps ∧ ids w' !! addr d.1 = Some pid ∧
                  id ∈ (WalkLinks (backend w) pid
                          (queryLink input dgst output d)).1)
  ∧ (∀ d id, d ∈ deps → id ∈ ID <$> keys →
       ∃ pid, ids w' !! addr d.1 = Some pid
              ∧ HasLink (backend w') pid (queryLink input dgst output d) id
                = true
              ∧ (id ∈ (WalkLinks (backend w) pid
                         (queryLink input dgst output d)).1
                 ∨ logged w w'
                     (CallAddLink pid (queryLink input dgst output d) id))).
Proof.
  intros Hne Hac Hf Hbelow Hq. unfold Query, mbind, St_bind in Hq.
  destruct (queryWalk NewID input dgst output deps [] w)
    as [[[sets allRes]|e] w1] eqn:Hwalk; [|done].
  destruct (queryWalk_spec input dgst output deps [] w sets allRes w1
              Hac Hf Hbelow) as (Hb1 & Hs1 & Ht1 & Hr1 & Hall & Hiff); [|done|].
  { intros id key Hin. by apply elem_of_nil in Hin. }
  assert (∀ d dres, (d, dres) ∈ zip deps sets → is_Some (ids w1 !! addr d.1))
    as Hdeps.
  { intros d dres Hin.
    destruct (Forall2_zip_elem _ _ _ _ _ Hall Hin) as (pid & Hpid & _).
    by exists pid. }
  destruct (linkResults_spec input dgst output (zip deps sets) allRes w1
              Hr1 Hdeps) as [Hl Hok].
  destruct (linkResults NewID input dgst output allRes (zip deps sets) w1)
    as [err w2].
  simpl in Hl, Hok. destruct err as [e|]; [done|].
  rewrite bool_decide_eq_false_2 in Hq by done.
  unfold mret, St_ret in Hq. simplify_eq.
  assert (ids w' = ids w1) as Hids by apply Hl.
  rewrite (resolved_all_IDs w1 allRes Hr1).
  split.
  - intros id. rewrite Hiff. split.
    + intros [Hin|(set & Hs & Hin)]; [by apply elem_of_nil in Hin|].
      destruct (Forall2_zip_r _ _ _ _ Hall Hs) as [d Hd].
      destruct (Forall2_zip_elem _ _ _ _ _ Hall Hd) as (pid & Hpid & ->).
      exists d, pid. split_and!.
      * by eapply elem_of_zip_l.
      * by rewrite Hids.
      * by apply elem_of_list_to_set in Hin.
    + intros (d & pid & Hd & Hpid & Hin). right.
      destruct (Forall2_zip_l _ _ _ _ Hall Hd) as [set Hset].
      destruct (Forall2_zip_elem _ _ _ _ _ Hall Hset) as (pid' & Hpid' & ->).
      exists (list_to_set (WalkLinks (backend w) pid'
                             (queryLink input dgst output d)).1).
      split; [by eapply elem_of_zip_r|].
      rewrite Hids in Hpid. simplify_eq. by apply elem_of_list_to_set.
  - intros d id Hd Hid.
    destruct (Forall2_zip_l _ _ _ _ Hall Hd) as [set Hset].
    destruct (Forall2_zip_elem _ _ _ _ _ Hall Hset) as (pid & Hpid & ->).
    apply list_elem_of_fmap in Hid as ([id' key] & -> & Hin). simpl.
    exists pid. split; [by rewrite Hids|].
    destruct (Hok eq_refl id' key d _ pid Hin Hset Hpid) as [Hw|[Hh Hlog]].
    + apply elem_of_list_to_set in Hw. split; [|by left].
      apply Hl. rewrite Hb1. by apply WalkLinks_HasLink.
    + split; [done|]. right.
      destruct Ht1 as [t1 Ht1]. destruct Hlog as (t & Ht & Hc).
      exists (t1 ++ t). split.
      * by rewrite Ht, Ht1, <-app_assoc.
      * apply elem_of_app. by right.
Qed.
End QueryProofs.

(** ** The claims on concrete inputs *)

(** C1, as stated: on [demoKey] the identifier [X] is linked from one
    parent of each slot, so the stated candidate set is not empty; the
    parent [C] of slot 1 does not link to it, and [getIDFromDeps] returns a
    minted identifier, which is no member of that set. *)
Lemma getIDFromDeps_spec_candidates_counterexample :
  let id := (getIDFromDeps stubNewID demoKey demoWorld).1 in
  let w' := (getIDFromDeps stubNewID demoKey demoWorld).2 in
  spec_candidates w' demoKey = {["X"]}
  ∧ id = "minted-0"
  ∧ ¬ (spec_candidates w' demoKey ≠ ∅ → id ∈ spec_candidates w' demoKey).
Proof.
  assert (spec_candidates (getIDFromDeps stubNewID demoKey demoWorld).2 demoKey
          = {["X"]}) as Hs.
  { vm_compute. reflexivity. }
  assert ((getIDFromDeps stubNewID demoKey demoWorld).1 = "minted-0") as Hid.
  { vm_compute. reflexivity. }
  cbv zeta. rewrite Hs, Hid. split_and!; [done..|].
  intros H. specialize (H ltac:(set_solver)). set_solver.
Qed.

(** The candidate theorem on [demoKey] and the store without failures. *)
Lemma getIDFromDeps_candidates_witness :
  let id := (getIDFromDeps stubNewID demoKey demoWorld).1 in
  let w' := (getIDFromDeps stubNewID demoKey demoWorld).2 in
  let matches := (walkSlots 0 (output demoKey) (digest demoKey)
                    (map (map (λ d : CacheKey * string,
                                 (getID stubNewID d.1, d.2)))
                         (deps demoKey)) ∅ demoWorld).1 in
  acyclic demoKey = true
  ∧ (∀ x, x ∈ matches ↔
        (∀ i ps d, deps demoKey !! i = Some ps → d ∈ ps →
                   walk_fails w' demoKey i d = false) ∧
        (∃ ps d, deps demoKey !! 0 = Some ps ∧ d ∈ ps
                 ∧ x ∈ reached w' demoKey 0 d) ∧
        (∀ i ps d, deps demoKey !! S i = Some ps → d ∈ ps →
                   x ∈ reached w' demoKey (S i) d))
  ∧ (matches ≠ ∅ → id ∈ matches)
  ∧ (matches = ∅ →
     ∃ n, minted demoWorld ≤ n ∧ minted w' = S n ∧ id = stubNewID n).
Proof.
  split; [reflexivity|].
  apply (getIDFromDeps_candidates stubNewID demoKey demoWorld).
  reflexivity.
Defined.



(** Persisting [demoKey] twice: the second call only checks. *)
Lemma ensurePersistentKey_idempotent_witness :
  let w1 := (ensurePersistentKey stubNewID demoKey demoWorld).2 in
  acyclic demoKey = true
  ∧ (ensurePersistentKey stubNewID demoKey demoWorld).1 = None
  ∧ ∃ t, ensurePersistentKey stubNewID demoKey w1 = (None, logCalls t w1)
         ∧ forallb is_HasLink t = true.
Proof.
  split; [reflexivity|]. split; [vm_compute; reflexivity|].
  apply (ensurePersistentKey_idempotent (CacheKeyStorageLaws0:=StubStore_laws)
           stubNewID demoKey demoWorld).
  - reflexivity.
  - vm_compute. reflexivity.
Defined.

(** [Query] over [A] and [C]: [X] is found through [A] and linked from [C]. *)
Lemma Query_cross_links_witness :
  let run := Query stubFromBytes stubNewID queryDeps 0%Z "op" 0%Z demoWorld in
  let keys := [mkCacheKey 100 "X" "op" 0%Z []] in
  run.1 = Ok keys
  ∧ (∀ d id, d ∈ queryDeps → id ∈ ID <$> keys →
       ∃ pid, ids run.2 !! addr d.1 = Some pid
              ∧ HasLink (backend run.2) pid (queryLink 0%Z "op" 0%Z d) id = true
              ∧ (id ∈ (WalkLinks (backend demoWorld) pid
                         (queryLink 0%Z "op" 0%Z d)).1
                 ∨ logged demoWorld run.2
                     (CallAddLink pid (queryLink 0%Z "op" 0%Z d) id))).
Proof.
  split; [vm_compute; reflexivity|].
  apply (Query_cross_links (CacheKeyStorageLaws0:=StubStore_laws)
           stubFromBytes stubNewID queryDeps 0%Z "op" 0%Z demoWorld).
  - discriminate.
  - repeat constructor.
  - intros a Ha. vm_compute in Ha. discriminate.
  - intros d a Hd Ha. unfold queryDeps in Hd.
    apply elem_of_cons in Hd as [->|Hd];
      [|apply list_elem_of_singleton in Hd as ->];
      simpl in Ha; apply elem_of_union in Ha as [Ha|Ha];
      try (by apply elem_of_empty in Ha);
      apply elem_of_singleton in Ha as ->; reflexivity.
  - vm_compute. reflexivity.
Defined.

(** C6, as stated: over the key storage whose [Release] fails, [Records]
    of [A] succeeds and omits the association without artifact, which the
    walk of [A] still delivers afterwards. *)
Lemma Records_self_healing_spec_counterexample :
  let run := Records stubNewID demoA stickyWorld in
  let id := (getID stubNewID demoA stickyWorld).1 in
  run.1 = Ok [toRecord demoA (mkCacheResult "r1" 10%Z)]
  ∧ mkCacheResult "r2" 20%Z ∈ (WalkResults (backend run.2) id).1
  ∧ resultExists (results run.2) "r2" = false
  ∧ ¬ (∀ cr, cr ∈ (WalkResults (backend run.2) id).1 →
             resultExists (results run.2) (cr_ID cr) = true).
Proof.
  assert (mkCacheResult "r2" 20%Z
          ∈ (WalkResults (backend (Records stubNewID demoA stickyWorld).2)
               (getID stubNewID demoA stickyWorld).1).1) as Hin.
  { vm_compute. apply list_elem_of_further, list_elem_of_here. }
  cbv zeta. split_and!; [vm_compute; reflexivity|exact Hin|reflexivity|].
  intros H. specialize (H _ Hin). vm_compute in H. discriminate.
Qed.

(** [Records] of [A]: the association without artifact is released. *)
Lemma Records_self_healing_witness :
  let run := Records stubNewID demoA staleWorld in
  run.1 = Ok [toRecord demoA (mkCacheResult "r1" 10%Z)]
  ∧ releases_succeed (backend staleWorld) [mkCacheResult "r2" 20%Z] = true
  ∧ backend run.2 =
      releaseEach (backend staleWorld) [mkCacheResult "r2" 20%Z]
  ∧ (∀ cr, cr ∈ (WalkResults (backend run.2) "A").1 →
           resultExists (results run.2) (cr_ID cr) = true).
Proof.
  destruct (Records stubNewID demoA staleWorld) as [r w'] eqn:Hrun.
  assert (r = Ok [toRecord demoA (mkCacheResult "r1" 10%Z)]) as ->.
  { by vm_compute in Hrun; injection Hrun as <- _. }
  destruct (Records_self_healing
              (CacheKeyStorageReleaseLaws0:=StubStore_release_laws)
              stubNewID demoA staleWorld _ w' Hrun)
    as (_ & _ & Hb & _ & Hall).
  simpl. split_and!; [done|reflexivity|exact Hb|].
  intros cr Hin. apply Hall; [reflexivity|exact Hin].
Defined.

(** The root key [A], and [rootKey] on a hashed and on a random digest. *)
Lemma root_key_identity_witness :
  deps demoA = [] ∧ ids demoWorld !! addr demoA = None
  ∧ (getID stubNewID demoA demoWorld).1 = "A"
  ∧ rootKey stubFromBytes "op" 2%Z = "sha256:op@2"
  ∧ rootKey stubFromBytes "random:op" 2%Z = "random:op".
Proof.
  split; [reflexivity|]. split; [reflexivity|].
  destruct (root_key_identity stubFromBytes stubNewID demoA demoWorld "op" 2%Z)
    as (Hid & _ & _ & _ & Hroot); [reflexivity|by left|].
  destruct (root_key_identity stubFromBytes stubNewID demoA demoWorld
              "random:op" 2%Z) as (_ & _ & _ & _ & Hrand);
    [reflexivity|by left|].
  split_and!; [exact Hid|exact Hroot|exact Hrand].
Defined.

(** Resolving [demoKey], again, and then another key. *)
Lemma getID_memoized_witness :
  let id := (getID stubNewID demoKey demoWorld).1 in
  let w1 := (getID stubNewID demoKey demoWorld).2 in
  acyclic demoC = true
  ∧ ids w1 !! addr demoKey = Some id
  ∧ getID stubNewID demoKey w1 = (id, w1)
  ∧ ids (getID stubNewID demoC w1).2 !! addr demoKey = Some id.
Proof.
  destruct (getID_memoized stubNewID demoKey demoWorld) as (Hm & Hc & Hk).
  split_and!; [reflexivity|exact Hm|by apply Hc|].
  apply Hk; [reflexivity|exact Hm].
Defined.

(** Outputs 0 and 1 of a random and of a hashed digest. *)
Lemma rootKey_random_ignores_output_witness :
  rootKey stubFromBytes "random:op" 0%Z = rootKey stubFromBytes "random:op" 1%Z
  ∧ rootKey stubFromBytes "sha256:op" 0%Z ≠ rootKey stubFromBytes "sha256:op" 1%Z.
Proof.
  assert (0%Z ≠ 1%Z) as Hne by discriminate.
  split.
  - apply (rootKey_random_ignores_output (Inj0:=stubFromBytes_inj)
             stubFromBytes stubNewID "random:op" 0%Z 1%Z demoWorld Hne).
  - apply (rootKey_random_ignores_output (Inj0:=stubFromBytes_inj)
             stubFromBytes stubNewID "sha256:op" 0%Z 1%Z demoWorld Hne).
Defined.

(** * The rest of the manager *)

Arguments filterResults : simpl never.

(** ** Loading *)

Section MoreLoad.
Context {B R : Type} `{!CacheKeyStorage B, !CacheResultStorage R}.
Variable NewID : nat → string.

(** X1: resolving the identifier of a key, whatever the key and the state,
    writes to neither storage, releases no handle and allocates no key
    object; the only collaborator calls it makes are link walks, and the
    only memo entries it adds are at addresses of the key graph. *)
Theorem getID_read_only (k : CacheKey) (w : World B R) :
  let w' := (getID NewID k w).2 in
  backend w' = backend w ∧ results w' = results w
  ∧ released w' = released w ∧ heap_next w' = heap_next w
  ∧ (∃ t, trace w' = trace w ++ t ∧ forallb is_WalkLinks t = true)
  ∧ dom (ids w') ⊆ dom (ids w) ∪ addrs k.
Proof.
  intros w'. destruct (getID_resolves NewID k w) as [? ? ? ? ? ? ?].
  by split_and!.
Qed.

(** X2: [Load] returns the error of the key storage's [Load] when that
    fails, and otherwise whatever the result storage's [Load] returns for
    the association found under the resolved identifier of the record's
    key; it changes neither storage and releases nothing. *)
Theorem Load_outcome (rec : CacheRecord) (w : World B R) :
  let id := (getID NewID (rec_key rec) w).1 in
  let w' := (Load NewID rec w).2 in
  (Load NewID rec w).1 =
    match backendLoad (backend w) id (rec_ID rec) with
    | Err e => Err e
    | Ok res => resultLoad (results w) res
    end
  ∧ backend w' = backend w ∧ results w' = results w
  ∧ released w' = released w.
Proof.
  intros id w'. subst id w'. unfold Load, mbind, St_bind.
  destruct (getID_resolves NewID (rec_key rec) w) as [Hb Hr _ Hl _ _ _].
  destruct (getID NewID (rec_key rec) w) as [id w1]. simpl in *.
  unfold loadBackend. rewrite Hb.
  destruct (backendLoad (backend w) id (rec_ID rec)) as [res|e]; simpl.
  - unfold loadResult. simpl. by rewrite Hr.
  - done.
Qed.

(** X3: over a result storage without the bulk capability,
    [LoadWithParents] is [Load]: it fails as [Load] fails, and otherwise
    returns the one loaded result, for the record's key, whose association
    carries the identifier of the key (not that of the record) and the
    creation time of the record. *)
Theorem LoadWithParents_fallback (rec : CacheRecord) (w : World B R) :
  resultLoadWithParents (R:=R) = None →
  LoadWithParents NewID rec w =
    (match (Load NewID rec w).1 with
     | Err e => Err e
     | Ok res =>
         Ok [mkLoadedResult res
               (mkCacheResult (getID NewID (rec_key rec) w).1 (rec_CreatedAt rec))
               (rec_key rec)]
     end, (Load NewID rec w).2).
Proof.
  intros Hcap. unfold LoadWithParents. rewrite Hcap. unfold mbind, St_bind.
  assert (ids (Load NewID rec w).2 !! addr (rec_key rec)
          = Some (getID NewID (rec_key rec) w).1) as Hm.
  { unfold Load, mbind, St_bind.
    pose proof (getID_memo NewID (rec_key rec) w) as Hm.
    destruct (getID NewID (rec_key rec) w) as [id w1]. simpl in *.
    unfold loadBackend.
    destruct (backendLoad (backend w1) id (rec_ID rec)); done. }
  destruct (Load NewID rec w) as [[res|e] w1]; simpl in *; [|done].
  by rewrite (getID_cached _ _ _ _ Hm).
Qed.

Lemma filterResults_unfold ck :
  filterResults (R:=R) NewID ck =
  filterResults_of NewID ck
    (map (map (λ d : CacheKey * string, filterResults NewID d.1)) (deps ck)).
Proof. by destruct ck. Qed.

Lemma matchResults_spec id ck crs : ∀ acc (m : gmap string Result),
  ∃ new, (matchResults id ck crs acc m).1 = acc ++ new
         ∧ handles m ≡ₚ (lr_Result <$> new) ++ handles (matchResults id ck crs acc m).2.
Proof.
  induction crs as [|cr crs IH]; intros acc m; simpl.
  { exists []. by rewrite app_nil_r. }
  destruct (m !! id) as [res|] eqn:Hm; [|apply IH].
  destruct (IH (acc ++ [mkLoadedResult res cr ck]) (delete id m))
    as (new & Hnew & Hperm).
  exists (mkLoadedResult res cr ck :: new). split.
  - by rewrite Hnew, <-app_assoc.
  - simpl. rewrite <-Hperm. unfold handles.
    by rewrite <-(map_to_list_delete m id res Hm).
Qed.

Lemma filterSlot_sound (ps : list (Trav → St B R Filtered)) :
  Forall sound_traversal ps →
  ∀ acc t (w : World B R),
    (filterSlot ps acc t w).1.1.1 = None
    ∧ (∃ res, (filterSlot ps acc t w).1.1.2 = acc ++ res
              ∧ handles t.1 ≡ₚ (lr_Result <$> res)
                              ++ handles (filterSlot ps acc t w).1.2.1)
    ∧ backend (filterSlot ps acc t w).2 = backend w
    ∧ results (filterSlot ps acc t w).2 = results w
    ∧ ∃ rel, released (filterSlot ps acc t w).2 = released w ++ rel
             ∧ (walks_succeed w → rel = []).
Proof.
  induction 1 as [|f ps Hf _ IH]; intros acc t w.
  { simpl. split_and!; try done.
    - exists []. by rewrite app_nil_r.
    - exists []. by rewrite app_nil_r. }
  simpl. unfold mbind, St_bind.
  destruct (Hf t w) as (Herr & Hperm & Hb & Hr & rel1 & Hrel1 & Hnf1).
  destruct (f t w) as [[[res err] t1] w1]. simpl in *. subst err.
  destruct (IH (acc ++ res) t1 w1)
    as (Hnone & (res' & Hres' & Hperm') & Hb' & Hr' & rel2 & Hrel2 & Hnf2).
  split_and!.
  - done.
  - exists (res ++ res'). split; [by rewrite Hres', app_assoc|].
    rewrite fmap_app, <-app_assoc, <-Hperm'. done.
  - congruence.
  - congruence.
  - exists (rel1 ++ rel2). split; [by rewrite Hrel2, Hrel1, app_assoc|].
    intros Hw. rewrite (Hnf1 Hw), Hnf2; [done|].
    unfold walks_succeed. by rewrite Hb.
Qed.

Lemma filterSlots_sound (dss : list (list (Trav → St B R Filtered))) :
  Forall (Forall sound_traversal) dss →
  ∀ acc t (w : World B R),
    (filterSlots dss acc t w).1.1.2 = None
    ∧ (∃ res, (filterSlots dss acc t w).1.1.1 = acc ++ res
              ∧ handles t.1 ≡ₚ (lr_Result <$> res)
                              ++ handles (filterSlots dss acc t w).1.2.1)
    ∧ backend (filterSlots dss acc t w).2 = backend w
    ∧ results (filterSlots dss acc t w).2 = results w
    ∧ ∃ rel, released (filterSlots dss acc t w).2 = released w ++ rel
             ∧ (walks_succeed w → rel = []).
Proof.
  induction 1 as [|ps dss Hps _ IH]; intros acc t w.
  { simpl. split_and!; try done.
    - exists []. by rewrite app_nil_r.
    - exists []. by rewrite app_nil_r. }
  simpl. unfold mbind, St_bind.
  destruct (filterSlot_sound ps Hps acc t w)
    as (Hnone & (res & Hres & Hperm) & Hb & Hr & rel1 & Hrel1 & Hnf1).
  destruct (filterSlot ps acc t w) as [[[ret acc1] t1] w1].
  simpl in *. subst ret acc1.
  destruct (IH (acc ++ res) t1 w1)
    as (Herr & (res' & Hres' & Hperm') & Hb' & Hr' & rel2 & Hrel2 & Hnf2).
  split_and!.
  - done.
  - exists (res ++ res'). split; [by rewrite Hres', app_assoc|].
    rewrite fmap_app, <-app_assoc, <-Hperm'. done.
  - congruence.
  - congruence.
  - exists (rel1 ++ rel2). split; [by rewrite Hrel2, Hrel1, app_assoc|].
    intros Hw. rewrite (Hnf1 Hw), Hnf2; [done|].
    unfold walks_succeed. by rewrite Hb.
Qed.

Lemma filterResults_sound (ck : CacheKey) :
  sound_traversal (filterResults (R:=R) NewID ck).
Proof.
  induction ck as [a id dg out ds IH] using CacheKey_nested_ind.
  set (ck := mkCacheKey a id dg out ds).
  intros t w. rewrite filterResults_unfold.
  unfold filterResults_of, mbind, St_bind.
  destruct (getID_resolves NewID ck w) as [Hb Hr _ Hl _ _ _].
  destruct (getID NewID ck w) as [kid w1]. simpl in Hb, Hr, Hl.
  case_bool_decide.
  { simpl. split_and!; try done. exists []. by rewrite app_nil_r. }
  unfold walkResults.
  destruct (WalkResults (backend w1) kid) as [crs err] eqn:Hwalk.
  destruct (matchResults_spec kid ck crs [] t.1) as (new & Hnew & Hperm).
  destruct (matchResults kid ck crs [] t.1) as [acc m]. simpl in Hnew, Hperm.
  subst acc.
  assert (Forall (Forall sound_traversal)
            (map (map (λ d : CacheKey * string, filterResults (R:=R) NewID d.1))
                 (deps ck))) as Hds.
  { apply Forall_fmap. eapply Forall_impl; [exact IH|]. intros ps Hps.
    apply Forall_fmap. eapply Forall_impl; [exact Hps|]. by intros d Hd. }
  set (rest := filterSlots
                 (map (map (λ d : CacheKey * string, filterResults NewID d.1))
                      (deps ck)) new (m, {[kid]} ∪ t.2)).
  assert (∀ w2 : World B R,
            backend w2 = backend w → results w2 = results w →
            (∃ rel, released w2 = released w ++ rel
                    ∧ (walks_succeed w → rel = [])) →
            (rest w2).1.1.2 = None
            ∧ handles t.1 ≡ₚ (lr_Result <$> (rest w2).1.1.1)
                            ++ handles (rest w2).1.2.1
            ∧ backend (rest w2).2 = backend w
            ∧ results (rest w2).2 = results w
            ∧ ∃ rel, released (rest w2).2 = released w ++ rel
                     ∧ (walks_succeed w → rel = [])) as Hfin.
  { intros w2 Hb2 Hr2 (rel0 & Hrel0 & Hnf0). subst rest.
    destruct (filterSlots_sound _ Hds new (m, {[kid]} ∪ t.2) w2)
      as (Herr & (res & Hres & Hperm') & Hb' & Hr' & rel & Hrel & Hnf).
    split_and!.
    - done.
    - etrans; [exact Hperm|]. rewrite Hres, fmap_app, <-app_assoc.
      apply Permutation_app_head. exact Hperm'.
    - congruence.
    - congruence.
    - exists (rel0 ++ rel). split; [by rewrite Hrel, Hrel0, app_assoc|].
      intros Hw. rewrite (Hnf0 Hw), Hnf; [done|].
      unfold walks_succeed. by rewrite Hb2. }
  destruct err as [e|]; simpl; apply Hfin; simpl; try done.
  - exists (lr_Result <$> new). rewrite Hl. split; [done|].
    intros Hw. specialize (Hw kid). rewrite <-Hb, Hwalk in Hw. done.
  - exists []. rewrite app_nil_r. by split.
Qed.

(** X4: on the bulk path, when the key storage finds the association and
    the bulk load succeeds, [LoadWithParents] succeeds, and every handle of
    the bulk mapping is accounted for exactly once: it is returned or it is
    a leftover, and every leftover is released.  No storage is written, and
    nothing but the leftovers is released unless a walk of result
    associations fails. *)
Theorem LoadWithParents_bulk_handles
    (lwp : R → CacheResult → result (gmap string Result))
    (rec : CacheRecord) (w : World B R) (cr : CacheResult)
    (m : gmap string Result) :
  resultLoadWithParents = Some lwp →
  backendLoad (backend w) (getID NewID (rec_key rec) w).1 (rec_ID rec) = Ok cr →
  lwp (results w) cr = Ok m →
  ∃ loaded rel leftovers,
    (LoadWithParents NewID rec w).1 = Ok loaded
    ∧ handles m ≡ₚ (lr_Result <$> loaded) ++ leftovers
    ∧ released (LoadWithParents NewID rec w).2 = released w ++ rel ++ leftovers
    ∧ (walks_succeed w → rel = [])
    ∧ backend (LoadWithParents NewID rec w).2 = backend w
    ∧ results (LoadWithParents NewID rec w).2 = results w.
Proof.
  intros Hcap Hload Hbulk. unfold LoadWithParents. rewrite Hcap.
  unfold mbind, St_bind.
  destruct (getID_resolves NewID (rec_key rec) w) as [Hb Hr _ Hl _ _ _].
  destruct (getID NewID (rec_key rec) w) as [id w1]. simpl in Hb, Hr, Hl, Hload.
  unfold loadBackend. rewrite Hb, Hload. unfold bulkLoad. simpl.
  rewrite Hr, Hbulk.
  destruct (filterResults_sound (rec_key rec) (m, ∅)
              (logCall (CallLoad id (rec_ID rec)) w1))
    as (Herr & Hperm & Hb' & Hr' & rel & Hrel & Hnf).
  destruct (filterResults NewID (rec_key rec) (m, ∅) _)
    as [[[loaded err] t] w2].
  simpl in Herr, Hperm, Hb', Hr', Hrel. subst err. simpl.
  exists loaded, rel, (handles t.1). split_and!; try done.
  - by rewrite Hrel, Hl, app_assoc.
  - intros Hw. apply Hnf. unfold walks_succeed. simpl. by rewrite Hb.
  - congruence.
  - congruence.
Qed.

(** X5: [LoadWithParents] fails only where the key storage's [Load] fails
    or where loading the artifact fails (the bulk load if the result storage
    has it, the plain load otherwise), and returns that error; a failed
    call has written to no storage and released nothing. *)
Theorem LoadWithParents_failure (rec : CacheRecord) (w : World B R) (e : error) :
  (LoadWithParents NewID rec w).1 = Err e →
  let id := (getID NewID (rec_key rec) w).1 in
  let w' := (LoadWithParents NewID rec w).2 in
  (backendLoad (backend w) id (rec_ID rec) = Err e
   ∨ ∃ cr, backendLoad (backend w) id (rec_ID rec) = Ok cr
           ∧ match resultLoadWithParents with
             | Some lwp => lwp (results w) cr = Err e
             | None => resultLoad (results w) cr = Err e
             end)
  ∧ backend w' = backend w ∧ results w' = results w
  ∧ released w' = released w.
Proof.
  unfold LoadWithParents.
  destruct resultLoadWithParents as [lwp|] eqn:Hcap.
  - unfold mbind, St_bind.
    destruct (getID_resolves NewID (rec_key rec) w) as [Hb Hr _ Hl _ _ _].
    destruct (getID NewID (rec_key rec) w) as [id w1].
    simpl in Hb, Hr, Hl |- *.
    unfold loadBackend. rewrite Hb.
    destruct (backendLoad (backend w) id (rec_ID rec)) as [cr|e'] eqn:Hload;
      simpl; last first.
    { intros [= ->]. split_and!; try done. by left. }
    unfold bulkLoad. simpl. rewrite Hr.
    destruct (lwp (results w) cr) as [m|e'] eqn:Hbulk; simpl.
    + destruct (filterResults NewID (rec_key rec) (m, ∅) _)
        as [[[loaded err] t] w2]. by destruct err.
    + intros [= ->]. split_and!; try done. right. by exists cr.
  - unfold Load, mbind, St_bind.
    destruct (getID_resolves NewID (rec_key rec) w) as [Hb Hr _ Hl _ _ _].
    pose proof (getID_memo NewID (rec_key rec) w) as Hm.
    destruct (getID NewID (rec_key rec) w) as [id w1].
    simpl in Hb, Hr, Hl, Hm |- *.
    unfold loadBackend. rewrite Hb.
    destruct (backendLoad (backend w) id (rec_ID rec)) as [cr|e'] eqn:Hload;
      simpl; last first.
    { intros [= ->]. split_and!; try done. by left. }
    unfold loadResult. simpl. rewrite Hr.
    destruct (resultLoad (results w) cr) as [res|e'] eqn:Hres; simpl.
    + rewrite (getID_cached NewID (rec_key rec) _ id) by done. done.
    + intros [= ->]. split_and!; try done. right. by exists cr.
Qed.
End MoreLoad.

(** ** Records and Query *)

Section MoreQuery.
Context {B R : Type} `{!CacheKeyStorage B, !CacheResultStorage R}.
Variable FromBytes : string → string.
Variable NewID : nat → string.


(** *** The keys Query returns *)

Lemma discover_shape dgst output found : ∀ allRes (w : World B R),
  NoDup allRes.*1 → Forall (query_key dgst output) allRes →
  NoDup (discover dgst output found allRes w).1.*1
  ∧ Forall (query_key dgst output) (discover dgst output found allRes w).1.
Proof.
  induction found as [|x found IH]; intros allRes w Hnd Hall; [done|].
  simpl. case_bool_decide as Hx; [by apply IH|].
  unfold mbind, St_bind. simpl. apply IH.
  - rewrite fmap_app. apply NoDup_app. split_and!; [done| |apply NoDup_singleton].
    intros y Hy Hy'. apply list_elem_of_singleton in Hy'. by subst.
  - apply Forall_app. split; [done|]. by repeat constructor.
Qed.

Lemma queryWalk_shape input dgst output deps :
  ∀ allRes (w : World B R) sets allRes' w',
  NoDup allRes.*1 → Forall (query_key dgst output) allRes →
  queryWalk NewID input dgst output deps allRes w = (Ok (sets, allRes'), w') →
  NoDup allRes'.*1 ∧ Forall (query_key dgst output) allRes'.
Proof.
  induction deps as [|d deps IH]; intros allRes w sets allRes' w' Hnd Hall Hrun.
  { simpl in Hrun. unfold mret, St_ret in Hrun. by simplify_eq. }
  simpl in Hrun. unfold mbind, St_bind in Hrun.
  destruct (getID NewID d.1 w) as [pid w1].
  unfold walkLinks at 1 in Hrun.
  destruct (WalkLinks (backend w1) pid _) as [found err].
  destruct (discover_shape dgst output found allRes
              (logCall (CallWalkLinks pid
                          (mkCacheInfoLink input output dgst d.2)) w1) Hnd Hall)
    as [Hnd1 Hall1].
  destruct (discover dgst output found allRes _) as [allRes1 w3].
  simpl in Hnd1, Hall1. destruct err as [e|]; [done|].
  destruct (queryWalk NewID input dgst output deps allRes1 w3)
    as [[[sets1 allRes2]|e] w4] eqn:Hrest; [|done].
  unfold mret, St_ret in Hrun. simplify_eq. by eapply IH.
Qed.

(** X7: the keys a successful [Query] returns have pairwise distinct
    identifiers, carry the digest and the output asked for, and have no
    parents. *)
Theorem Query_keys_distinct (ds : list CacheKeyWithSelector) (input : Index)
    (dgst : string) (out : Index) (w : World B R) (keys : list CacheKey)
    (w' : World B R) :
  Query FromBytes NewID ds input dgst out w = (Ok keys, w') →
  NoDup (ID <$> keys)
  ∧ Forall (λ k, digest k = dgst ∧ output k = out ∧ deps k = []) keys.
Proof.
  intros Hq. unfold Query, mbind, St_bind in Hq.
  destruct (queryWalk NewID input dgst out ds [] w)
    as [[[sets allRes]|e] w1] eqn:Hwalk; [|done].
  destruct (queryWalk_shape input dgst out ds [] w sets allRes w1)
    as [Hnd Hall]; [constructor|constructor|done|].
  destruct (linkResults NewID input dgst out allRes (zip ds sets) w1)
    as [[e|] w2]; [done|].
  case_bool_decide as Hd.
  - unfold existsKey in Hq. destruct (backendExists _ _); simpl in Hq;
      unfold mret, St_ret in Hq; simplify_eq.
    + split; [apply NoDup_singleton|]. by repeat constructor.
    + split; [constructor|constructor].
  - unfold mret, St_ret in Hq. simplify_eq. split.
    + assert (ID <$> allRes.*2 = allRes.*1) as ->; [|done].
      clear -Hall. induction Hall as [|[id k] l (Hid & _) _ IH]; [done|].
      simpl in Hid. cbn. rewrite Hid. f_equal. exact IH.
    + clear -Hall. induction Hall as [|[id k] l (_ & ? & ? & ?) _ IH];
        constructor; [done|exact IH].
Qed.
Lemma discover_backend dgst output found : ∀ allRes (w : World B R),
  backend (discover dgst output found allRes w).2 = backend w.
Proof.
  induction found as [|x found IH]; intros allRes w; [done|].
  simpl. case_bool_decide; [apply IH|].
  unfold mbind, St_bind. simpl. by rewrite IH.
Qed.

Lemma queryWalk_backend input dgst output deps : ∀ allRes (w : World B R),
  backend (queryWalk NewID input dgst output deps allRes w).2 = backend w.
Proof.
  induction deps as [|d deps IH]; intros allRes w; [done|].
  simpl. unfold mbind, St_bind.
  destruct (getID_resolves NewID d.1 w) as [Hb _ _ _ _ _ _].
  destruct (getID NewID d.1 w) as [pid w1]. simpl in Hb.
  unfold walkLinks at 1.
  destruct (WalkLinks (backend w1) pid _) as [found err].
  pose proof (discover_backend dgst output found allRes
                (logCall (CallWalkLinks pid
                            (mkCacheInfoLink input output dgst d.2)) w1)) as Hd.
  destruct (discover dgst output found allRes _) as [allRes1 w3].
  simpl in Hd. destruct err as [e|]; simpl; [congruence|].
  specialize (IH allRes1 w3).
  destruct (queryWalk NewID input dgst output deps allRes1 w3)
    as [[[sets1 allRes2]|e] w4]; simpl in *; congruence.
Qed.

Lemma queryWalk_all_walked input dgst output deps :
  ∀ allRes (w : World B R) sets allRes' w',
  Forall (λ d : CacheKeyWithSelector, acyclic d.1 = true) deps →
  fresh_ids w → below_heap w deps → resolved_all w allRes →
  queryWalk NewID input dgst output deps allRes w = (Ok (sets, allRes'), w') →
  ∀ d, d ∈ deps →
    ∃ pid, ids w' !! addr d.1 = Some pid
           ∧ (WalkLinks (backend w) pid (queryLink input dgst output d)).2 = None.
Proof.
  induction deps as [|d deps IH];
    intros allRes w sets allRes' w' Hac Hf Hbelow Hr Hrun d' Hd'.
  { by apply elem_of_nil in Hd'. }
  apply Forall_cons in Hac as [Hd Hac].
  simpl in Hrun. unfold mbind, St_bind in Hrun.
  pose proof (getID_memo NewID d.1 w) as Hm.
  pose proof (getID_extends NewID d.1 Hd w) as [Hres Hsub].
  destruct (getID NewID d.1 w) as [pid w1]. simpl in Hm, Hres, Hsub.
  destruct Hres as [Hb1 _ Hh1 _ _ _ Hdom1].
  unfold walkLinks at 1 in Hrun. fold (queryLink input dgst output d) in Hrun.
  destruct (WalkLinks (backend w1) pid (queryLink input dgst output d))
    as [found err] eqn:Hwalk.
  set (w2 := logCall (CallWalkLinks pid (queryLink input dgst output d)) w1) in *.
  assert (fresh_ids w2) as Hf2.
  { intros a Ha. simpl in *. rewrite Hh1. apply Hdom1 in Ha.
    apply elem_of_union in Ha as [Ha|Ha]; [by apply Hf|].
    apply (Hbelow d a); [apply list_elem_of_here|done]. }
  assert (resolved_all w2 allRes) as Hr2.
  { intros id key Hin. destruct (Hr id key Hin) as [Hid ?]. split; [|done].
    simpl. by eapply lookup_weaken. }
  destruct (discover_spec FromBytes dgst output found allRes w2 Hf2 Hr2)
    as (Hb3 & Ht3 & Hs3 & Hh3 & Hf3 & Hr3 & Hiff3).
  destruct (discover dgst output found allRes w2) as [allRes1 w3].
  simpl in Hb3, Ht3, Hs3, Hh3, Hf3, Hr3, Hiff3.
  destruct err as [e|]; [done|].
  destruct (queryWalk NewID input dgst output deps allRes1 w3)
    as [[[sets1 allRes2]|e] w4] eqn:Hrest; [|done].
  unfold mret, St_ret in Hrun. simplify_eq.
  assert (below_heap w3 deps) as Hbelow3.
  { intros d0 a Hd0 Ha.
    specialize (Hbelow d0 a (list_elem_of_further _ _ _ Hd0) Ha).
    simpl in Hh3. lia. }
  destruct (queryWalk_spec FromBytes NewID input dgst output deps allRes1 w3 sets1
              allRes' w' Hac Hf3 Hbelow3 Hr3 Hrest) as (_ & Hs' & _).
  assert (backend w3 = backend w) as Hbw by (simpl in Hb3; congruence).
  apply elem_of_cons in Hd' as [->|Hd'].
  - exists pid. split.
    + eapply lookup_weaken; [|exact Hs']. eapply lookup_weaken; [|exact Hs3].
      done.
    + by rewrite <-Hb1, Hwalk.
  - rewrite <-Hbw. by eapply IH.
Qed.

(** X8: when the link walk from one of the dependencies fails, [Query]
    returns an error and has written nothing to the key storage: no link
    of the results of the earlier walks is added. *)
Theorem Query_walk_failure `{!CacheKeyStorageLaws B}
    (deps : list CacheKeyWithSelector) (input : Index) (dgst : string)
    (output : Index) (w : World B R) :
  Forall (λ d : CacheKeyWithSelector, acyclic d.1 = true) deps →
  fresh_ids w → below_heap w deps →
  let w' := (Query FromBytes NewID deps input dgst output w).2 in
  (∃ d pid, d ∈ deps ∧ ids w' !! addr d.1 = Some pid
            ∧ (WalkLinks (backend w) pid (queryLink input dgst output d)).2
              ≠ None) →
  (∃ e, (Query FromBytes NewID deps input dgst output w).1 = Err e)
  ∧ backend w' = backend w.
Proof.
  intros Hac Hf Hbelow w' (d & pid & Hd & Hpid & Hfail). subst w'.
  unfold Query, mbind, St_bind in Hpid |- *.
  pose proof (queryWalk_backend input dgst output deps [] w) as Hb.
  destruct (queryWalk NewID input dgst output deps [] w)
    as [[[sets allRes]|e] w1] eqn:Hwalk; simpl in Hb; last first.
  { split; [by exists e|done]. }
  exfalso.
  assert (resolved_all w []) as Hr0.
  { intros id key Hin. by apply elem_of_nil in Hin. }
  destruct (queryWalk_spec FromBytes NewID input dgst output deps [] w sets allRes w1
              Hac Hf Hbelow Hr0 Hwalk) as (_ & _ & _ & Hr1 & Hall & _).
  destruct (queryWalk_all_walked input dgst output deps [] w sets allRes w1
              Hac Hf Hbelow Hr0 Hwalk d Hd) as (pid' & Hpid' & Hok).
  assert (∀ d dres, (d, dres) ∈ zip deps sets → is_Some (ids w1 !! addr d.1))
    as Hdeps.
  { intros d0 dres Hin.
    destruct (Forall2_zip_elem _ _ _ _ _ Hall Hin) as (p & Hp & _).
    by exists p. }
  destruct (linkResults_spec NewID input dgst output (zip deps sets) allRes w1
              Hr1 Hdeps) as [(Hids & _) _].
  destruct (linkResults NewID input dgst output allRes (zip deps sets) w1)
    as [err w2].
  simpl in Hids.
  assert (deps ≠ []) as Hne by (intros ->; by apply elem_of_nil in Hd).
  assert (ids w2 !! addr d.1 = Some pid) as Hpid2.
  { destruct err as [e|]; [done|].
    by rewrite bool_decide_eq_false_2 in Hpid by done. }
  rewrite Hids in Hpid2. by simplify_eq.
Qed.
End MoreQuery.

(** ** Garbage collection *)

Section GC.
Context {B R : Type} `{!CacheKeyStorage B, !CacheResultStorage R}.
Context `{!CacheKeyStorageExtra B}.

Lemma releasedIDs_app t1 t2 :
  releasedIDs (t1 ++ t2) = releasedIDs t1 ++ releasedIDs t2.
Proof. apply omap_app. Qed.

Lemma releasedIDs_releases rids : releasedIDs (CallRelease <$> rids) = rids.
Proof.
  unfold releasedIDs. induction rids as [|r rids IH]; [done|]. simpl.
  by f_equal.
Qed.

Lemma releaseIDs_app (b : B) r1 r2 :
  releaseIDs b (r1 ++ r2) = releaseIDs (releaseIDs b r1) r2.
Proof. apply foldl_app. Qed.

Lemma releaseWalk_log crs : ∀ visited (w : World B R),
  let r := releaseWalk crs visited w in
  results r.2 = results w ∧ ids r.2 = ids w ∧ released r.2 = released w
  ∧ r.1 = visited ∪ list_to_set (cr_ID <$> crs)
  ∧ ∃ rids, trace r.2 = trace w ++ (CallRelease <$> rids)
            ∧ backend r.2 = releaseIDs (backend w) rids
            ∧ NoDup rids
            ∧ (∀ rid, rid ∈ rids →
                 (rid ∉ visited) ∧ rid ∈ cr_ID <$> crs
                 ∧ resultExists (results w) rid = false)
            ∧ (∀ rid, rid ∈ cr_ID <$> crs → rid ∉ visited →
                 resultExists (results w) rid = false → rid ∈ rids).
Proof.
  induction crs as [|cr crs IH]; intros visited w r; subst r.
  { simpl. split_and!; try done; [set_solver|]. exists []. simpl.
    rewrite app_nil_r. split_and!; [done|done|constructor| |].
    - intros rid Hin. by apply elem_of_nil in Hin.
    - intros rid Hin. by apply elem_of_nil in Hin. }
  simpl. case_bool_decide as Hv.
  - destruct (IH visited w)
      as (Hr & Hi & Hl & HV & rids & Ht & Hb & Hnd & Hall & Hcom).
    split_and!; try done; [rewrite HV; set_solver|].
    exists rids. split_and!; try done.
    + intros rid Hin.
      destruct (Hall rid Hin) as (? & ? & ?). split_and!; try done.
      by apply list_elem_of_further.
    + intros rid Hin Hnv Hex. apply elem_of_cons in Hin as [->|Hin]; [done|].
      by apply Hcom.
  - unfold mbind, St_bind. unfold existsResult at 1. simpl.
    destruct (resultExists (results w) (cr_ID cr)) eqn:Hex; simpl.
    + destruct (IH ({[cr_ID cr]} ∪ visited) w)
        as (Hr & Hi & Hl & HV & rids & Ht & Hb & Hnd & Hall & Hcom).
      split_and!; try done; [rewrite HV; set_solver|].
      exists rids. split_and!; try done.
      * intros rid Hin.
        destruct (Hall rid Hin) as (Hnv & ? & ?). split_and!; try done.
        -- set_solver.
        -- by apply list_elem_of_further.
      * intros rid Hin Hnv Hex'.
        apply elem_of_cons in Hin as [->|Hin]; [congruence|].
        apply Hcom; [done| |done].
        intros [?%elem_of_singleton|?]%elem_of_union; [congruence|done].
    + unfold releaseBackend.
      destruct (Release (backend w) (cr_ID cr)) as [b' e] eqn:Hrel.
      set (w1 := logCall (CallRelease (cr_ID cr)) (setBackend b' w)).
      destruct (IH ({[cr_ID cr]} ∪ visited) w1)
        as (Hr & Hi & Hl & HV & rids & Ht & Hb & Hnd & Hall & Hcom).
      split_and!; try done; [rewrite HV; set_solver|].
      exists (cr_ID cr :: rids). split_and!.
      * rewrite Ht. simpl. by rewrite <-app_assoc.
      * rewrite Hb. simpl. by rewrite Hrel.
      * constructor; [|done]. intros Hin. destruct (Hall _ Hin) as (Hnv & _).
        set_solver.
      * intros rid Hin. apply elem_of_cons in Hin as [->|Hin].
        { split_and!; [done|apply list_elem_of_here|done]. }
        destruct (Hall rid Hin) as (Hnv & ? & ?). split_and!; try done.
        -- set_solver.
        -- by apply list_elem_of_further.
      * intros rid Hin Hnv Hex'.
        destruct (decide (rid = cr_ID cr)) as [->|Hne];
          [apply list_elem_of_here|].
        apply list_elem_of_further.
        apply elem_of_cons in Hin as [->|Hin]; [done|].
        apply Hcom; [done| |done].
        intros [?%elem_of_singleton|?]%elem_of_union; done.
Qed.

Lemma releaseKeys_log keys : ∀ visited (w : World B R),
  let r := releaseKeys keys visited w in
  results r.2 = results w ∧ ids r.2 = ids w ∧ released r.2 = released w
  ∧ visited ⊆ r.1.2
  ∧ ∃ t, trace r.2 = trace w ++ t
         ∧ backend r.2 = releaseIDs (backend w) (releasedIDs t)
         ∧ NoDup (releasedIDs t)
         ∧ ∀ rid, rid ∈ releasedIDs t →
             (rid ∉ visited) ∧ rid ∈ r.1.2
             ∧ resultExists (results w) rid = false.
Proof.
  induction keys as [|id keys IH]; intros visited w r; subst r.
  { simpl. split_and!; try done. exists []. simpl. rewrite app_nil_r.
    split_and!; [done|done|constructor|].
    intros rid Hin. by apply elem_of_nil in Hin. }
  simpl. unfold mbind, St_bind. unfold walkResults.
  destruct (WalkResults (backend w) id) as [crs err].
  set (w0 := logCall (CallWalkResults id) w).
  destruct (releaseWalk_log crs visited w0)
    as (Hr1 & Hi1 & Hl1 & HV1 & rids & Ht1 & Hb1 & Hnd1 & Hall1 & Hcom1).
  destruct (releaseWalk crs visited w0) as [V1 w1]. simpl in *.
  destruct err as [e|]; simpl.
  - split_and!; try done; [rewrite HV1; set_solver|].
    exists (CallWalkResults id :: (CallRelease <$> rids)).
    simpl. rewrite releasedIDs_releases. split_and!; try done.
    + by rewrite Ht1, <-app_assoc.
    + intros rid Hin. destruct (Hall1 rid Hin) as (? & Hc & ?).
      split_and!; try done. rewrite HV1. apply elem_of_union_r.
      by apply elem_of_list_to_set.
  - destruct (IH V1 w1) as (Hr & Hi & Hl & HV & t & Ht & Hb & Hnd & Hall).
    split_and!; try congruence; [rewrite HV1 in HV; set_solver|].
    exists (CallWalkResults id :: (CallRelease <$> rids) ++ t).
    assert (releasedIDs (CallWalkResults id :: (CallRelease <$> rids) ++ t)
            = rids ++ releasedIDs t) as ->.
    { simpl. by rewrite releasedIDs_app, releasedIDs_releases. }
    split_and!.
    + rewrite Ht, Ht1. simpl. by rewrite <-!app_assoc.
    + by rewrite Hb, Hb1, releaseIDs_app.
    + apply NoDup_app. split_and!; try done. intros rid Hin1 Hin2.
      destruct (Hall1 rid Hin1) as (_ & Hc & _).
      destruct (Hall rid Hin2) as (Hnv & _). apply Hnv. rewrite HV1.
      apply elem_of_union_r. by apply elem_of_list_to_set.
    + intros rid Hin. apply elem_of_app in Hin as [Hin|Hin].
      * destruct (Hall1 rid Hin) as (? & Hc & ?). split_and!; try done.
        apply HV. rewrite HV1. apply elem_of_union_r.
        by apply elem_of_list_to_set.
      * destruct (Hall rid Hin) as (Hnv & ? & Hex). split_and!; try done.
        -- rewrite HV1 in Hnv. set_solver.
        -- by rewrite <-Hr1.
Qed.

(** X9: a new manager starts with no key resolved and nothing released;
    its key storage is the one given after the [Release] calls of the
    collection pass, and that pass calls [Release] at most once per result
    identifier and only for identifiers whose artifact is absent from the
    result storage, which it leaves untouched. *)
Theorem NewCacheManager_releases_stale_once (storage : B) (rs : R)
    (next : positive) (minted : nat) :
  let w' := NewCacheManager storage rs next minted in
  results w' = rs ∧ ids w' = ∅ ∧ released w' = []
  ∧ backend w' = releaseIDs storage (releasedIDs (trace w'))
  ∧ NoDup (releasedIDs (trace w'))
  ∧ ∀ rid, rid ∈ releasedIDs (trace w') → resultExists rs rid = false.
Proof.
  intros w'. subst w'. unfold NewCacheManager, ReleaseUnreferenced. simpl.
  destruct (Walk storage) as [keys err].
  destruct (releaseKeys_log keys ∅ (mkWorld storage rs ∅ next minted [] []))
    as (Hr & Hi & Hl & _ & t & Ht & Hb & Hnd & Hall).
  destruct (releaseKeys keys ∅ _) as [r w1]. simpl in *.
  rewrite Ht. split_and!; try done. intros rid Hin. by apply Hall.
Qed.

Lemma releaseIDs_shrinks `{!CacheKeyStorageLaws B} rids : ∀ b : B,
  shrinks b (releaseIDs b rids).
Proof.
  induction rids as [|rid rids IH]; intros b id cr Hin; [done|].
  simpl in Hin. apply IH in Hin. by apply Release_drops in Hin as [? _].
Qed.

Lemma releaseIDs_drops `{!CacheKeyStorageLaws B} rids : ∀ (b : B) id cr,
  cr ∈ (WalkResults (releaseIDs b rids) id).1 → cr_ID cr ∉ rids.
Proof.
  induction rids as [|rid rids IH]; intros b id cr Hin.
  { apply not_elem_of_nil. }
  simpl in Hin. apply not_elem_of_cons. split; [|by eapply IH].
  apply releaseIDs_shrinks in Hin. by apply Release_drops in Hin as [_ ?].
Qed.

Lemma releaseKeys_clean `{!CacheKeyStorageLaws B} keys :
  ∀ visited (w : World B R),
  let r := releaseKeys keys visited w in
  clean (results w) (backend w) visited →
  r.1.1 = None →
  clean (results w) (backend r.2) r.1.2
  ∧ shrinks (backend w) (backend r.2)
  ∧ ∀ id cr, id ∈ keys → cr ∈ (WalkResults (backend r.2) id).1 →
             cr_ID cr ∈ r.1.2.
Proof.
  induction keys as [|id keys IH]; intros visited w r Hclean Hok; subst r.
  { simpl. split_and!; [done|by intros ?? ?|].
    intros id cr Hin. by apply elem_of_nil in Hin. }
  simpl in Hok |- *. unfold mbind, St_bind in Hok |- *.
  unfold walkResults in Hok |- *.
  destruct (WalkResults (backend w) id) as [crs err] eqn:Hwalk.
  set (w0 := logCall (CallWalkResults id) w) in *.
  destruct (releaseWalk_log crs visited w0)
    as (Hr1 & Hi1 & Hl1 & HV1 & rids & Ht1 & Hb1 & Hnd1 & Hall1 & Hcom1).
  destruct (releaseWalk crs visited w0) as [V1 w1]. simpl in *.
  destruct err as [e|]; [done|].
  assert (shrinks (backend w) (backend w1)) as Hsh1.
  { rewrite Hb1. apply releaseIDs_shrinks. }
  assert (clean (results w1) (backend w1) V1) as Hclean1.
  { intros id' cr Hin HV. rewrite Hr1.
    destruct (resultExists (results w) (cr_ID cr)) eqn:Hex; [done|].
    exfalso. rewrite HV1 in HV. apply elem_of_union in HV as [HV|HV].
    - specialize (Hclean id' cr (Hsh1 _ _ Hin) HV). congruence.
    - (* delivered by this walk: it was released *)
      pose proof Hin as Hin'.
      rewrite Hb1 in Hin. pose proof (releaseIDs_drops _ _ _ _ Hin) as Hnot.
      apply Hnot.
      destruct (decide (cr_ID cr ∈ visited)) as [Hv|Hv].
      + specialize (Hclean id' cr (Hsh1 _ _ Hin') Hv). congruence.
      + apply Hcom1; [by apply elem_of_list_to_set in HV|done|].
        done. }
  destruct (releaseKeys_log keys V1 w1) as (_ & _ & _ & Hsub & _).
  destruct (IH V1 w1 Hclean1 Hok) as (Hc & Hs & Hcov).
  split_and!.
  - by rewrite <-Hr1.
  - intros id' cr Hin. by apply Hsh1, Hs.
  - intros id' cr Hin Hcr. apply elem_of_cons in Hin as [->|Hin];
      [|by apply (Hcov id')].
    apply Hsub. rewrite HV1. apply elem_of_union_r, elem_of_list_to_set.
    apply list_elem_of_fmap. exists cr. split; [done|].
    pose proof (Hsh1 _ _ (Hs _ _ Hcr)) as Hcr'. by rewrite Hwalk in Hcr'.
Qed.

(** X10: after a pass of [ReleaseUnreferenced] that returns no error, over
    a key storage whose [Release] removes the associations of the released
    identifier and adds none, every association still stored under an
    identifier that [Walk] enumerated has its artifact, and no association
    was added. *)
Theorem ReleaseUnreferenced_collects `{!CacheKeyStorageLaws B}
    (w : World B R) :
  let r := ReleaseUnreferenced w in
  r.1 = None →
  shrinks (backend w) (backend r.2)
  ∧ ∀ id cr, id ∈ (Walk (backend w)).1 →
             cr ∈ (WalkResults (backend r.2) id).1 →
             resultExists (results w) (cr_ID cr) = true.
Proof.
  intros r Hok. subst r. unfold ReleaseUnreferenced in *.
  destruct (Walk (backend w)) as [keys err]. simpl.
  assert (clean (results w) (backend w) ∅) as Hclean.
  { intros id cr _ Hin. by apply elem_of_empty in Hin. }
  pose proof (releaseKeys_clean keys ∅ w Hclean) as Hgc.
  destruct (releaseKeys keys ∅ w) as [[e V] w1]. simpl in *.
  destruct e as [e|]; [done|].
  destruct (Hgc eq_refl) as (Hc & Hs & Hcov). split; [done|].
  intros id cr Hin Hcr. eapply Hc; [done|]. by eapply Hcov.
Qed.
End GC.

(** ** Save *)

Section SaveProofs.
Context {B R : Type} `{!CacheKeyStorage B, !CacheResultStorage R}.
Context `{!CacheKeyStorageExtra B, !CacheResultStorageSave R}.
Variable NewID : nat → string.

(** *** A frame for the persistence loops *)

Lemma ensureSlot_preserves (P : relation (World B R)) `{!PreOrder P}
    i out dg id
    (ps : list (St B R string * St B R (option error) * string)) :
  (∀ id l t, preserves P (hasLink id l t)) →
  (∀ id l t, preserves P (addLink id l t)) →
  Forall (λ p, preserves P p.1.1 ∧ preserves P p.1.2) ps →
  preserves P (ensureSlot i out dg id ps).
Proof.
  intros Hhas Hadd.
  induction 1 as [|[[getp ensurep] sel] ps [Hg He] _ IH]; simpl.
  { apply preserves_ret, _. }
  apply preserves_bind; [apply _|exact Hg|]. intros pid.
  apply preserves_bind; [apply _|apply Hhas|]. intros [|]; [done|].
  apply preserves_bind; [apply _|exact He|]. intros [e|].
  { apply preserves_ret, _. }
  apply preserves_bind; [apply _|apply Hadd|]. intros [e|]; [|done].
  apply preserves_ret, _.
Qed.

Lemma ensureSlots_preserves (P : relation (World B R)) `{!PreOrder P}
    out dg id
    (dss : list (list (St B R string * St B R (option error) * string))) :
  (∀ id l t, preserves P (hasLink id l t)) →
  (∀ id l t, preserves P (addLink id l t)) →
  Forall (Forall (λ p, preserves P p.1.1 ∧ preserves P p.1.2)) dss →
  ∀ i, preserves P (ensureSlots i out dg id dss).
Proof.
  intros Hhas Hadd.
  induction 1 as [|ps dss Hps _ IH]; intros i; simpl.
  { apply preserves_ret, _. }
  apply preserves_bind; [apply _|by apply ensureSlot_preserves|]. intros [e|].
  - apply preserves_ret, _.
  - apply IH.
Qed.

Lemma ensurePersistentKey_preserves (P : relation (World B R)) `{!PreOrder P} :
  (∀ k, preserves P (getID NewID k)) →
  (∀ id l t, preserves P (hasLink id l t)) →
  (∀ id l t, preserves P (addLink id l t)) →
  ∀ k, preserves P (ensurePersistentKey NewID k).
Proof.
  intros Hget Hhas Hadd k.
  induction k as [a id dg out ds IH] using CacheKey_nested_ind.
  rewrite ensurePersistentKey_unfold.
  apply preserves_bind; [apply _|apply Hget|]. intros kid.
  apply ensureSlots_preserves; [done..|]. simpl.
  apply Forall_fmap. eapply Forall_impl; [exact IH|]. intros ps Hps.
  apply Forall_fmap. eapply Forall_impl; [exact Hps|]. intros d Hd.
  simpl. split; [apply Hget|exact Hd].
Qed.

#[export] Instance storing_preorder : PreOrder (storing (B:=B) (R:=R)).
Proof.
  split.
  - intros w. split; [done|]. by intros id cr.
  - intros w1 w2 w3 [Hr1 Hk1] [Hr2 Hk2]. split; [congruence|].
    intros id cr Hin. by apply Hk2, Hk1.
Qed.

Lemma getID_storing k : preserves storing (getID (R:=R) NewID k).
Proof.
  intros w. destruct (getID_resolves NewID k w) as [Hb Hr _ _ _ _ _].
  split; [done|]. intros id cr. by rewrite Hb.
Qed.

Lemma ensurePersistentKey_storing `{!CacheKeyStorageExtraLaws B} k :
  preserves storing (ensurePersistentKey (R:=R) NewID k).
Proof.
  apply ensurePersistentKey_preserves; [apply _|apply getID_storing|..].
  - intros id l t w. split; [done|]. by intros id' cr.
  - intros id l t w. unfold addLink.
    pose proof (AddLink_keeps_results (backend w) id l t) as Hk.
    destruct (AddLink (backend w) id l t) as [b e]. simpl in *.
    split; [done|]. intros id' cr. apply Hk.
Qed.

(** *** The steps of a run of Save *)

Lemma Save_run k r createdAt (w : World B R) :
  let w0 := withResults (resultSave (results w) r createdAt).1 w in
  let w1 := (getID NewID k w0).2 in
  let id := (getID NewID k w0).1 in
  Save NewID k r createdAt w =
  match (resultSave (results w) r createdAt).2 with
  | Err e => (Err e, w0)
  | Ok res =>
      match (AddResult (backend w1) id res).2 with
      | Some e => (Err e, setBackend (AddResult (backend w1) id res).1 w1)
      | None =>
          let run := ensurePersistentKey NewID k
                       (setBackend (AddResult (backend w1) id res).1 w1) in
          (match run.1 with
           | Some e => Err e
           | None => Ok (mkExportableCacheKey k
                           (mkCacheRecord (cr_ID res) k (cr_CreatedAt res)))
           end, run.2)
      end
  end.
Proof.
  intros w0 w1 id. subst w0 w1 id. unfold Save, mbind, St_bind, saveResult.
  destruct (resultSave (results w) r createdAt) as [rs [res|e]]; simpl; [|done].
  unfold withResults.
  destruct (getID NewID k _) as [id w1]. simpl. unfold addResult.
  destruct (AddResult (backend w1) id res) as [b [e|]]; simpl; [done|].
  by destruct (ensurePersistentKey NewID k (setBackend b w1)) as [[e|] w3].
Qed.

Lemma Save_inv k r createdAt (w w' : World B R) eck :
  Save NewID k r createdAt w = (Ok eck, w') →
  ∃ rs res id w1 b,
    resultSave (results w) r createdAt = (rs, Ok res)
    ∧ getID NewID k (withResults rs w) = (id, w1)
    ∧ AddResult (backend w1) id res = (b, None)
    ∧ ensurePersistentKey NewID k (setBackend b w1) = (None, w')
    ∧ eck = mkExportableCacheKey k
              (mkCacheRecord (cr_ID res) k (cr_CreatedAt res)).
Proof.
  rewrite Save_run.
  destruct (resultSave (results w) r createdAt) as [rs [res|e]] eqn:Hsave;
    simpl; [|done].
  destruct (getID NewID k (withResults rs w)) as [id w1] eqn:Hid. simpl.
  destruct (AddResult (backend w1) id res) as [b [e|]] eqn:Hadd; simpl; [done|].
  destruct (ensurePersistentKey NewID k (setBackend b w1)) as [[e|] w3] eqn:He;
    simpl; [done|].
  intros [= <- <-]. by exists rs, res, id, w1, b.
Qed.

Lemma Save_stored `{!CacheKeyStorageLaws B, !CacheKeyStorageExtraLaws B,
                    !CacheResultStorageSaveLaws R}
    k r createdAt (w w' : World B R) eck :
  acyclic k = true →
  Save NewID k r createdAt w = (Ok eck, w') →
  ∃ id res,
    eck = mkExportableCacheKey k (mkCacheRecord (cr_ID res) k (cr_CreatedAt res))
    ∧ ids w' !! addr k = Some id
    ∧ res ∈ (WalkResults (backend w') id).1
    ∧ resultExists (results w') (cr_ID res) = true.
Proof.
  intros Hac (rs & res & id & w1 & b & Hsave & Hid & Hadd & He & ->)%Save_inv.
  exists id, res. split; [done|].
  pose proof (getID_memo NewID k (withResults rs w)) as Hm.
  pose proof (getID_resolves NewID k (withResults rs w)) as [_ Hr1 _ _ _ _ _].
  rewrite Hid in Hm, Hr1. simpl in Hm, Hr1.
  pose proof (ensurePersistentKey_keeps NewID k Hac (setBackend b w1)) as [Hs _].
  pose proof (ensurePersistentKey_storing k (setBackend b w1)) as [Hr3 Hk3].
  rewrite He in Hs, Hr3, Hk3. simpl in Hs, Hr3, Hk3.
  split_and!.
  - by eapply lookup_weaken.
  - apply Hk3. simpl.
    pose proof (AddResult_WalkResults (backend w1) id res) as Hw.
    rewrite Hadd in Hw. by apply Hw.
  - rewrite Hr3, Hr1. by eapply resultSave_exists.
Qed.

Lemma Save_linked `{!CacheKeyStorageLaws B, !CacheKeyStorageExtraLaws B}
    k r createdAt (w w' : World B R) eck :
  acyclic k = true →
  Save NewID k r createdAt w = (Ok eck, w') →
  linked w' k ∧ keeps w w'.
Proof.
  intros Hac (rs & res & id & w1 & b & Hsave & Hid & Hadd & He & ->)%Save_inv.
  pose proof (ensurePersistentKey_links NewID k (setBackend b w1) Hac) as Hl.
  pose proof (ensurePersistentKey_keeps NewID k Hac (setBackend b w1)) as Hk.
  rewrite He in Hl, Hk. simpl in Hl, Hk. split; [by apply Hl|].
  pose proof (getID_keeps NewID k Hac (withResults rs w)) as [Hs1 Hl1].
  rewrite Hid in Hs1, Hl1. simpl in Hs1, Hl1.
  etrans; [|exact Hk]. split; [done|]. simpl. intros id' l t Hh.
  pose proof (AddResult_keeps_links (backend w1) id res id' l t) as Hk2.
  rewrite Hadd in Hk2. by apply Hk2, Hl1.
Qed.

(** X11: after a successful [Save] of a key without pointer cycle, over
    storages that keep what they are given, the returned record is for the
    key and names an artifact that exists; the key is resolved, and the
    walk of its identifier delivers the association the record was built
    from; the key is linked from every one of its parents; and no memo
    entry and no stored link was lost. *)
Theorem Save_persists `{!CacheKeyStorageLaws B, !CacheKeyStorageExtraLaws B,
                         !CacheResultStorageSaveLaws R}
    (k : CacheKey) (r : Result) (createdAt : Z) (w w' : World B R)
    (eck : ExportableCacheKey) :
  acyclic k = true →
  Save NewID k r createdAt w = (Ok eck, w') →
  eck_CacheKey eck = k ∧ rec_key (eck_record eck) = k
  ∧ resultExists (results w') (rec_ID (eck_record eck)) = true
  ∧ (∃ id, ids w' !! addr k = Some id
           ∧ mkCacheResult (rec_ID (eck_record eck))
                           (rec_CreatedAt (eck_record eck))
             ∈ (WalkResults (backend w') id).1)
  ∧ linked w' k ∧ keeps w w'.
Proof.
  intros Hac Hsave.
  destruct (Save_stored _ _ _ _ _ _ Hac Hsave)
    as (id & res & -> & Hid & Hin & Hex).
  destruct (Save_linked _ _ _ _ _ _ Hac Hsave) as [Hl Hk].
  simpl. split_and!; try done. exists id. split; [done|]. by destruct res.
Qed.

(** X12: what [Save] stores, [Records] returns: after a successful [Save]
    of a key, a successful [Records] of the same key lists the record that
    [Save] returned. *)
Theorem Save_then_Records `{!CacheKeyStorageLaws B, !CacheKeyStorageExtraLaws B,
                             !CacheResultStorageSaveLaws R}
    (k : CacheKey) (r : Result) (createdAt : Z) (w w' w'' : World B R)
    (eck : ExportableCacheKey) (recs : list CacheRecord) :
  acyclic k = true →
  Save NewID k r createdAt w = (Ok eck, w') →
  Records NewID k w' = (Ok recs, w'') →
  eck_record eck ∈ recs.
Proof.
  intros Hac Hsave Hrec.
  destruct (Save_stored _ _ _ _ _ _ Hac Hsave)
    as (id & res & -> & Hid & Hin & Hex).
  unfold Records, mbind, St_bind in Hrec.
  rewrite (getID_cached _ _ _ _ Hid) in Hrec. unfold walkResults in Hrec.
  destruct (WalkResults (backend w') id) as [crs err].
  rewrite recordsWalk_spec in Hrec. destruct err as [e|]; [done|].
  unfold mret, St_ret in Hrec. injection Hrec as <- <-. simpl in *.
  apply list_elem_of_fmap. exists res. split; [done|].
  apply list_elem_of_filter. split; [|done]. done.
Qed.
#[export] Instance same_results_preorder :
  PreOrder (same_results (B:=B) (R:=R)).
Proof.
  split.
  - by intros w.
  - intros w1 w2 w3 [? ?] [? ?]. split; congruence.
Qed.

Lemma getID_same_results k : preserves same_results (getID (R:=R) NewID k).
Proof.
  intros w. by destruct (getID_resolves NewID k w) as [_ ? _ ? _ _ _].
Qed.

Lemma ensurePersistentKey_same_results k :
  preserves same_results (ensurePersistentKey (R:=R) NewID k).
Proof.
  apply ensurePersistentKey_preserves; [apply _|apply getID_same_results|..].
  - by intros id l t w.
  - intros id l t w. unfold addLink.
    by destruct (AddLink (backend w) id l t) as [b e].
Qed.

(** X13: a failed [Save] undoes nothing.  When the result storage refuses
    the result, [Save] returns its error and has touched neither the key
    storage nor the key nor the call log; when a later step fails, the
    artifact that was just saved still exists in the result storage.  No
    handle is released either way. *)
Theorem Save_failure `{!CacheResultStorageSaveLaws R} (k : CacheKey)
    (r : Result) (createdAt : Z) (w : World B R) (e : error) :
  (Save NewID k r createdAt w).1 = Err e →
  let w' := (Save NewID k r createdAt w).2 in
  let saved := resultSave (results w) r createdAt in
  results w' = saved.1 ∧ released w' = released w
  ∧ match saved.2 with
    | Err e' =>
        e' = e ∧ backend w' = backend w ∧ ids w' = ids w
        ∧ trace w' = trace w
    | Ok res => resultExists (results w') (cr_ID res) = true
    end.
Proof.
  rewrite Save_run. cbn zeta.
  pose proof (resultSave_exists (results w) r createdAt) as Hex.
  destruct (resultSave (results w) r createdAt) as [rs [res|e']]; simpl;
    last first.
  { intros [= ->]. by split_and!. }
  specialize (Hex rs res eq_refl).
  destruct (getID_same_results k (withResults rs w)) as [Hr1 Hl1].
  destruct (getID NewID k (withResults rs w)) as [id w1].
  simpl in Hr1, Hl1 |- *.
  destruct (AddResult (backend w1) id res) as [b [e'|]]; simpl.
  { intros _. rewrite Hr1. by split_and!. }
  destruct (ensurePersistentKey_same_results k (setBackend b w1)) as [Hr3 Hl3].
  destruct (ensurePersistentKey NewID k (setBackend b w1)) as [[e'|] w3];
    simpl in *; [|done].
  intros _. rewrite Hr3, Hr1, Hl3, Hl1. by split_and!.
Qed.

(** X15: [ensurePersistentKey] on a key without pointer cycle, whatever
    its outcome, loses no memo entry and no stored link and leaves the
    result storage and the released handles alone; when it returns no
    error, the key is resolved and linked from every one of its parents
    under the label of the parent's slot. *)
Theorem ensurePersistentKey_persists `{!CacheKeyStorageLaws B}
    (k : CacheKey) (w : World B R) :
  acyclic k = true →
  let run := ensurePersistentKey NewID k w in
  keeps w run.2 ∧ results run.2 = results w ∧ released run.2 = released w
  ∧ (run.1 = None → linked run.2 k).
Proof.
  intros Hac run. subst run.
  destruct (ensurePersistentKey_same_results k w) as [Hr Hl].
  split_and!; try done.
  - by apply ensurePersistentKey_keeps.
  - by apply ensurePersistentKey_links.
Qed.
End SaveProofs.

Section SaveQuery.
Context {B R : Type} `{!CacheKeyStorage B, !CacheResultStorage R}.
Context `{!CacheKeyStorageExtra B, !CacheResultStorageSave R}.
Variable FromBytes : string → string.
Variable NewID : nat → string.

(** X14: what [Save] stores, [Query] finds: after a successful [Save] of a
    key, a successful [Query] from dependencies that include one of the
    key's parents of slot [i], with that slot as input and the key's digest
    and output, returns a key that carries the identifier of the saved
    key. *)
Theorem Save_then_Query `{!CacheKeyStorageLaws B, !CacheKeyStorageExtraLaws B}
    (k : CacheKey) (r : Result) (createdAt : Z) (w w1 w2 : World B R)
    (eck : ExportableCacheKey) (i : nat) (ps : list CacheKeyWithSelector)
    (d : CacheKeyWithSelector) (qdeps : list CacheKeyWithSelector)
    (keys : list CacheKey) :
  acyclic k = true →
  Save NewID k r createdAt w = (Ok eck, w1) →
  deps k !! i = Some ps → d ∈ ps → d ∈ qdeps →
  Forall (λ q : CacheKeyWithSelector, acyclic q.1 = true) qdeps →
  fresh_ids w1 → below_heap w1 qdeps →
  Query FromBytes NewID qdeps (Z.of_nat i) (digest k) (output k) w1
    = (Ok keys, w2) →
  ∃ id, ids w1 !! addr k = Some id ∧ id ∈ ID <$> keys.
Proof.
  intros Hac Hsave Hi Hd Hq Hqac Hf Hbelow Hquery.
  destruct (Save_linked NewID _ _ _ _ _ _ Hac Hsave) as [(id & Hid & Hl) _].
  exists id. split; [done|].
  destruct (Hl i ps d Hi Hd) as (pid & Hpid & Hh).
  unfold Query, mbind, St_bind in Hquery.
  destruct (queryWalk NewID (Z.of_nat i) (digest k) (output k) qdeps [] w1)
    as [[[sets allRes]|e] w3] eqn:Hwalk; [|done].
  assert (resolved_all w1 []) as Hr0.
  { intros id' key Hin. by apply elem_of_nil in Hin. }
  destruct (queryWalk_spec FromBytes NewID _ _ _ qdeps [] w1 sets allRes w3
              Hqac Hf Hbelow Hr0 Hwalk) as (_ & Hsub & _ & Hr1 & Hall & Hiff).
  destruct (queryWalk_all_walked FromBytes NewID _ _ _ qdeps [] w1 sets allRes w3
              Hqac Hf Hbelow Hr0 Hwalk d Hq) as (pid' & Hpid' & Hok).
  assert (pid' = pid) as ->.
  { eapply lookup_weaken in Hpid; [|exact Hsub]. congruence. }
  destruct (linkResults NewID _ _ _ allRes (zip qdeps sets) w3)
    as [[e|] w4]; [done|].
  assert (qdeps ≠ []) as Hne by (intros ->; by apply elem_of_nil in Hq).
  rewrite bool_decide_eq_false_2 in Hquery by done.
  unfold mret, St_ret in Hquery. simplify_eq.
  rewrite (resolved_all_IDs w3 allRes Hr1). apply Hiff. right.
  destruct (Forall2_zip_l _ _ _ _ Hall Hq) as [set Hset].
  destruct (Forall2_zip_elem _ _ _ _ _ Hall Hset) as (pid'' & Hpid'' & ->).
  assert (pid'' = pid) as -> by congruence.
  eexists. split; [by eapply elem_of_zip_r|].
  apply elem_of_list_to_set. by apply WalkLinks_complete.
Qed.
End SaveQuery.

(** ** One walk per identifier *)

Section Once.
Context {B R : Type} `{!CacheKeyStorage B, !CacheResultStorage R}.
Variable NewID : nat → string.

Lemma walkedIDs_app t1 t2 : walkedIDs (t1 ++ t2) = walkedIDs t1 ++ walkedIDs t2.
Proof. apply omap_app. Qed.

Lemma walkedIDs_WalkLinks t : forallb is_WalkLinks t = true → walkedIDs t = [].
Proof.
  induction t as [|c t IH]; [done|]. simpl. intros [Hc Ht]%andb_true_iff.
  destruct c; try done. by apply IH.
Qed.

Lemma releaseAll_trace rs (w : World B R) :
  trace (releaseAll rs w).2 = trace w.
Proof. done. Qed.

Lemma filterSlot_once (ps : list (Trav → St B R Filtered)) :
  Forall once_traversal ps →
  ∀ acc t (w : World B R),
    let r := filterSlot ps acc t w in
    t.2 ⊆ r.1.2.2
    ∧ (∀ ret, r.1.1.1 = Some ret → ret.2 = r.1.2)
    ∧ ∃ tr, trace r.2 = trace w ++ tr
            ∧ NoDup (walkedIDs tr)
            ∧ ∀ id, id ∈ walkedIDs tr → (id ∉ t.2) ∧ id ∈ r.1.2.2.
Proof.
  induction 1 as [|f ps Hf _ IH]; intros acc t w r; subst r.
  { simpl. split_and!; try done. exists []. rewrite app_nil_r.
    split_and!; [done|constructor|]. intros id Hin.
    by apply elem_of_nil in Hin. }
  simpl. unfold mbind, St_bind.
  destruct (Hf t w) as (Hsub & tr1 & Ht1 & Hnd1 & Hall1).
  destruct (f t w) as [[[res err] t1] w1]. simpl in Hsub, Ht1, Hall1.
  destruct err as [e|].
  - simpl. split_and!; try done.
    + by intros ret [= <-].
    + by exists tr1.
  - destruct (IH (acc ++ res) t1 w1) as (Hsub2 & Hret & tr2 & Ht2 & Hnd2 & Hall2).
    split_and!; [set_solver|done|].
    exists (tr1 ++ tr2). split_and!.
    + by rewrite Ht2, Ht1, app_assoc.
    + rewrite walkedIDs_app. apply NoDup_app. split_and!; try done.
      intros id Hin1 Hin2. destruct (Hall1 id Hin1) as [_ Hv].
      destruct (Hall2 id Hin2) as [Hnv _]. done.
    + intros id. rewrite walkedIDs_app. intros [Hin|Hin]%elem_of_app.
      * destruct (Hall1 id Hin) as [? ?]. split; [done|]. by apply Hsub2.
      * destruct (Hall2 id Hin) as [Hn ?]. split; [|done].
        intros ?. by apply Hn, Hsub.
Qed.

Lemma filterSlots_once (dss : list (list (Trav → St B R Filtered))) :
  Forall (Forall once_traversal) dss →
  ∀ acc t (w : World B R),
    let r := filterSlots dss acc t w in
    t.2 ⊆ r.1.2.2
    ∧ ∃ tr, trace r.2 = trace w ++ tr
            ∧ NoDup (walkedIDs tr)
            ∧ ∀ id, id ∈ walkedIDs tr → (id ∉ t.2) ∧ id ∈ r.1.2.2.
Proof.
  induction 1 as [|ps dss Hps _ IH]; intros acc t w r; subst r.
  { simpl. split; [done|]. exists []. rewrite app_nil_r.
    split_and!; [done|constructor|]. intros id Hin.
    by apply elem_of_nil in Hin. }
  simpl. unfold mbind, St_bind.
  destruct (filterSlot_once ps Hps acc t w)
    as (Hsub & Hret & tr1 & Ht1 & Hnd1 & Hall1).
  destruct (filterSlot ps acc t w) as [[[ret acc1] t1] w1].
  simpl in Hsub, Hret, Ht1, Hall1.
  destruct ret as [ret|].
  - simpl. rewrite (Hret ret eq_refl). split; [done|]. by exists tr1.
  - destruct (IH acc1 t1 w1) as (Hsub2 & tr2 & Ht2 & Hnd2 & Hall2).
    split; [set_solver|].
    exists (tr1 ++ tr2). split_and!.
    + by rewrite Ht2, Ht1, app_assoc.
    + rewrite walkedIDs_app. apply NoDup_app. split_and!; try done.
      intros id Hin1 Hin2. destruct (Hall1 id Hin1) as [_ Hv].
      destruct (Hall2 id Hin2) as [Hnv _]. done.
    + intros id. rewrite walkedIDs_app. intros [Hin|Hin]%elem_of_app.
      * destruct (Hall1 id Hin) as [? ?]. split; [done|]. by apply Hsub2.
      * destruct (Hall2 id Hin) as [Hn ?]. split; [|done].
        intros ?. by apply Hn, Hsub.
Qed.

Lemma filterResults_once (ck : CacheKey) :
  once_traversal (filterResults (R:=R) NewID ck).
Proof.
  induction ck as [a id dg out ds IH] using CacheKey_nested_ind.
  set (ck := mkCacheKey a id dg out ds).
  intros t w. rewrite filterResults_unfold.
  unfold filterResults_of, mbind, St_bind.
  destruct (getID_resolves NewID ck w) as [_ _ _ _ _ (t0 & Ht0 & Hwl) _].
  destruct (getID NewID ck w) as [kid w1]. simpl in Ht0.
  apply walkedIDs_WalkLinks in Hwl.
  case_bool_decide as Hv.
  { simpl. split; [done|]. exists t0. rewrite Hwl.
    split_and!; [done|constructor|]. intros x Hin.
    by apply elem_of_nil in Hin. }
  unfold walkResults.
  destruct (WalkResults (backend w1) kid) as [crs err].
  destruct (matchResults kid ck crs [] t.1) as [acc m].
  assert (Forall (Forall once_traversal)
            (map (map (λ d : CacheKey * string, filterResults (R:=R) NewID d.1))
                 (deps ck))) as Hds.
  { apply Forall_fmap. eapply Forall_impl; [exact IH|]. intros ps Hps.
    apply Forall_fmap. eapply Forall_impl; [exact Hps|]. by intros d Hd. }
  set (rest := filterSlots
                 (map (map (λ d : CacheKey * string, filterResults NewID d.1))
                      (deps ck)) acc (m, {[kid]} ∪ t.2)).
  assert (∀ w2 : World B R,
            trace w2 = trace w ++ t0 ++ [CallWalkResults kid] →
            t.2 ⊆ (rest w2).1.2.2
            ∧ ∃ tr, trace (rest w2).2 = trace w ++ tr
                    ∧ NoDup (walkedIDs tr)
                    ∧ ∀ x, x ∈ walkedIDs tr → (x ∉ t.2) ∧ x ∈ (rest w2).1.2.2)
    as Hfin.
  { intros w2 Ht2. subst rest.
    destruct (filterSlots_once _ Hds acc (m, {[kid]} ∪ t.2) w2)
      as (Hsub & tr & Htr & Hnd & Hall). simpl in Hsub, Hall.
    split; [set_solver|].
    exists (t0 ++ [CallWalkResults kid] ++ tr).
    assert (walkedIDs (t0 ++ [CallWalkResults kid] ++ tr)
            = kid :: walkedIDs tr) as ->.
    { by rewrite !walkedIDs_app, Hwl. }
    split_and!.
    - by rewrite Htr, Ht2, <-!app_assoc.
    - constructor; [|done]. intros Hin. destruct (Hall kid Hin) as [Hn _].
      set_solver.
    - intros x [->|Hin]%elem_of_cons.
      + split; [done|]. apply Hsub. set_solver.
      + destruct (Hall x Hin) as [Hn ?]. split; [set_solver|done]. }
  destruct err as [e|]; simpl; apply Hfin; simpl; by rewrite Ht0, <-app_assoc.
Qed.

(** X16: in one call of [LoadWithParents], whatever the key graph, the
    result associations of no identifier are walked twice: the visited set
    stops the traversal at every identifier it has met, so shared and
    repeated parents cost one walk. *)
Theorem LoadWithParents_walks_once (rec : CacheRecord) (w : World B R) :
  ∃ tr, trace (LoadWithParents NewID rec w).2 = trace w ++ tr
        ∧ NoDup (walkedIDs tr).
Proof.
  unfold LoadWithParents.
  destruct (getID_resolves NewID (rec_key rec) w)
    as [_ _ _ _ _ (t0 & Ht0 & Hwl) _].
  apply walkedIDs_WalkLinks in Hwl.
  destruct resultLoadWithParents as [lwp|].
  - unfold mbind, St_bind.
    destruct (getID NewID (rec_key rec) w) as [id w1]. simpl in Ht0.
    unfold loadBackend.
    destruct (backendLoad (backend w1) id (rec_ID rec)) as [cr|e]; simpl;
      last first.
    { exists (t0 ++ [CallLoad id (rec_ID rec)]).
      rewrite Ht0, <-app_assoc, walkedIDs_app, Hwl. split; [done|constructor]. }
    unfold bulkLoad. simpl.
    destruct (lwp (results w1) cr) as [m|e]; simpl; last first.
    { exists (t0 ++ [CallLoad id (rec_ID rec)]).
      rewrite Ht0, <-app_assoc, walkedIDs_app, Hwl. split; [done|constructor]. }
    destruct (filterResults_once (rec_key rec) (m, ∅)
                (logCall (CallLoad id (rec_ID rec)) w1))
      as (_ & tr & Htr & Hnd & _).
    destruct (filterResults NewID (rec_key rec) (m, ∅) _)
      as [[[loaded err] t] w2]. simpl in Htr.
    exists (t0 ++ [CallLoad id (rec_ID rec)] ++ tr). split.
    + destruct err; simpl; by rewrite Htr, Ht0, <-!app_assoc.
    + by rewrite !walkedIDs_app, Hwl.
  - unfold mbind, St_bind, Load, mbind, St_bind.
    pose proof (getID_memo NewID (rec_key rec) w) as Hm.
    destruct (getID NewID (rec_key rec) w) as [id w1]. simpl in Ht0, Hm.
    unfold loadBackend.
    exists (t0 ++ [CallLoad id (rec_ID rec)]).
    rewrite walkedIDs_app, Hwl. split; [|constructor].
    destruct (backendLoad (backend w1) id (rec_ID rec)) as [cr|e]; simpl.
    + unfold loadResult. simpl.
      destruct (resultLoad (results w1) cr) as [res|e]; simpl.
      * rewrite (getID_cached NewID (rec_key rec) _ id) by done. simpl.
        by rewrite Ht0, <-app_assoc.
      * by rewrite Ht0, <-app_assoc.
    + by rewrite Ht0, <-app_assoc.
Qed.
End Once.

(** ** The stubs obey the laws of the added operations *)

Lemma StubStore_extra_laws : CacheKeyStorageExtraLaws StubStore.
Proof.
  split.
  - intros b id cr. simpl. unfold stub_add_result, stub_walk_results.
    destruct (stub_readonly b); [done|]. simpl. intros _.
    apply list_elem_of_fmap. exists (id, cr). split; [done|].
    apply list_elem_of_filter. split; [done|]. set_solver.
  - intros b id cr id' l t. simpl. unfold stub_add_result, stub_has_link.
    by destruct (stub_readonly b).
  - intros b id l t id' cr. simpl. unfold stub_add_link, stub_walk_results.
    by destruct (stub_readonly b).
  - intros b id l t. simpl. unfold stub_walk_links, stub_has_link. simpl.
    intros _. rewrite bool_decide_eq_true. intros Hin.
    apply list_elem_of_fmap. exists (id, l, t). split; [done|].
    by apply list_elem_of_filter.
Qed.

Lemma StubArtifacts_save_laws : CacheResultStorageSaveLaws StubArtifacts.
Proof.
  split. intros r h createdAt r' cr. simpl. case_bool_decide; [done|].
  intros [= <- <-]. simpl. apply bool_decide_eq_true. set_solver.
Qed.

(** ** The further properties on concrete inputs *)

(** [LoadWithParents] of a record of [A] without the bulk capability. *)
Lemma LoadWithParents_fallback_witness :
  resultLoadWithParents (R:=PlainArtifacts) = None
  ∧ (LoadWithParents stubNewID staleRecord plainWorld).1
    = Ok [mkLoadedResult "r1" (mkCacheResult "A" 10%Z) demoA].
Proof.
  split; [reflexivity|].
  rewrite (LoadWithParents_fallback stubNewID staleRecord plainWorld);
    [|reflexivity].
  vm_compute. reflexivity.
Defined.

(** The bulk load of two handles for a key that matches one of them. *)
Lemma LoadWithParents_bulk_handles_witness :
  backendLoad (backend bulkWorld)
    (getID stubNewID (rec_key leak_record) bulkWorld).1 (rec_ID leak_record)
  = Ok leak_result
  ∧ walks_succeed bulkWorld
  ∧ ∃ loaded leftovers,
      (LoadWithParents stubNewID leak_record bulkWorld).1 = Ok loaded
      ∧ handles (art_bulk leak_artifacts) ≡ₚ (lr_Result <$> loaded) ++ leftovers
      ∧ released (LoadWithParents stubNewID leak_record bulkWorld).2
        = leftovers.
Proof.
  assert (walks_succeed bulkWorld) as Hw by (intros id; reflexivity).
  split; [vm_compute; reflexivity|]. split; [exact Hw|].
  destruct (LoadWithParents_bulk_handles stubNewID
              (λ r _, Ok (art_bulk r)) leak_record bulkWorld leak_result
              (art_bulk leak_artifacts))
    as (loaded & rel & leftovers & Hrun & Hperm & Hrel & Hnone & _);
    [reflexivity|vm_compute; reflexivity|reflexivity|].
  exists loaded, leftovers. split_and!; [exact Hrun|exact Hperm|].
  rewrite Hrel, (Hnone Hw). reflexivity.
Defined.

(** [LoadWithParents] of a record whose association is not stored. *)
Lemma LoadWithParents_failure_witness :
  (LoadWithParents stubNewID lostRecord demoWorld).1 = Err "not found"
  ∧ backend (LoadWithParents stubNewID lostRecord demoWorld).2
    = backend demoWorld
  ∧ released (LoadWithParents stubNewID lostRecord demoWorld).2 = [].
Proof.
  split; [vm_compute; reflexivity|].
  destruct (LoadWithParents_failure stubNewID lostRecord demoWorld "not found")
    as (_ & Hb & _ & Hl); [vm_compute; reflexivity|].
  split; [exact Hb|exact Hl].
Defined.


(** The keys of [Query] over [A] and [C]. *)
Lemma Query_keys_distinct_witness :
  let run := Query stubFromBytes stubNewID queryDeps 0%Z "op" 0%Z demoWorld in
  run.1 = Ok [mkCacheKey 100 "X" "op" 0%Z []]
  ∧ NoDup (ID <$> [mkCacheKey 100 "X" "op" 0%Z []])
  ∧ Forall (λ k, digest k = "op" ∧ output k = 0%Z ∧ deps k = [])
           [mkCacheKey 100 "X" "op" 0%Z []].
Proof.
  destruct (Query stubFromBytes stubNewID queryDeps 0%Z "op" 0%Z demoWorld)
    as [r w'] eqn:Hrun.
  assert (r = Ok [mkCacheKey 100 "X" "op" 0%Z []]) as ->.
  { by vm_compute in Hrun; injection Hrun as <- _. }
  split; [reflexivity|].
  apply (Query_keys_distinct stubFromBytes stubNewID queryDeps 0%Z "op" 0%Z
           demoWorld _ w' Hrun).
Defined.

(** [Query] over [A] and [B] when the walks from [B] fail. *)
Lemma Query_walk_failure_witness :
  let run := Query stubFromBytes stubNewID flakyDeps 1%Z "op" 0%Z flakyWorld in
  ids run.2 !! addr demoB = Some "B"
  ∧ (WalkLinks (backend flakyWorld) "B"
       (queryLink 1%Z "op" 0%Z (demoB, "s"))).2 = Some "walk failed"
  ∧ (∃ e, run.1 = Err e)
  ∧ backend run.2 = backend flakyWorld.
Proof.
  assert (ids (Query stubFromBytes stubNewID flakyDeps 1%Z "op" 0%Z
                 flakyWorld).2 !! addr demoB = Some "B") as Hid.
  { vm_compute. reflexivity. }
  split; [exact Hid|]. split; [reflexivity|].
  apply (Query_walk_failure (CacheKeyStorageLaws0:=StubStore_laws)
           stubFromBytes stubNewID flakyDeps 1%Z "op" 0%Z flakyWorld).
  - repeat constructor.
  - intros a Ha. vm_compute in Ha. discriminate.
  - intros d a Hd Ha. unfold flakyDeps in Hd.
    apply elem_of_cons in Hd as [->|Hd];
      [|apply list_elem_of_singleton in Hd as ->];
      simpl in Ha; apply elem_of_union in Ha as [Ha|Ha];
      try (by apply elem_of_empty in Ha);
      apply elem_of_singleton in Ha as ->; reflexivity.
  - exists (demoB, "s"), "B". split_and!.
    + apply list_elem_of_further, list_elem_of_here.
    + exact Hid.
    + discriminate.
Defined.

(** A pass over the store with one association without artifact. *)
Lemma ReleaseUnreferenced_collects_witness :
  let run := ReleaseUnreferenced staleWorld in
  run.1 = None
  ∧ (Walk (backend staleWorld)).1 = ["A"]
  ∧ ∀ cr, cr ∈ (WalkResults (backend run.2) "A").1 →
          resultExists (results staleWorld) (cr_ID cr) = true.
Proof.
  split; [vm_compute; reflexivity|]. split; [vm_compute; reflexivity|].
  destruct (ReleaseUnreferenced_collects (CacheKeyStorageLaws0:=StubStore_laws)
              staleWorld) as [_ Hall]; [vm_compute; reflexivity|].
  intros cr Hin. apply (Hall "A" cr); [|exact Hin].
  vm_compute. apply list_elem_of_here.
Defined.

(** Saving the result [h1] under [demoKey]. *)
Lemma Save_persists_witness :
  let run := Save stubNewID demoKey "h1" 5%Z demoWorld in
  acyclic demoKey = true
  ∧ (∃ eck, run.1 = Ok eck ∧ rec_ID (eck_record eck) = "h1")
  ∧ resultExists (results run.2) "h1" = true
  ∧ linked run.2 demoKey
  ∧ keeps demoWorld run.2.
Proof.
  destruct (Save stubNewID demoKey "h1" 5%Z demoWorld) as [r w'] eqn:Hrun.
  assert (r = Ok (mkExportableCacheKey demoKey
                    (mkCacheRecord "h1" demoKey 5%Z))) as ->.
  { by vm_compute in Hrun; injection Hrun as <- _. }
  destruct (Save_persists (CacheKeyStorageLaws0:=StubStore_laws)
              (CacheKeyStorageExtraLaws0:=StubStore_extra_laws)
              (CacheResultStorageSaveLaws0:=StubArtifacts_save_laws)
              stubNewID demoKey "h1" 5%Z demoWorld w' _ eq_refl Hrun)
    as (_ & _ & Hex & _ & Hl & Hk).
  simpl. split_and!; [reflexivity|by eexists|exact Hex|exact Hl|exact Hk].
Defined.

(** [Records] of [demoKey] after the save. *)
Lemma Save_then_Records_witness :
  (Save stubNewID demoKey "h1" 5%Z demoWorld).1
  = Ok (mkExportableCacheKey demoKey (mkCacheRecord "h1" demoKey 5%Z))
  ∧ (Records stubNewID demoKey savedWorld).1
    = Ok [mkCacheRecord "h1" demoKey 5%Z]
  ∧ mkCacheRecord "h1" demoKey 5%Z ∈ [mkCacheRecord "h1" demoKey 5%Z].
Proof.
  split; [vm_compute; reflexivity|]. split; [vm_compute; reflexivity|].
  destruct (Records stubNewID demoKey savedWorld) as [r w''] eqn:Hrec.
  assert (r = Ok [mkCacheRecord "h1" demoKey 5%Z]) as ->.
  { by vm_compute in Hrec; injection Hrec as <- _. }
  apply (Save_then_Records (CacheKeyStorageLaws0:=StubStore_laws)
           (CacheKeyStorageExtraLaws0:=StubStore_extra_laws)
           (CacheResultStorageSaveLaws0:=StubArtifacts_save_laws)
           stubNewID demoKey "h1" 5%Z demoWorld savedWorld w''
           (mkExportableCacheKey demoKey (mkCacheRecord "h1" demoKey 5%Z))
           _ eq_refl);
    [vm_compute; reflexivity|exact Hrec].
Defined.

(** Saving over the store that rejects every write: the artifact stays. *)
Lemma Save_failure_witness :
  let run := Save stubNewID demoKey "h1" 5%Z readonlyWorld in
  run.1 = Err "read-only store"
  ∧ resultExists (results readonlyWorld) "h1" = false
  ∧ resultExists (results run.2) "h1" = true
  ∧ released run.2 = [].
Proof.
  split; [vm_compute; reflexivity|]. split; [reflexivity|].
  destruct (Save_failure (CacheResultStorageSaveLaws0:=StubArtifacts_save_laws)
              stubNewID demoKey "h1" 5%Z readonlyWorld "read-only store")
    as (_ & Hl & Hex); [vm_compute; reflexivity|].
  split; [exact Hex|exact Hl].
Defined.

(** [Query] from the parent [C] of slot 1 after the save. *)
Lemma Save_then_Query_witness :
  let run := Query stubFromBytes stubNewID [(demoC, "s")] 1%Z "op" 0%Z
               savedWorld in
  run.1 = Ok [mkCacheKey 100 "minted-0" "op" 0%Z []]
  ∧ ∃ id, ids savedWorld !! addr demoKey = Some id
          ∧ id ∈ ID <$> [mkCacheKey 100 "minted-0" "op" 0%Z []].
Proof.
  destruct (Query stubFromBytes stubNewID [(demoC, "s")] 1%Z "op" 0%Z
              savedWorld) as [r w2] eqn:Hq.
  assert (r = Ok [mkCacheKey 100 "minted-0" "op" 0%Z []]) as ->.
  { by vm_compute in Hq; injection Hq as <- _. }
  split; [reflexivity|].
  apply (Save_then_Query (CacheKeyStorageLaws0:=StubStore_laws)
           (CacheKeyStorageExtraLaws0:=StubStore_extra_laws)
           stubFromBytes stubNewID demoKey "h1" 5%Z demoWorld savedWorld w2
           (mkExportableCacheKey demoKey (mkCacheRecord "h1" demoKey 5%Z))
           1 [(demoB, "s"); (demoC, "s")] (demoC, "s") [(demoC, "s")]).
  - reflexivity.
  - vm_compute. reflexivity.
  - reflexivity.
  - apply list_elem_of_further, list_elem_of_here.
  - apply list_elem_of_here.
  - repeat constructor.
  - intros a Ha. apply elem_of_dom in Ha as [v Ha].
    destruct (decide (a = 1%positive)) as [->|?]; [reflexivity|].
    destruct (decide (a = 2%positive)) as [->|?]; [reflexivity|].
    destruct (decide (a = 3%positive)) as [->|?]; [reflexivity|].
    destruct (decide (a = 4%positive)) as [->|?]; [reflexivity|].
    exfalso. revert Ha. unfold savedWorld.
    assert (ids (Save stubNewID demoKey "h1" 5%Z demoWorld).2
            = <[3%positive:="C"]> (<[4%positive:="minted-0"]>
                (<[2%positive:="B"]> (<[1%positive:="A"]> ∅)))) as ->.
    { vm_compute. reflexivity. }
    rewrite !lookup_insert_ne by done. by rewrite lookup_empty.
  - intros d a Hd Ha. apply list_elem_of_singleton in Hd as ->.
    simpl in Ha. apply elem_of_union in Ha as [Ha|Ha];
      [|by apply elem_of_empty in Ha].
    apply elem_of_singleton in Ha as ->. reflexivity.
  - exact Hq.
Defined.

(** Persisting [demoKey]. *)
Lemma ensurePersistentKey_persists_witness :
  let run := ensurePersistentKey stubNewID demoKey demoWorld in
  acyclic demoKey = true
  ∧ run.1 = None
  ∧ keeps demoWorld run.2
  ∧ linked run.2 demoKey.
Proof.
  split; [reflexivity|]. split; [vm_compute; reflexivity|].
  destruct (ensurePersistentKey_persists (CacheKeyStorageLaws0:=StubStore_laws)
              stubNewID demoKey demoWorld) as (Hk & _ & _ & Hl);
    [reflexivity|].
  split; [exact Hk|]. apply Hl. vm_compute. reflexivity.
Defined.
